(** * Batch normalization from scratch, and the PyTorch training loop

    A shallow embedding of the two pieces of code of the course notebooks
    that carry logic of their own:

    - [pure_batch_norm] of "05 - Batch Normalization from scratch.ipynb"
      (MXNet NDArray code);
    - the training loop of "Part 3 - Training Neural Networks" (PyTorch).

    The array library is an interface of the embedding ([NDFramework]): the
    program [pure_batch_norm] is written once against it, in the order in
    which Python evaluates the source, and is run in two interpretations:
    on array values, keeping a log of the divisors handed to [/], and on
    references into a heap of buffers.  Element arithmetic is an interface
    too ([Scalar]), with two instances: the real numbers (exact arithmetic)
    and IEEE 754 binary32 (the arithmetic of the notebook's arrays).

    Part III covers more of the two notebooks: what [pure_batch_norm] does
    with a [gamma] or [beta] of another length, the arrays it creates, its
    invariances and the statistics of its output in exact arithmetic; the
    state of the training script; the prediction cell and the autograd
    example of the PyTorch notebook. *)

From Stdlib Require Import String.
From Stdlib Require Import List Arith PeanoNat Bool Lia.
From Stdlib Require Import Sorting.Permutation.
From Stdlib Require Import ZArith Reals Lra.
From Stdlib Require Import Floats.SpecFloat.
Import ListNotations.

Set Implicit Arguments.

(* ================================================================== *)
(** * Part I: the embedding                                            *)
(* ================================================================== *)

(** ** Element arithmetic *)

(** What the array library does on one element.  [s_one] is the literal
    [1.0], [s_eps] the default [eps = 1e-5], [s_pow x n] is [x ** n] and
    [s_of_nat n] the element count by which a mean divides. *)
Class Scalar (T : Type) : Type := {
  s_zero : T;
  s_one : T;
  s_eps : T;
  s_add : T -> T -> T;
  s_sub : T -> T -> T;
  s_mul : T -> T -> T;
  s_div : T -> T -> T;
  s_pow : T -> nat -> T;
  s_sqrt : T -> T;
  s_of_nat : nat -> T
}.

(** Exact arithmetic.  Division and square root are total on [R]; where
    the code would divide by 0 or take the root of a negative number (it
    gets nan or inf), a statement over [R] says so in a hypothesis. *)
#[export] Instance Scalar_R : Scalar R := {
  s_zero := 0%R;
  s_one := 1%R;
  s_eps := (1 / 100000)%R;
  s_add := Rplus;
  s_sub := Rminus;
  s_mul := Rmult;
  s_div := Rdiv;
  s_pow := pow;
  s_sqrt := sqrt;
  s_of_nat := INR
}.

(** ** Errors *)

Inductive error : Type :=
| ValueError (msg : string)   (* raised by the Python code *)
| MXNetError                  (* raised inside the array library *)
| UnboundLocalError           (* [return out] with [out] never assigned *)
| DanglingReference.          (* a reference to no buffer (heap runs only) *)

Inductive result (X : Type) : Type :=
| Ok (x : X)
| Err (e : error).

Arguments Ok {X} x.
Arguments Err {X} e.

(** ** Shapes and row-major indexing *)

(** Number of elements of a shape. *)
Definition size_of (s : list nat) : nat := fold_right Nat.mul 1 s.

(** All multi-indices of a shape, in row-major order. *)
Fixpoint indices (s : list nat) : list (list nat) :=
  match s with
  | [] => [[]]
  | d :: s' => flat_map (fun i => map (cons i) (indices s')) (seq 0 d)
  end.

(** Row-major offset of a multi-index. *)
Fixpoint ravel (s idx : list nat) : nat :=
  match s, idx with
  | _ :: s', i :: idx' => i * size_of s' + ravel s' idx'
  | _, _ => 0
  end.

(** [idx] addresses an element of an array of shape [s]. *)
Fixpoint valid_index (s idx : list nat) : Prop :=
  match s, idx with
  | [], [] => True
  | d :: s', i :: idx' => i < d /\ valid_index s' idx'
  | _, _ => False
  end.

(** The dimensions of [l] at the positions [k, k+1, ...] that [keep] selects. *)
Fixpoint select (keep : nat -> bool) (k : nat) (l : list nat) : list nat :=
  match l with
  | [] => []
  | x :: l' =>
      if keep k then x :: select keep (S k) l' else select keep (S k) l'
  end.

(** The index into the reduced array: at the reduced axes the components of
    [ridx], at the others those of [oidx], both taken in order. *)
Fixpoint merge_index (reduced : nat -> bool) (k rank : nat)
  (oidx ridx : list nat) : list nat :=
  match rank with
  | 0 => []
  | S rank' =>
      if reduced k then
        match ridx with
        | i :: ridx' => i :: merge_index reduced (S k) rank' oidx ridx'
        | [] => []
        end
      else
        match oidx with
        | i :: oidx' => i :: merge_index reduced (S k) rank' oidx' ridx
        | [] => []
        end
  end.

(** *** Broadcasting *)

Definition broadcast_dim (a b : nat) : option nat :=
  if a =? b then Some a
  else if a =? 1 then Some b
  else if b =? 1 then Some a
  else None.

Fixpoint broadcast_dims (s1 s2 : list nat) : option (list nat) :=
  match s1, s2 with
  | [], [] => Some []
  | a :: s1', b :: s2' =>
      match broadcast_dim a b, broadcast_dims s1' s2' with
      | Some d, Some r => Some (d :: r)
      | _, _ => None
      end
  | _, _ => None
  end.

(** Shapes are aligned at their last axis; the shorter one is padded with
    ones on the left. *)
Definition pad_left (n : nat) (s : list nat) : list nat :=
  repeat 1 (n - length s) ++ s.

Definition broadcast_shape (s1 s2 : list nat) : option (list nat) :=
  let n := Nat.max (length s1) (length s2) in
  broadcast_dims (pad_left n s1) (pad_left n s2).

(** The element of an operand of shape [s] that the element [idx] of the
    broadcast result reads: the last [length s] components of [idx], and 0
    along every axis of length 1. *)
Definition bcast_index (s idx : list nat) : list nat :=
  map (fun di => if fst di =? 1 then 0 else snd di)
      (combine s (skipn (length idx - length s) idx)).

(** ** Arrays as values *)

Section Arrays.

Context {T : Type} {ST : Scalar T}.

(** An NDArray: its shape and its elements in row-major order. *)
Record NDArray : Type := mkND { shape : list nat; data : list T }.

Definition wf (X : NDArray) : Prop := length (data X) = size_of (shape X).

(** [X[i0, i1, ...]] *)
Definition get (X : NDArray) (idx : list nat) : T :=
  nth (ravel (shape X) idx) (data X) s_zero.

Definition tabulate (s : list nat) (f : list nat -> T) : NDArray :=
  mkND s (map f (indices s)).

(** The sum of the elements, added one after the other.  The library's
    reduction also carries a compensation term: in exact arithmetic it
    changes no sum, in float32 it can change the last bit of one and what
    a sum that overflows gives. *)
Definition nd_sum (l : list T) : T := fold_right s_add s_zero l.

Definition in_axes (axis : list nat) (k : nat) : bool := existsb (Nat.eqb k) axis.

(** [mx.nd.mean(X, axis)]: the reduced axes disappear from the shape (an
    array reduced along every axis has shape [(1,)]).  The library refuses
    an array with a dimension of length 0; here such an array has a mean
    (of no element), and [valid_input] leaves it out. *)
Definition mean_val (X : NDArray) (axis : list nat) : result NDArray :=
  if forallb (fun a => a <? length (shape X)) axis then
    let kept := select (fun k => negb (in_axes axis k)) 0 (shape X) in
    let red := select (in_axes axis) 0 (shape X) in
    Ok (tabulate (match kept with [] => [1] | _ => kept end)
          (fun oidx =>
             s_div
               (nd_sum (map (fun ridx =>
                               get X (merge_index (in_axes axis) 0
                                        (length (shape X)) oidx ridx))
                            (indices red)))
               (s_of_nat (size_of red))))
  else Err MXNetError.

(** [A op B] between two arrays, with broadcasting. *)
Definition broadcast_val (op : T -> T -> T) (A B : NDArray) : result NDArray :=
  match broadcast_shape (shape A) (shape B) with
  | Some s =>
      Ok (tabulate s (fun idx =>
                        op (get A (bcast_index (shape A) idx))
                           (get B (bcast_index (shape B) idx))))
  | None => Err MXNetError
  end.

(** [A op c] with a Python number [c], and [mx.nd.sqrt(A)]. *)
Definition map_val (f : T -> T) (A : NDArray) : NDArray :=
  mkND (shape A) (map f (data A)).

(** [A.reshape(s)]: a view of the first [size_of s] elements.  The library
    accepts a target no larger than the array (the notebook reshapes 17
    elements to [(2, 2, 2, 2)]).  Its special codes (0 and negative
    dimensions) are not modelled: the targets here are [(1, C, 1, 1)] with
    [C] a dimension of an existing array. *)
Definition reshape_val (A : NDArray) (s : list nat) : result NDArray :=
  if size_of s <=? length (data A) then
    Ok (mkND s (firstn (size_of s) (data A)))
  else Err MXNetError.

End Arrays.

Arguments NDArray T : clear implicits.

(** ** The array library as an interface *)

(** [M] is the computation type, [A] what a Python variable holding an
    NDArray denotes. *)
Class NDFramework (T : Type) (M : Type -> Type) (A : Type) : Type := {
  ret : forall X : Type, X -> M X;
  bind : forall X Y : Type, M X -> (X -> M Y) -> M Y;
  raise : forall X : Type, error -> M X;
  nd_shape : A -> list nat;                 (* X.shape *)
  nd_mean : A -> list nat -> M A;           (* mx.nd.mean(X, axis=...) *)
  nd_sub : A -> A -> M A;                   (* X - Y *)
  nd_add : A -> A -> M A;                   (* X + Y *)
  nd_mul : A -> A -> M A;                   (* X * Y *)
  nd_div : A -> A -> M A;                   (* X / Y *)
  nd_pow_scalar : A -> nat -> M A;          (* X ** n *)
  nd_mul_scalar : A -> T -> M A;            (* X * c *)
  nd_add_scalar : A -> T -> M A;            (* X + c *)
  nd_sqrt : A -> M A;                       (* mx.nd.sqrt(X) *)
  nd_reshape : A -> list nat -> M A         (* X.reshape(s) *)
}.

Arguments ret {T M A _ X} _.
Arguments bind {T M A _ X Y} _ _.
Arguments raise {T M A _ X} _.

Notation "x <- c ;; k" := (bind c (fun x => k))
  (at level 61, c at next level, right associativity).

(** ** [pure_batch_norm] *)

Section Program.

Context {T : Type} {ST : Scalar T} {M : Type -> Type} {A : Type}
  {FW : NDFramework T M A}.

(** The statements of the source, one array operation per line, in
    Python's order of evaluation. *)
Definition pure_batch_norm (X gamma beta : A) (eps : T) : M A :=
  if negb (existsb (Nat.eqb (length (nd_shape X))) [2; 4]) then
    raise (ValueError "only supports dense or 2dconv")
  else if length (nd_shape X) =? 2 then
    (* mean = mx.nd.mean(X, axis=0) *)
    mean <- nd_mean X [0] ;;
    (* variance = mx.nd.mean((X - mean) ** 2, axis=0) *)
    d <- nd_sub X mean ;;
    sq <- nd_pow_scalar d 2 ;;
    variance <- nd_mean sq [0] ;;
    (* X_hat = (X - mean) * 1.0 / mx.nd.sqrt(variance + eps) *)
    d' <- nd_sub X mean ;;
    num <- nd_mul_scalar d' s_one ;;
    ve <- nd_add_scalar variance eps ;;
    sd <- nd_sqrt ve ;;
    X_hat <- nd_div num sd ;;
    (* out = gamma * X_hat + beta *)
    gx <- nd_mul gamma X_hat ;;
    out <- nd_add gx beta ;;
    ret out
  else if length (nd_shape X) =? 4 then
    (* N, C, H, W = X.shape *)
    match nd_shape X with
    | [_; C; _; _] =>
        (* mean = mx.nd.mean(X, axis=(0, 2, 3)) *)
        mean <- nd_mean X [0; 2; 3] ;;
        (* variance = mx.nd.mean((X - mean.reshape((1, C, 1, 1))) ** 2,
                                 axis=(0, 2, 3)) *)
        mr <- nd_reshape mean [1; C; 1; 1] ;;
        d <- nd_sub X mr ;;
        sq <- nd_pow_scalar d 2 ;;
        variance <- nd_mean sq [0; 2; 3] ;;
        (* X_hat = (X - mean.reshape((1, C, 1, 1))) * 1.0
                   / mx.nd.sqrt(variance.reshape((1, C, 1, 1)) + eps) *)
        mr' <- nd_reshape mean [1; C; 1; 1] ;;
        d' <- nd_sub X mr' ;;
        num <- nd_mul_scalar d' s_one ;;
        vr <- nd_reshape variance [1; C; 1; 1] ;;
        ve <- nd_add_scalar vr eps ;;
        sd <- nd_sqrt ve ;;
        X_hat <- nd_div num sd ;;
        (* out = gamma.reshape((1, C, 1, 1)) * X_hat
                 + beta.reshape((1, C, 1, 1)) *)
        gr <- nd_reshape gamma [1; C; 1; 1] ;;
        gx <- nd_mul gr X_hat ;;
        br <- nd_reshape beta [1; C; 1; 1] ;;
        out <- nd_add gx br ;;
        ret out
    | _ => raise (ValueError "not enough values to unpack")
    end
  else
    raise UnboundLocalError.

End Program.

(** ** First interpretation: array values and the divisors of [/] *)

Section Denotation.

Context {T : Type} {ST : Scalar T}.

(** A computation yields a result or an error, and the list of the arrays
    that were used as divisor of an array division, in order. *)
Definition den (X : Type) : Type := (result X * list (NDArray T))%type.

Definition den_ret (X : Type) (x : X) : den X := (Ok x, []).

Definition den_bind (X Y : Type) (c : den X) (k : X -> den Y) : den Y :=
  match fst c with
  | Ok x => (fst (k x), snd c ++ snd (k x))
  | Err e => (Err e, snd c)
  end.

Definition den_raise (X : Type) (e : error) : den X := (Err e, []).

Definition den_lift (X : Type) (r : result X) : den X := (r, []).

Definition den_div (a b : NDArray T) : den (NDArray T) :=
  match broadcast_val s_div a b with
  | Ok r => (Ok r, [b])
  | Err e => (Err e, [])
  end.

#[export] Instance Den : NDFramework T den (NDArray T) := {
  ret := den_ret;
  bind := den_bind;
  raise := den_raise;
  nd_shape := @shape T;
  nd_mean := fun X axis => den_lift (mean_val X axis);
  nd_sub := fun a b => den_lift (broadcast_val s_sub a b);
  nd_add := fun a b => den_lift (broadcast_val s_add a b);
  nd_mul := fun a b => den_lift (broadcast_val s_mul a b);
  nd_div := den_div;
  nd_pow_scalar := fun a n => den_lift (Ok (map_val (fun x => s_pow x n) a));
  nd_mul_scalar := fun a c => den_lift (Ok (map_val (fun x => s_mul x c) a));
  nd_add_scalar := fun a c => den_lift (Ok (map_val (fun x => s_add x c) a));
  nd_sqrt := fun a => den_lift (Ok (map_val s_sqrt a));
  nd_reshape := fun a s => den_lift (reshape_val a s)
}.

(** A computation whose only possible error is the library's. *)
Definition library_only (X : Type) (c : den X) : Prop :=
  forall e, fst c = Err e -> e = MXNetError.

(** What a call returns (or raises), and what it divided by. *)
Definition bn_result (X gamma beta : NDArray T) (eps : T) : result (NDArray T) :=
  fst (pure_batch_norm (M := den) X gamma beta eps).

Definition bn_divisors (X gamma beta : NDArray T) (eps : T) : list (NDArray T) :=
  snd (pure_batch_norm (M := den) X gamma beta eps).

(** The call [pure_batch_norm(X, gamma, beta)], with [eps] left to its default. *)
Definition bn_result_default (X gamma beta : NDArray T) : result (NDArray T) :=
  bn_result X gamma beta s_eps.

End Denotation.

(** ** The formula, in the operations of the element arithmetic *)

Section FormulaIn.

Context {T : Type} {ST : Scalar T}.

(** The sum of [l] divided by the count [n]. *)
Definition mean_in (l : list T) (n : nat) : T := s_div (nd_sum l) (s_of_nat n).

(** Column [j] of a matrix with [N] rows, top to bottom. *)
Definition column (X : NDArray T) (N j : nat) : list T :=
  map (fun i => get X [i; j]) (seq 0 N).

(** Channel [c] of an array of shape [(N, _, H, W)], in row-major order. *)
Definition channel (X : NDArray T) (N H W c : nat) : list T :=
  flat_map (fun n =>
              flat_map (fun h => map (fun w => get X [n; c; h; w]) (seq 0 W))
                       (seq 0 H))
           (seq 0 N).

Definition sq_dev (m x : T) : T := s_pow (s_sub x m) 2.

Definition col_mean_in (X : NDArray T) (N j : nat) : T :=
  mean_in (column X N j) N.

Definition col_var_in (X : NDArray T) (N j : nat) : T :=
  mean_in (map (sq_dev (col_mean_in X N j)) (column X N j)) N.

Definition chan_mean_in (X : NDArray T) (N H W c : nat) : T :=
  mean_in (channel X N H W c) (N * H * W).

Definition chan_var_in (X : NDArray T) (N H W c : nat) : T :=
  mean_in (map (sq_dev (chan_mean_in X N H W c)) (channel X N H W c)) (N * H * W).

(** The divisor, and one element of the output, as the code computes them. *)
Definition divisor_in (v eps : T) : T := s_sqrt (s_add v eps).

Definition normalize_in (g x m d b : T) : T :=
  s_add (s_mul g (s_div (s_mul (s_sub x m) s_one) d)) b.

(** [mx.nd.full(s, c)]: every element is [c]. *)
Definition full (s : list nat) (c : T) : NDArray T :=
  mkND s (repeat c (size_of s)).

(** The inputs the function is meant for: a dense [(N, C)] or convolutional
    [(N, C, H, W)] array that has elements (the library refuses an array
    with a dimension of length 0), and [gamma], [beta] of shape [(C,)]. *)
Definition valid_input (X gamma beta : NDArray T) : Prop :=
  wf X /\ wf gamma /\ wf beta /\
  (length (shape X) = 2 \/ length (shape X) = 4) /\
  shape gamma = [nth 1 (shape X) 0] /\ shape beta = [nth 1 (shape X) 0] /\
  0 < size_of (shape X).

End FormulaIn.

(** ** Second interpretation: references into a heap of buffers *)

Section Machine.

Context {T : Type} {ST : Scalar T}.

(** A Python NDArray object: a shape and the buffer it views.  The objects
    are immutable; the buffers are what an in-place operation would write. *)
Record NDRef : Type := mkRef { ref_buf : nat; ref_shape : list nat }.

Definition heap : Type := list (list T).

Definition mach (X : Type) : Type := heap -> result X * heap.

(** The array a reference denotes: the first elements of its buffer. *)
Definition load (h : heap) (r : NDRef) : option (NDArray T) :=
  match nth_error h (ref_buf r) with
  | Some b => Some (mkND (ref_shape r) (firstn (size_of (ref_shape r)) b))
  | None => None
  end.

(** A fresh buffer for the result of an operation. *)
Definition alloc (v : NDArray T) : mach NDRef :=
  fun h => (Ok (mkRef (length h) (shape v)), h ++ [data v]).

Definition mach_ret (X : Type) (x : X) : mach X := fun h => (Ok x, h).

Definition mach_bind (X Y : Type) (c : mach X) (k : X -> mach Y) : mach Y :=
  fun h =>
    match fst (c h) with
    | Ok x => k x (snd (c h))
    | Err e => (Err e, snd (c h))
    end.

Definition mach_raise (X : Type) (e : error) : mach X := fun h => (Err e, h).

Definition mach_op1 (f : NDArray T -> result (NDArray T)) (r : NDRef) : mach NDRef :=
  fun h =>
    match load h r with
    | Some a =>
        match f a with
        | Ok v => alloc v h
        | Err e => (Err e, h)
        end
    | None => (Err DanglingReference, h)
    end.

Definition mach_op2 (f : NDArray T -> NDArray T -> result (NDArray T))
  (r1 r2 : NDRef) : mach NDRef :=
  fun h =>
    match load h r1, load h r2 with
    | Some a, Some b =>
        match f a b with
        | Ok v => alloc v h
        | Err e => (Err e, h)
        end
    | _, _ => (Err DanglingReference, h)
    end.

(** [reshape] allocates nothing: the new object views the same buffer. *)
Definition mach_reshape (r : NDRef) (s : list nat) : mach NDRef :=
  fun h =>
    match load h r with
    | Some a =>
        if size_of s <=? length (data a)
        then (Ok (mkRef (ref_buf r) s), h)
        else (Err MXNetError, h)
    | None => (Err DanglingReference, h)
    end.

#[export] Instance Machine : NDFramework T mach NDRef := {
  ret := mach_ret;
  bind := mach_bind;
  raise := mach_raise;
  nd_shape := ref_shape;
  nd_mean := fun X axis => mach_op1 (fun a => mean_val a axis) X;
  nd_sub := mach_op2 (broadcast_val s_sub);
  nd_add := mach_op2 (broadcast_val s_add);
  nd_mul := mach_op2 (broadcast_val s_mul);
  nd_div := mach_op2 (broadcast_val s_div);
  nd_pow_scalar := fun a n => mach_op1 (fun v => Ok (map_val (fun x => s_pow x n) v)) a;
  nd_mul_scalar := fun a c => mach_op1 (fun v => Ok (map_val (fun x => s_mul x c) v)) a;
  nd_add_scalar := fun a c => mach_op1 (fun v => Ok (map_val (fun x => s_add x c) v)) a;
  nd_sqrt := mach_op1 (fun v => Ok (map_val s_sqrt v));
  nd_reshape := mach_reshape
}.

(** [h'] keeps every buffer of [h] as it is, and may have new ones. *)
Definition extends (h h' : heap) : Prop := exists new, h' = h ++ new.

(** A heap computation [c], started in [h], behaves as the value [r]
    says: it only adds buffers, and returns a reference to the array [r],
    or raises the error [r]. *)
Definition runs_as (c : mach NDRef) (h : heap) (r : result (NDArray T)) : Prop :=
  extends h (snd (c h)) /\
  match r with
  | Ok a => exists ref, fst (c h) = Ok ref /\ load (snd (c h)) ref = Some a /\ wf a
  | Err e => fst (c h) = Err e
  end.

(** What the caller gets from a run: the array behind the returned
    reference, or the error. *)
Definition outcome (run : result NDRef * heap) : result (NDArray T) :=
  match fst run with
  | Ok r =>
      match load (snd run) r with
      | Some a => Ok a
      | None => Err DanglingReference
      end
  | Err e => Err e
  end.

End Machine.

(** ** The formula, in the words of the specification (exact arithmetic) *)

Module Formula.

Open Scope R_scope.

Definition Rsum (l : list R) : R := fold_right Rplus 0 l.

(** Mean of [f 0, ..., f (n-1)]. *)
Definition mean_of (n : nat) (f : nat -> R) : R :=
  Rsum (map f (seq 0 n)) / INR n.

(** Column [j] of a 2-D array with [N] rows: its mean over the batch
    dimension, and the mean of the squared deviations from it. *)
Definition col_mean (X : NDArray R) (N j : nat) : R :=
  mean_of N (fun i => get X [i; j]).

Definition col_var (X : NDArray R) (N j : nat) : R :=
  mean_of N (fun i => (get X [i; j] - col_mean X N j) ^ 2).

(** Channel [c] of a 4-D array of shape [(N, _, H, W)]: the same over all
    batch and spatial positions. *)
Definition chan_sum (N H W : nat) (f : nat -> nat -> nat -> R) : R :=
  Rsum (map (fun n => Rsum (map (fun h => Rsum (map (fun w => f n h w)
                                                    (seq 0 W)))
                                (seq 0 H)))
            (seq 0 N)).

Definition chan_mean (X : NDArray R) (N H W c : nat) : R :=
  chan_sum N H W (fun n h w => get X [n; c; h; w]) / INR (N * H * W).

Definition chan_var (X : NDArray R) (N H W c : nat) : R :=
  chan_sum N H W (fun n h w => (get X [n; c; h; w] - chan_mean X N H W c) ^ 2)
  / INR (N * H * W).

End Formula.

(** ** Small inputs in exact arithmetic *)

Module Samples.

Open Scope R_scope.

(** Two samples of one feature, as a dense and as a convolutional input;
    two equal samples; a scale and a shift. *)
Definition X21 : NDArray R := mkND [2; 1]%nat [1; 3].
Definition X2111 : NDArray R := mkND [2; 1; 1; 1]%nat [1; 3].
Definition K21 : NDArray R := mkND [2; 1]%nat [3; 3].
Definition g1 : NDArray R := mkND [1]%nat [2].
Definition b1 : NDArray R := mkND [1]%nat [5].

End Samples.

(** ** Single-precision arithmetic *)

(** The arrays of the notebook are float32 (MXNet's default): IEEE 754
    binary32, round to nearest even, from the Standard Library's
    executable specification of floating point. *)
Module F32.

Definition prec : Z := 24.
Definition emax : Z := 128.

Definition of_Z (z : Z) : spec_float := binary_normalize prec emax z 0 false.

(** [x ** n] by repeated multiplication ([x ** 2] is [x * x], rounded
    once; the library calls [powf], which need not round to nearest). *)
Fixpoint fpow (x : spec_float) (n : nat) : spec_float :=
  match n with
  | 0 => of_Z 1
  | 1 => x
  | S n' => SFmul prec emax x (fpow x n')
  end.

#[export] Instance Scalar_f32 : Scalar spec_float := {
  s_zero := S754_zero false;
  s_one := of_Z 1;
  s_eps := SFdiv prec emax (of_Z 1) (of_Z 100000);
  s_add := SFadd prec emax;
  s_sub := SFsub prec emax;
  s_mul := SFmul prec emax;
  s_div := SFdiv prec emax;
  s_pow := fpow;
  s_sqrt := SFsqrt prec emax;
  s_of_nat := fun n => of_Z (Z.of_nat n)
}.

(** [mx.nd.array([...]).reshape(s)] for integer literals. *)
Definition array (s : list nat) (l : list Z) : NDArray spec_float :=
  mkND s (firstn (size_of s) (map of_Z l)).

(** The arrays of the notebook's example cells. *)
Definition A : NDArray spec_float := array [3; 2] [1; 2; 3; 6; 5; 7]%Z.

Definition B : NDArray spec_float :=
  array [2; 2; 2; 2] [1; 6; 5; 7; 4; 3; 2; 5; 6; 3; 2; 4; 5; 3; 2; 5; 6]%Z.

Definition ones2 : NDArray spec_float := array [2] [1; 1]%Z.
Definition zeros2 : NDArray spec_float := array [2] [0; 0]%Z.

(** The float closest to the decimal [p / q] (9/10 for the literal [0.9]):
    one rounding of the exact quotient.  And
    [mx.nd.array([c, c, c]).reshape((3, 1))]. *)
Definition exact (z : Z) : spec_float :=
  match z with
  | Z0 => S754_zero false
  | Zpos m => S754_finite false m 0
  | Zneg m => S754_finite true m 0
  end.

Definition decimal (p q : Z) : spec_float := SFdiv prec emax (exact p) (exact q).

Definition constant_column (c : spec_float) : NDArray spec_float :=
  mkND [3; 1] [c; c; c].

(** Three samples of one feature, all 0.9; a scale of one and a shift of
    zero for one feature. *)
Definition X09 : NDArray spec_float := constant_column (decimal 9 10).
Definition one1 : NDArray spec_float := array [1] [1]%Z.
Definition zero1 : NDArray spec_float := array [1] [0]%Z.

(** A heap holding [A], [ones2] and [zeros2], and references to them. *)
Definition heapA : list (list spec_float) := [data A; data ones2; data zeros2].
Definition refA : NDRef := mkRef 0 [3; 2].
Definition ref_ones2 : NDRef := mkRef 1 [2].
Definition ref_zeros2 : NDRef := mkRef 2 [2].

(** One sample of two features, and a scale for three. *)
Definition X12 : NDArray spec_float := array [1; 2] [1; 2]%Z.
Definition ones3 : NDArray spec_float := array [3] [1; 1; 1]%Z.

(** The real number that a float is when it is finite (0 for the others),
    and the array of the real numbers that float32 elements are. *)
Definition to_R (x : spec_float) : R :=
  match x with
  | S754_finite s m e =>
      ((if s then - IZR (Zpos m) else IZR (Zpos m)) * powerRZ 2 e)%R
  | _ => 0%R
  end.

Definition reals (A : NDArray spec_float) : NDArray R :=
  mkND (shape A) (map to_R (data A)).

(** The three samples of [X09] as a convolutional input with one channel
    and one spatial position. *)
Definition X09_conv : NDArray spec_float :=
  mkND [3; 1; 1; 1] [decimal 9 10; decimal 9 10; decimal 9 10].

(** Three samples of one feature, all 1, and the float32 that the argument
    [eps = 1e-50] becomes when it is added to a float32 array. *)
Definition X1_column : NDArray spec_float := constant_column (of_Z 1).
Definition eps_1e50 : spec_float := decimal 1 (10 ^ 50).

(** Two samples of one channel with one spatial position, and a scale and
    a shift for three channels. *)
Definition X2111f : NDArray spec_float := array [2; 1; 1; 1] [1; 3]%Z.
Definition ramp3 : NDArray spec_float := array [3] [1; 2; 3]%Z.
Definition zeros3 : NDArray spec_float := array [3] [0; 0; 0]%Z.

End F32.

(** ** The training loop *)

Module Training.

Section Script.

(** The PyTorch objects and calls of the script. *)
Variables tensor labels loss_t params num : Type.
Variable view : tensor -> tensor.                 (* images.view(images.shape[0], -1) *)
Variable zero_grad : params -> params.            (* optimizer.zero_grad() *)
Variable forward : params -> tensor -> tensor.    (* model.forward(images) *)
Variable criterion : tensor -> labels -> loss_t.  (* criterion(output, labels) *)
Variable backward : loss_t -> params -> params.   (* loss.backward() *)
Variable step : params -> params.                 (* optimizer.step() *)
Variable item : loss_t -> num.                    (* loss.item() *)
Variable num_zero : num.
Variable num_add : num -> num -> num.
Variable num_div : num -> nat -> num.
(** The batches that the loader yields when it is iterated for the
    [e]-th time (it shuffles). *)
Variable trainloader : nat -> list (tensor * labels).

(** A framework call, with the epoch and the position of the batch in it. *)
Inductive call : Type :=
| View (e k : nat)
| ZeroGrad (e k : nat)
| Forward (e k : nat)
| Loss (e k : nat)
| Backward (e k : nat)
| Step (e k : nat)
| Item (e k : nat)
| PrintLoss (e : nat).

(** The variables of the script, its output and the calls made so far. *)
Record state : Type := mkState {
  model : params;
  running_loss : num;
  stdout : list num;
  calls : list call
}.

Definition script (X : Type) : Type := state -> X * state.

Definition sret (X : Type) (x : X) : script X := fun st => (x, st).

Definition sbind (X Y : Type) (c : script X) (k : X -> script Y) : script Y :=
  fun st => k (fst (c st)) (snd (c st)).

Notation "x <-- c ;; k" := (sbind c (fun x => k))
  (at level 61, c at next level, right associativity).

Definition log (c : call) (st : state) : state :=
  mkState (model st) (running_loss st) (stdout st) (calls st ++ [c]).

Definition set_model (p : params) (st : state) : state :=
  mkState p (running_loss st) (stdout st) (calls st).

Definition call_view (e k : nat) (images : tensor) : script tensor :=
  fun st => (view images, log (View e k) st).

Definition call_zero_grad (e k : nat) : script unit :=
  fun st => (tt, log (ZeroGrad e k) (set_model (zero_grad (model st)) st)).

Definition call_forward (e k : nat) (images : tensor) : script tensor :=
  fun st => (forward (model st) images, log (Forward e k) st).

Definition call_criterion (e k : nat) (output : tensor) (lbl : labels) : script loss_t :=
  fun st => (criterion output lbl, log (Loss e k) st).

Definition call_backward (e k : nat) (loss : loss_t) : script unit :=
  fun st => (tt, log (Backward e k) (set_model (backward loss (model st)) st)).

Definition call_step (e k : nat) : script unit :=
  fun st => (tt, log (Step e k) (set_model (step (model st)) st)).

Definition call_item (e k : nat) (loss : loss_t) : script num :=
  fun st => (item loss, log (Item e k) st).

Definition call_print (e : nat) (x : num) : script unit :=
  fun st => (tt, log (PrintLoss e)
                   (mkState (model st) (running_loss st) (stdout st ++ [x]) (calls st))).

Definition set_running_loss (x : num) : script unit :=
  fun st => (tt, mkState (model st) x (stdout st) (calls st)).

Definition get_running_loss : script num :=
  fun st => (running_loss st, st).

(** [for x in l: body] *)
Fixpoint for_each (X : Type) (l : list X) (body : X -> script unit) : script unit :=
  match l with
  | [] => sret tt
  | x :: l' => _ <-- body x ;; for_each l' body
  end.

(** The elements of [l] with their positions.  The script does not number
    its batches; the positions are here to tell the calls of one batch from
    those of another. *)
Definition enumerate (X : Type) (l : list X) : list (nat * X) :=
  combine (seq 0 (length l)) l.

(** The body of the inner loop, for the [k]-th batch of epoch [e]. *)
Definition training_pass (e : nat) (kb : nat * (tensor * labels)) : script unit :=
  let k := fst kb in
  (* images = images.view(images.shape[0], -1) *)
  images <-- call_view e k (fst (snd kb)) ;;
  (* optimizer.zero_grad() *)
  _ <-- call_zero_grad e k ;;
  (* output = model.forward(images) *)
  output <-- call_forward e k images ;;
  (* loss = criterion(output, labels) *)
  loss <-- call_criterion e k output (snd (snd kb)) ;;
  (* loss.backward() *)
  _ <-- call_backward e k loss ;;
  (* optimizer.step() *)
  _ <-- call_step e k ;;
  (* running_loss += loss.item() *)
  l <-- call_item e k loss ;;
  r <-- get_running_loss ;;
  set_running_loss (num_add r l).

(** The body of the outer loop; the [else] of a [for] without [break] runs
    when the loop is over. *)
Definition epoch (e : nat) : script unit :=
  _ <-- set_running_loss num_zero ;;
  _ <-- for_each (enumerate (trainloader e)) (training_pass e) ;;
  r <-- get_running_loss ;;
  call_print e (num_div r (length (trainloader e))).

(** [for e in range(epochs): ...] *)
Definition train (epochs : nat) : script unit :=
  for_each (seq 0 epochs) epoch.

(** The calls of one training pass, and of a whole run, in order. *)
Definition pass_calls (e k : nat) : list call :=
  [View e k; ZeroGrad e k; Forward e k; Loss e k; Backward e k; Step e k; Item e k].

Definition epoch_calls (e : nat) : list call :=
  flat_map (pass_calls e) (seq 0 (length (trainloader e))) ++ [PrintLoss e].

Definition run_calls (epochs : nat) : list call :=
  flat_map epoch_calls (seq 0 epochs).

(** In a list of calls, every optimizer step comes right after the forward
    pass, the loss and the backward pass of its own batch, in this order. *)
Definition step_after_backward (tr : list call) : Prop :=
  forall pre suf e k,
    tr = pre ++ Step e k :: suf ->
    exists pre', pre = pre' ++ [Forward e k; Loss e k; Backward e k].

End Script.

(** [epochs = 5] *)
Definition epochs : nat := 5.

End Training.

(** ** Allocation of buffers *)

Section Allocation.

Context {T : Type} {ST : Scalar T}.

(** A heap computation that never drops a buffer. *)
Definition grows (X : Type) (c : @mach T X) : Prop :=
  forall h, length h <= length (snd (c h)).

(** A heap computation whose result, when it returns one, lives in the
    buffer it allocated last. *)
Definition returns_fresh (c : @mach T NDRef) : Prop :=
  forall h r,
    fst (c h) = Ok r ->
    length h <= ref_buf r /\ S (ref_buf r) = length (snd (c h)).

End Allocation.

Section AllocationCount.

Context {T : Type} {ST : Scalar T}.

(** A heap computation that, when it returns, has allocated [n] buffers,
    and that allocates no more than [n] when it raises. *)
Definition allocates (X : Type) (n : nat) (c : @mach T X) : Prop :=
  forall h,
    length h <= length (snd (c h)) <= length h + n /\
    forall x, fst (c h) = Ok x -> length (snd (c h)) = length h + n.

End AllocationCount.

(** ** Mean and variance of the values of one feature *)

Module Moments.

Import Formula.
Open Scope R_scope.

Definition mean (l : list R) : R := Rsum l / INR (length l).

Definition var (l : list R) : R :=
  Rsum (map (fun x => (x - mean l) ^ 2) l) / INR (length l).

(** The output for the value [x] of a feature whose values are [l]. *)
Definition normalized (g b eps : R) (l : list R) (x : R) : R :=
  g * / sqrt (var l + eps) * (x - mean l) + b.

End Moments.

(** ** What the training script computes *)

Module TrainingSummary.

Import Training.

Section Summary.

Variables tensor labels loss_t params num : Type.
Variable view : tensor -> tensor.
Variable zero_grad : params -> params.
Variable forward : params -> tensor -> tensor.
Variable criterion : tensor -> labels -> loss_t.
Variable backward : loss_t -> params -> params.
Variable step : params -> params.
Variable item : loss_t -> num.
Variable num_zero : num.
Variable num_add : num -> num -> num.
Variable num_div : num -> nat -> num.
Variable trainloader : nat -> list (tensor * labels).

(** The loss of a batch under the parameters [p], gradients cleared. *)
Definition batch_loss (p : params) (b : tensor * labels) : loss_t :=
  criterion (forward (zero_grad p) (view (fst b))) (snd b).

(** The parameters after the pass over one batch. *)
Definition sgd_update (p : params) (b : tensor * labels) : params :=
  step (backward (batch_loss p b) (zero_grad p)).

(** The parameters and the running loss after the pass over one batch. *)
Definition pass_update (pr : params * num) (b : tensor * labels) : params * num :=
  (sgd_update (fst pr) b, num_add (snd pr) (item (batch_loss (fst pr) b))).

(** The parameters after an epoch over the batches [bs], and the sum of
    the losses of its batches. *)
Definition epoch_summary (p : params) (bs : list (tensor * labels)) : params * num :=
  fold_left pass_update bs (p, num_zero).

(** The parameters after the epochs [a], ..., [a + n - 1], and the values
    they print. *)
Fixpoint run_summary (a n : nat) (p : params) : params * list num :=
  match n with
  | 0 => (p, [])
  | S n' =>
      let pr := epoch_summary p (trainloader a) in
      let rest := run_summary (S a) n' (fst pr) in
      (fst rest, num_div (snd pr) (length (trainloader a)) :: snd rest)
  end.

(** The same call, for the same batch of the same epoch. *)
Definition call_eqb (c c' : call) : bool :=
  match c, c' with
  | View e k, View e' k'
  | ZeroGrad e k, ZeroGrad e' k'
  | Forward e k, Forward e' k'
  | Loss e k, Loss e' k'
  | Backward e k, Backward e' k'
  | Step e k, Step e' k'
  | Item e k, Item e' k' => (e =? e') && (k =? k')
  | PrintLoss e, PrintLoss e' => e =? e'
  | _, _ => false
  end.

(** How many times the call [c] is in the log [tr]. *)
Definition count (c : call) (tr : list call) : nat :=
  length (filter (call_eqb c) tr).

(** The seven framework calls that the script makes for a batch. *)
Definition kinds : list (nat -> nat -> call) :=
  [View; ZeroGrad; Forward; Loss; Backward; Step; Item].

(** All the batches of the epochs [0], ..., [n - 1], in order. *)
Definition batches (n : nat) : list (tensor * labels) :=
  flat_map trainloader (seq 0 n).

End Summary.

End TrainingSummary.

(** ** The prediction cell and the autograd example of the PyTorch notebook *)

Module Prediction.

Import Formula.
Open Scope R_scope.

(** [F.softmax(x, dim=1)], on one row. *)
Definition softmax (x : list R) : list R :=
  map (fun v => exp v / Rsum (map exp x)) x.

(** [nn.LogSoftmax(dim=1)], the last layer of the model, on one row. *)
Definition log_softmax (x : list R) : list R :=
  map (fun v => v - ln (Rsum (map exp x))) x.

(** [ps = F.softmax(model.forward(img), dim=1)], from the scores that the
    last linear layer gives the image. *)
Definition ps (scores : list R) : list R := softmax (log_softmax scores).

End Prediction.

Module Autograd.

Import Formula.
Open Scope R_scope.

(** [y = x ** 2; z = y.mean()], on the elements of [x] in any order. *)
Definition z (x : list R) : R :=
  Rsum (map (fun v => v ^ 2) x) / INR (length x).

(** [x] with its [k]-th element replaced by [t]. *)
Fixpoint replace_nth (k : nat) (t : R) (x : list R) : list R :=
  match x, k with
  | [], _ => []
  | _ :: x', 0%nat => t :: x'
  | v :: x', S k' => v :: replace_nth k' t x'
  end.

(** [g] is the gradient of [f] at [x]: its [k]-th element is the
    derivative of [f] along the [k]-th element of [x]. *)
Definition gradient_at (f : list R -> R) (x g : list R) : Prop :=
  length g = length x /\
  forall k, (k < length x)%nat ->
    derivable_pt_lim (fun t => f (replace_nth k t x)) (nth k x 0) (nth k g 0).

End Autograd.

(** ** More small inputs in exact arithmetic *)

Module MoreSamples.

Open Scope R_scope.

(** Two matrices with the same first column, and two feature maps with
    the same first channel. *)
Definition M22 : NDArray R := mkND [2; 2]%nat [1; 2; 3; 4].
Definition M22' : NDArray R := mkND [2; 2]%nat [1; 7; 3; 9].
Definition F1211 : NDArray R := mkND [1; 2; 1; 1]%nat [1; 2].
Definition F1211' : NDArray R := mkND [1; 2; 1; 1]%nat [1; 5].
(** A feature map of one sample, two channels and two positions, and the
    matrix of its positions by its channels. *)
Definition F1212 : NDArray R := mkND [1; 2; 1; 2]%nat [1; 2; 3; 4].
Definition P22 : NDArray R := mkND [2; 2]%nat [1; 3; 2; 4].
Definition g2 : NDArray R := mkND [2]%nat [2; 1].
Definition g2' : NDArray R := mkND [2]%nat [2; 5].
Definition b2 : NDArray R := mkND [2]%nat [0; 1].
Definition b2' : NDArray R := mkND [2]%nat [0; 4].
Definition g3 : NDArray R := mkND [3]%nat [2; 7; 9].

(** The samples [1] and [3] of [X21] shifted by 10, doubled, and in the
    other order. *)
Definition X21_shifted : NDArray R := mkND [2; 1]%nat [11; 13].
Definition X21_doubled : NDArray R := mkND [2; 1]%nat [2; 6].
Definition X21_swapped : NDArray R := mkND [2; 1]%nat [3; 1].

(** A loader of one batch per epoch, for a script whose tensors, losses
    and parameters are numbers. *)
Definition one_batch (e : nat) : list (nat * nat) := [(e, 0%nat)].

End MoreSamples.

(* ================================================================== *)
(** * Part II: properties                                              *)
(* ================================================================== *)

(** ** Row-major indexing *)

Section IndexLemmas.

Lemma size_of_cons (d : nat) (s : list nat) : size_of (d :: s) = d * size_of s.
Proof. reflexivity. Qed.

Lemma length_indices (s : list nat) : length (indices s) = size_of s.
Proof.
  induction s as [|d s IH]; [reflexivity|].
  cbn [indices]. rewrite size_of_cons.
  rewrite flat_map_constant_length with (c := size_of s).
  - now rewrite length_seq.
  - intros i _. now rewrite length_map.
Qed.

Lemma valid_index_length (s idx : list nat) :
  valid_index s idx -> length idx = length s.
Proof.
  revert idx; induction s as [|d s IH]; intros [|i idx]; simpl; try tauto.
  intros [_ Hv]. now rewrite (IH idx Hv).
Qed.

Lemma ravel_lt (s idx : list nat) :
  valid_index s idx -> ravel s idx < size_of s.
Proof.
  revert idx; induction s as [|d s IH]; intros [|i idx]; simpl; try tauto.
  - intros _. lia.
  - intros [Hi Hv]. specialize (IH idx Hv).
    change (fold_right Nat.mul 1 s) with (size_of s). nia.
Qed.

(** Blocks of equal length laid side by side: the element [r] of block [i]. *)
Lemma nth_error_flat_map_seq (X : Type) (f : nat -> list X) (L a d i r : nat) :
  (forall k, length (f k) = L) -> i < d -> r < L ->
  nth_error (flat_map f (seq a d)) (i * L + r) = nth_error (f (a + i)) r.
Proof.
  intros HL. revert a i. induction d as [|d IH]; intros a i Hi Hr; [lia|].
  cbn [seq flat_map]. destruct i as [|i].
  - rewrite Nat.add_0_r. cbn [Nat.mul Nat.add].
    apply nth_error_app1. now rewrite HL.
  - rewrite nth_error_app2 by (rewrite HL; lia).
    rewrite HL. replace (S i * L + r - L) with (i * L + r) by lia.
    rewrite IH by lia. f_equal. f_equal. lia.
Qed.

(** [indices] lists the multi-indices at their row-major offsets. *)
Lemma nth_error_indices (s idx : list nat) :
  valid_index s idx -> nth_error (indices s) (ravel s idx) = Some idx.
Proof.
  revert idx; induction s as [|d s IH]; intros [|i idx]; simpl; try tauto.
  intros [Hi Hv]. change (fold_right Nat.mul 1 s) with (size_of s).
  rewrite nth_error_flat_map_seq
    by (try (intros k; rewrite length_map; apply length_indices);
        auto using ravel_lt).
  cbn [Nat.add]. rewrite nth_error_map, (IH idx Hv). reflexivity.
Qed.

Lemma in_indices_valid (s idx : list nat) :
  In idx (indices s) -> valid_index s idx.
Proof.
  revert idx; induction s as [|d s IH]; intros idx; cbn [indices].
  - intros [<-|[]]. exact I.
  - rewrite in_flat_map. intros (i & Hi & Hin).
    apply in_map_iff in Hin. destruct Hin as (idx' & <- & Hin').
    apply in_seq in Hi. simpl. split; [lia | auto].
Qed.

Lemma map_add_seq (b n a : nat) :
  map (fun r => b + r) (seq a n) = seq (b + a) n.
Proof.
  revert a; induction n as [|n IH]; intros a; [reflexivity|].
  cbn [seq map]. rewrite IH. f_equal. f_equal. lia.
Qed.

(** The offsets of the multi-indices, in the order of [indices]. *)
Lemma map_ravel_indices (s : list nat) :
  map (ravel s) (indices s) = seq 0 (size_of s).
Proof.
  induction s as [|d s IH]; [reflexivity|].
  cbn [indices]. rewrite size_of_cons.
  assert (G : forall a,
             map (ravel (d :: s))
                 (flat_map (fun i => map (cons i) (indices s)) (seq a d))
             = seq (a * size_of s) (d * size_of s)).
  { induction d as [|d IHd]; intros a; [reflexivity|].
    cbn [seq flat_map]. rewrite map_app, IHd, map_map.
    replace (S d * size_of s) with (size_of s + d * size_of s) by lia.
    rewrite seq_app. f_equal; [|f_equal; lia].
    cbn [ravel]. rewrite <- (map_map (ravel s) (fun r => a * size_of s + r)).
    rewrite IH, map_add_seq. f_equal. lia. }
  apply (G 0).
Qed.

End IndexLemmas.

(** ** Arrays: elements of tabulated, mapped and reshaped arrays *)

Section ArrayLemmas.

Context {T : Type} {ST : Scalar T}.

Lemma wf_tabulate (s : list nat) (f : list nat -> T) : wf (tabulate s f).
Proof. unfold wf, tabulate; simpl. now rewrite length_map, length_indices. Qed.

Lemma get_tabulate (s : list nat) (f : list nat -> T) (idx : list nat) :
  valid_index s idx -> get (tabulate s f) idx = f idx.
Proof.
  intros Hv. unfold get, tabulate; simpl.
  apply nth_error_nth. now rewrite nth_error_map, nth_error_indices.
Qed.

Lemma wf_map_val (f : T -> T) (A : NDArray T) : wf A -> wf (map_val f A).
Proof. unfold wf, map_val; simpl. now rewrite length_map. Qed.

Lemma get_map_val (f : T -> T) (A : NDArray T) (idx : list nat) :
  wf A -> valid_index (shape A) idx -> get (map_val f A) idx = f (get A idx).
Proof.
  intros Hwf Hv. unfold get, map_val; simpl.
  rewrite nth_indep with (d' := f s_zero).
  - apply map_nth.
  - rewrite length_map, Hwf. now apply ravel_lt.
Qed.

Lemma map_nth_seq (l : list T) (d : T) :
  map (fun k => nth k l d) (seq 0 (length l)) = l.
Proof.
  induction l as [|x l IH]; [reflexivity|].
  cbn [length seq map nth]. f_equal.
  rewrite <- seq_shift, map_map. exact IH.
Qed.

(** A well-formed array is the table of its elements. *)
Lemma data_as_table (A : NDArray T) :
  wf A -> data A = map (get A) (indices (shape A)).
Proof.
  intros Hwf. unfold get.
  rewrite <- (map_map (ravel (shape A)) (fun k => nth k (data A) s_zero)).
  rewrite map_ravel_indices, <- Hwf. symmetry. apply map_nth_seq.
Qed.

Lemma array_ext (A B : NDArray T) :
  wf A -> wf B -> shape A = shape B ->
  (forall idx, valid_index (shape A) idx -> get A idx = get B idx) ->
  A = B.
Proof.
  intros HA HB Hs Hget. destruct A as [sA dA], B as [sB dB].
  pose proof (data_as_table HA) as EA. pose proof (data_as_table HB) as EB.
  simpl in *. subst sB. f_equal. rewrite EA, EB.
  apply map_ext_in. intros idx Hin. apply Hget. now apply in_indices_valid.
Qed.

Lemma reshape_val_ok (A : NDArray T) (s : list nat) :
  size_of s <= length (data A) ->
  reshape_val A s = Ok (mkND s (firstn (size_of s) (data A))).
Proof.
  intros Hle. unfold reshape_val.
  destruct (Nat.leb_spec (size_of s) (length (data A))); [reflexivity | lia].
Qed.

Lemma wf_reshaped (A : NDArray T) (s : list nat) :
  size_of s <= length (data A) -> wf (mkND s (firstn (size_of s) (data A))).
Proof. intros Hle. unfold wf; simpl. rewrite length_firstn. lia. Qed.

(** An element of a view is the element of the array at the same offset. *)
Lemma get_reshaped (A : NDArray T) (s idx idx' : list nat) :
  valid_index s idx -> ravel s idx = ravel (shape A) idx' ->
  get (mkND s (firstn (size_of s) (data A))) idx = get A idx'.
Proof.
  intros Hv Hr. unfold get; simpl. rewrite <- Hr.
  pose proof (ravel_lt _ _ Hv) as Hlt.
  rewrite <- (firstn_skipn (size_of s) (data A)) at 2.
  destruct (Nat.le_gt_cases (size_of s) (length (data A))) as [Hle|Hgt].
  - rewrite app_nth1; [reflexivity|]. rewrite length_firstn. lia.
  - rewrite firstn_all2 by lia. rewrite skipn_all2 by lia.
    now rewrite app_nil_r.
Qed.

End ArrayLemmas.

(** ** Broadcasting and reduction at the shapes of [pure_batch_norm] *)

Section OpLemmas.

Context {T : Type} {ST : Scalar T}.

Lemma map_flat_map (X Y Z : Type) (g : Y -> Z) (f : X -> list Y) (l : list X) :
  map g (flat_map f l) = flat_map (fun x => map g (f x)) l.
Proof.
  induction l as [|x l IH]; [reflexivity|].
  cbn [flat_map]. now rewrite map_app, IH.
Qed.

Lemma flat_map_singleton (X Y : Type) (f : X -> Y) (l : list X) :
  flat_map (fun x => [f x]) l = map f l.
Proof. induction l as [|x l IH]; [reflexivity|]. cbn. now rewrite IH. Qed.

Lemma broadcast_dim_refl (n : nat) : broadcast_dim n n = Some n.
Proof. unfold broadcast_dim. now rewrite Nat.eqb_refl. Qed.

Lemma broadcast_dim_1_r (n : nat) : broadcast_dim n 1 = Some n.
Proof.
  unfold broadcast_dim. destruct (Nat.eqb_spec n 1) as [->|]; reflexivity.
Qed.

Lemma broadcast_dim_1_l (n : nat) : broadcast_dim 1 n = Some n.
Proof.
  unfold broadcast_dim. destruct (Nat.eqb_spec 1 n) as [<-|]; reflexivity.
Qed.

(** Along an axis of length 1 the only index is 0. *)
Lemma bcast_component (d i : nat) : i < d -> (if d =? 1 then 0 else i) = i.
Proof. intros Hi. destruct (Nat.eqb_spec d 1); lia. Qed.

Lemma broadcast_val_spec (op : T -> T -> T) (A B : NDArray T) (s : list nat) :
  broadcast_shape (shape A) (shape B) = Some s ->
  exists R, broadcast_val op A B = Ok R /\ wf R /\ shape R = s /\
    forall idx, valid_index s idx ->
      get R idx = op (get A (bcast_index (shape A) idx))
                     (get B (bcast_index (shape B) idx)).
Proof.
  intros Hs. unfold broadcast_val. rewrite Hs. eexists. split; [reflexivity|].
  split; [apply wf_tabulate|]. split; [reflexivity|].
  intros idx Hv. now rewrite get_tabulate.
Qed.

(** A matrix and a row: [(N, C) op (C,)]. *)
Lemma broadcast_val_matrix_row (op : T -> T -> T) (A B : NDArray T) (N C : nat) :
  shape A = [N; C] -> shape B = [C] ->
  exists R, broadcast_val op A B = Ok R /\ wf R /\ shape R = [N; C] /\
    forall i j, i < N -> j < C -> get R [i; j] = op (get A [i; j]) (get B [j]).
Proof.
  intros HA HB.
  destruct (@broadcast_val_spec op A B [N; C]) as (R & E & W & S & G).
  { rewrite HA, HB. unfold broadcast_shape, pad_left. cbn.
    now rewrite broadcast_dim_1_r, broadcast_dim_refl. }
  exists R. repeat split; auto. intros i j Hi Hj.
  rewrite G by (simpl; auto). rewrite HA, HB. unfold bcast_index. cbn.
  now rewrite !bcast_component.
Qed.

(** A row and a matrix: [(C,) op (N, C)]. *)
Lemma broadcast_val_row_matrix (op : T -> T -> T) (A B : NDArray T) (N C : nat) :
  shape A = [C] -> shape B = [N; C] ->
  exists R, broadcast_val op A B = Ok R /\ wf R /\ shape R = [N; C] /\
    forall i j, i < N -> j < C -> get R [i; j] = op (get A [j]) (get B [i; j]).
Proof.
  intros HA HB.
  destruct (@broadcast_val_spec op A B [N; C]) as (R & E & W & S & G).
  { rewrite HA, HB. unfold broadcast_shape, pad_left. cbn.
    now rewrite broadcast_dim_1_l, broadcast_dim_refl. }
  exists R. repeat split; auto. intros i j Hi Hj.
  rewrite G by (simpl; auto). rewrite HA, HB. unfold bcast_index. cbn.
  now rewrite !bcast_component.
Qed.

(** [mx.nd.mean(X, axis=0)] of a matrix: the means of its columns. *)
Lemma mean_val_columns (X : NDArray T) (N C : nat) :
  shape X = [N; C] ->
  exists m, mean_val X [0] = Ok m /\ wf m /\ shape m = [C] /\
    forall j, j < C ->
      get m [j] = s_div (nd_sum (map (fun i => get X [i; j]) (seq 0 N)))
                        (s_of_nat N).
Proof.
  intros HX. unfold mean_val. rewrite HX. cbn [length forallb Nat.ltb Nat.leb andb].
  cbn [select in_axes existsb Nat.eqb orb negb].
  eexists. split; [reflexivity|]. split; [apply wf_tabulate|].
  split; [reflexivity|]. intros j Hj.
  rewrite get_tabulate by (simpl; auto).
  cbn [indices]. rewrite map_flat_map. cbn [map].
  rewrite flat_map_singleton. cbn [merge_index in_axes existsb Nat.eqb orb].
  rewrite size_of_cons. cbn [size_of fold_right]. now rewrite Nat.mul_1_r.
Qed.

End OpLemmas.

(** ** [pure_batch_norm] on a dense input, in any element arithmetic *)

Section Dense.

Context {T : Type} {ST : Scalar T}.

Lemma den_bind_ok (X Y : Type) (x : X) (k : X -> @den T Y) :
  den_bind (den_lift (Ok x)) k = k x.
Proof. unfold den_bind, den_lift; simpl. now destruct (k x). Qed.

Lemma den_bind_div (Y : Type) (a b r : NDArray T) (k : NDArray T -> @den T Y) :
  broadcast_val s_div a b = Ok r ->
  den_bind (den_div a b) k = (fst (k r), b :: snd (k r)).
Proof. intros E. unfold den_bind, den_div. now rewrite E. Qed.

(** An operation of the library other than [/] divides by nothing. *)
Lemma snd_den_bind_lift (X Y : Type) (r : result X) (k : X -> @den T Y) :
  (forall x, snd (k x) = []) -> snd (den_bind (den_lift r) k) = [].
Proof.
  intros Hk. unfold den_bind, den_lift. destruct r as [x|e]; simpl; auto.
Qed.

(** The normalization of an [(N, C)] input: [X_hat], the divisor [sd], and
    what is left of the call once [X_hat] is there. *)
Lemma normalize_dense (X : NDArray T) (eps : T) (N C : nat) :
  shape X = [N; C] ->
  exists X_hat sd,
    wf X_hat /\ shape X_hat = [N; C] /\ wf sd /\ shape sd = [C] /\
    (forall j, j < C -> get sd [j] = divisor_in (col_var_in X N j) eps) /\
    (forall i j, i < N -> j < C ->
       get X_hat [i; j]
       = s_div (s_mul (s_sub (get X [i; j]) (col_mean_in X N j)) s_one)
               (get sd [j])) /\
    forall gamma beta,
      pure_batch_norm (M := den) X gamma beta eps
      = let rest :=
          den_bind (den_lift (broadcast_val s_mul gamma X_hat)) (fun gx =>
          den_bind (den_lift (broadcast_val s_add gx beta)) (fun out =>
          den_ret out)) in
        (fst rest, sd :: snd rest).
Proof.
  intros HX.
  destruct (mean_val_columns X HX) as (mean & Em & Wm & Sm & Gm).
  destruct (broadcast_val_matrix_row s_sub X mean HX Sm) as (d & Ed & Wd & Sd & Gd).
  set (sq := map_val (fun x => s_pow x 2) d).
  assert (Ssq : shape sq = [N; C]) by exact Sd.
  destruct (mean_val_columns sq Ssq) as (variance & Ev & Wv & Sv & Gv).
  set (num := map_val (fun x => s_mul x s_one) d).
  set (sd := map_val s_sqrt (map_val (fun x => s_add x eps) variance)).
  assert (Snum : shape num = [N; C]) by exact Sd.
  assert (Ssd : shape sd = [C]) by exact Sv.
  destruct (broadcast_val_matrix_row s_div num sd Snum Ssd)
    as (X_hat & Eh & Wh & Sh & Gh).
  assert (Gvar : forall j, j < C -> get variance [j] = col_var_in X N j).
  { intros j Hj. rewrite (Gv j Hj). unfold col_var_in, mean_in, column.
    rewrite map_map. f_equal. f_equal. apply map_ext_in. intros i Hi.
    apply in_seq in Hi. unfold sq.
    rewrite get_map_val by (rewrite ?Sd; simpl; auto; lia).
    rewrite Gd by lia. rewrite (Gm j Hj). reflexivity. }
  assert (Gsd : forall j, j < C -> get sd [j] = divisor_in (col_var_in X N j) eps).
  { intros j Hj. unfold sd.
    rewrite !get_map_val
      by (auto using wf_map_val; simpl; rewrite ?Sv; simpl; auto).
    now rewrite Gvar. }
  exists X_hat, sd.
  split; [exact Wh|]. split; [exact Sh|].
  split; [unfold sd; auto using wf_map_val|]. split; [exact Ssd|].
  split; [exact Gsd|]. split.
  - intros i j Hi Hj. rewrite Gh by assumption. unfold num.
    rewrite get_map_val by (rewrite ?Sd; simpl; auto).
    rewrite Gd by assumption. rewrite (Gm j Hj). reflexivity.
  - intros gamma beta. unfold pure_batch_norm.
    cbn [nd_shape nd_mean nd_sub nd_add nd_mul nd_div nd_pow_scalar
         nd_mul_scalar nd_add_scalar nd_sqrt ret bind Den].
    rewrite HX. cbn [length existsb Nat.eqb negb orb].
    rewrite Em, den_bind_ok, Ed, !den_bind_ok.
    fold sq. rewrite Ev, !den_bind_ok. fold num sd.
    erewrite den_bind_div by exact Eh. reflexivity.
Qed.

(** The result and the divisor of [pure_batch_norm] on an [(N, C)] input
    with [gamma] and [beta] of shape [(C,)]. *)
Lemma pure_batch_norm_dense (X gamma beta : NDArray T) (eps : T) (N C : nat) :
  shape X = [N; C] -> shape gamma = [C] -> shape beta = [C] ->
  exists out sd,
    pure_batch_norm (M := den) X gamma beta eps = (Ok out, [sd]) /\
    wf out /\ shape out = [N; C] /\ wf sd /\ shape sd = [C] /\
    (forall j, j < C -> get sd [j] = divisor_in (col_var_in X N j) eps) /\
    (forall i j, i < N -> j < C ->
       get out [i; j]
       = normalize_in (get gamma [j]) (get X [i; j]) (col_mean_in X N j)
           (divisor_in (col_var_in X N j) eps) (get beta [j])).
Proof.
  intros HX Hg Hb.
  destruct (normalize_dense X eps HX)
    as (X_hat & sd & Wh & Sh & Wsd & Ssd & Gsd & Gh & E).
  destruct (broadcast_val_row_matrix s_mul gamma X_hat Hg Sh)
    as (gx & Egx & Wgx & Sgx & Ggx).
  destruct (broadcast_val_matrix_row s_add gx beta Sgx Hb)
    as (out & Eo & Wo & So & Go).
  exists out, sd. rewrite E, Egx, den_bind_ok, Eo, den_bind_ok.
  split; [reflexivity|]. split; [exact Wo|]. split; [exact So|].
  split; [exact Wsd|]. split; [exact Ssd|]. split; [exact Gsd|].
  intros i j Hi Hj. rewrite Go, Ggx, Gh by assumption.
  rewrite (Gsd j Hj). reflexivity.
Qed.

(** What a call on an [(N, C)] input divides by, whatever [gamma] and
    [beta] are. *)
Lemma divisors_dense (X gamma beta : NDArray T) (eps : T) (N C : nat) :
  shape X = [N; C] ->
  exists sd,
    bn_divisors X gamma beta eps = [sd] /\ wf sd /\ shape sd = [C] /\
    forall j, j < C -> get sd [j] = divisor_in (col_var_in X N j) eps.
Proof.
  intros HX.
  destruct (normalize_dense X eps HX)
    as (X_hat & sd & _ & _ & Wsd & Ssd & Gsd & _ & E).
  exists sd. unfold bn_divisors. rewrite E. cbn [snd].
  split; [|auto]. f_equal.
  repeat (apply snd_den_bind_lift; intros ?). reflexivity.
Qed.

End Dense.

(** ** [pure_batch_norm] on a convolutional input, in any element arithmetic *)

Section Conv.

Context {T : Type} {ST : Scalar T}.

Lemma flat_map_ext_in (X Y : Type) (f g : X -> list Y) (l : list X) :
  (forall x, In x l -> f x = g x) -> flat_map f l = flat_map g l.
Proof.
  induction l as [|x l IH]; intros E; [reflexivity|].
  cbn [flat_map]. rewrite (E x) by (left; reflexivity).
  rewrite IH; [reflexivity|]. intros y Hy. apply E. now right.
Qed.

(** Feature maps and per-channel values: [(N, C, H, W) op (1, C, 1, 1)]. *)
Lemma broadcast_val_maps_chan (op : T -> T -> T) (A B : NDArray T) (N C H W : nat) :
  shape A = [N; C; H; W] -> shape B = [1; C; 1; 1] ->
  exists R, broadcast_val op A B = Ok R /\ wf R /\ shape R = [N; C; H; W] /\
    forall n c h w, n < N -> c < C -> h < H -> w < W ->
      get R [n; c; h; w] = op (get A [n; c; h; w]) (get B [0; c; 0; 0]).
Proof.
  intros HA HB.
  destruct (@broadcast_val_spec _ _ op A B [N; C; H; W]) as (R & E & Wf & S & G).
  { rewrite HA, HB. unfold broadcast_shape, pad_left. cbn.
    now rewrite !broadcast_dim_1_r, broadcast_dim_refl. }
  exists R. repeat split; auto. intros n c h w Hn Hc Hh Hw.
  rewrite G by (simpl; auto). rewrite HA, HB. unfold bcast_index. cbn.
  now rewrite !bcast_component.
Qed.

(** [(1, C, 1, 1) op (N, C, H, W)]. *)
Lemma broadcast_val_chan_maps (op : T -> T -> T) (A B : NDArray T) (N C H W : nat) :
  shape A = [1; C; 1; 1] -> shape B = [N; C; H; W] ->
  exists R, broadcast_val op A B = Ok R /\ wf R /\ shape R = [N; C; H; W] /\
    forall n c h w, n < N -> c < C -> h < H -> w < W ->
      get R [n; c; h; w] = op (get A [0; c; 0; 0]) (get B [n; c; h; w]).
Proof.
  intros HA HB.
  destruct (@broadcast_val_spec _ _ op A B [N; C; H; W]) as (R & E & Wf & S & G).
  { rewrite HA, HB. unfold broadcast_shape, pad_left. cbn.
    now rewrite !broadcast_dim_1_l, broadcast_dim_refl. }
  exists R. repeat split; auto. intros n c h w Hn Hc Hh Hw.
  rewrite G by (simpl; auto). rewrite HA, HB. unfold bcast_index. cbn.
  now rewrite !bcast_component.
Qed.

(** [v.reshape((1, C, 1, 1))] of a vector of length [C]. *)
Lemma reshape_val_chan (A : NDArray T) (C : nat) :
  wf A -> shape A = [C] ->
  exists R, reshape_val A [1; C; 1; 1] = Ok R /\ wf R /\ shape R = [1; C; 1; 1] /\
    forall c, c < C -> get R [0; c; 0; 0] = get A [c].
Proof.
  intros Hwf HA. unfold wf in Hwf. rewrite HA in Hwf.
  assert (Hsz : size_of [1; C; 1; 1] <= length (data A))
    by (rewrite Hwf; cbn; lia).
  eexists. split; [apply (reshape_val_ok _ _ Hsz)|].
  split; [apply (wf_reshaped _ _ Hsz)|]. split; [reflexivity|].
  intros c Hc. apply get_reshaped.
  - simpl. auto with arith.
  - rewrite HA. cbn. lia.
Qed.

(** [mx.nd.mean(X, axis=(0, 2, 3))]: the means of the channels. *)
Lemma mean_val_channels (X : NDArray T) (N C H W : nat) :
  shape X = [N; C; H; W] ->
  exists m, mean_val X [0; 2; 3] = Ok m /\ wf m /\ shape m = [C] /\
    forall c, c < C -> get m [c] = mean_in (channel X N H W c) (N * H * W).
Proof.
  intros HX. unfold mean_val. rewrite HX.
  cbn [length forallb Nat.ltb Nat.leb andb].
  cbn [select in_axes existsb Nat.eqb orb negb].
  eexists. split; [reflexivity|]. split; [apply wf_tabulate|].
  split; [reflexivity|]. intros c Hc.
  rewrite get_tabulate by (simpl; auto).
  unfold mean_in. f_equal.
  - f_equal. cbn [indices]. unfold channel.
    rewrite map_flat_map. apply flat_map_ext. intros n.
    rewrite map_map, map_flat_map. apply flat_map_ext. intros h.
    rewrite map_map, map_flat_map. cbn [map].
    rewrite flat_map_singleton. reflexivity.
  - f_equal. cbn. lia.
Qed.

(** Arrays related element by element have channels related the same way. *)
Lemma channel_map (A B : NDArray T) (f : T -> T) (N H W c : nat) :
  (forall n h w, n < N -> h < H -> w < W ->
     get A [n; c; h; w] = f (get B [n; c; h; w])) ->
  channel A N H W c = map f (channel B N H W c).
Proof.
  intros E. unfold channel. rewrite map_flat_map.
  apply flat_map_ext_in. intros n Hn. apply in_seq in Hn.
  rewrite map_flat_map. apply flat_map_ext_in. intros h Hh. apply in_seq in Hh.
  rewrite map_map. apply map_ext_in. intros w Hw. apply in_seq in Hw.
  apply E; lia.
Qed.

(** The normalization of an [(N, C, H, W)] input: [X_hat], the divisor
    [sd], and what is left of the call once [X_hat] is there. *)
Lemma normalize_conv (X : NDArray T) (eps : T) (N C H W : nat) :
  shape X = [N; C; H; W] ->
  exists X_hat sd,
    wf X_hat /\ shape X_hat = [N; C; H; W] /\
    wf sd /\ shape sd = [1; C; 1; 1] /\
    (forall c, c < C ->
       get sd [0; c; 0; 0] = divisor_in (chan_var_in X N H W c) eps) /\
    (forall n c h w, n < N -> c < C -> h < H -> w < W ->
       get X_hat [n; c; h; w]
       = s_div (s_mul (s_sub (get X [n; c; h; w]) (chan_mean_in X N H W c))
                      s_one)
               (get sd [0; c; 0; 0])) /\
    forall gamma beta,
      pure_batch_norm (M := den) X gamma beta eps
      = let rest :=
          den_bind (den_lift (reshape_val gamma [1; C; 1; 1])) (fun gr =>
          den_bind (den_lift (broadcast_val s_mul gr X_hat)) (fun gx =>
          den_bind (den_lift (reshape_val beta [1; C; 1; 1])) (fun br =>
          den_bind (den_lift (broadcast_val s_add gx br)) (fun out =>
          den_ret out)))) in
        (fst rest, sd :: snd rest).
Proof.
  intros HX.
  destruct (mean_val_channels X HX) as (mean & Em & Wm & Sm & Gm).
  destruct (reshape_val_chan Wm Sm) as (mr & Emr & Wmr & Smr & Gmr).
  destruct (broadcast_val_maps_chan s_sub X mr HX Smr) as (d & Ed & Wd & Sd & Gd).
  set (sq := map_val (fun x => s_pow x 2) d).
  assert (Ssq : shape sq = [N; C; H; W]) by exact Sd.
  destruct (mean_val_channels sq Ssq) as (variance & Ev & Wv & Sv & Gv).
  set (num := map_val (fun x => s_mul x s_one) d).
  destruct (reshape_val_chan Wv Sv) as (vr & Evr & Wvr & Svr & Gvr).
  set (sd := map_val s_sqrt (map_val (fun x => s_add x eps) vr)).
  assert (Snum : shape num = [N; C; H; W]) by exact Sd.
  assert (Ssd : shape sd = [1; C; 1; 1]) by exact Svr.
  destruct (broadcast_val_maps_chan s_div num sd Snum Ssd)
    as (X_hat & Eh & Wh & Sh & Gh).
  assert (Gvar : forall c, c < C -> get variance [c] = chan_var_in X N H W c).
  { intros c Hc. rewrite (Gv c Hc). unfold chan_var_in. f_equal.
    apply channel_map. intros n h w Hn Hh Hw. unfold sq.
    rewrite get_map_val by (rewrite ?Sd; simpl; auto).
    rewrite Gd by assumption. rewrite (Gmr c Hc), (Gm c Hc). reflexivity. }
  assert (Gsd : forall c, c < C ->
            get sd [0; c; 0; 0] = divisor_in (chan_var_in X N H W c) eps).
  { intros c Hc. unfold sd.
    rewrite !get_map_val
      by (auto using wf_map_val; simpl; rewrite ?Svr; simpl; auto with arith).
    now rewrite Gvr, Gvar. }
  exists X_hat, sd.
  split; [exact Wh|]. split; [exact Sh|].
  split; [unfold sd; auto using wf_map_val|]. split; [exact Ssd|].
  split; [exact Gsd|]. split.
  - intros n c h w Hn Hc Hh Hw. rewrite Gh by assumption. unfold num.
    rewrite get_map_val by (rewrite ?Sd; simpl; auto).
    rewrite Gd by assumption. rewrite (Gmr c Hc), (Gm c Hc). reflexivity.
  - intros gamma beta. unfold pure_batch_norm.
    cbn [nd_shape nd_mean nd_sub nd_add nd_mul nd_div nd_pow_scalar
         nd_mul_scalar nd_add_scalar nd_sqrt nd_reshape ret bind Den].
    rewrite HX. cbn [length existsb Nat.eqb negb orb].
    rewrite Em, den_bind_ok, Emr, den_bind_ok, Ed, !den_bind_ok.
    fold sq. rewrite Ev, !den_bind_ok, Ed, !den_bind_ok. fold num.
    rewrite Evr, !den_bind_ok. fold sd.
    erewrite den_bind_div by exact Eh. reflexivity.
Qed.

(** The result and the divisor of [pure_batch_norm] on an [(N, C, H, W)]
    input with [gamma] and [beta] of shape [(C,)]. *)
Lemma pure_batch_norm_conv (X gamma beta : NDArray T) (eps : T) (N C H W : nat) :
  shape X = [N; C; H; W] ->
  wf gamma -> shape gamma = [C] -> wf beta -> shape beta = [C] ->
  exists out sd,
    pure_batch_norm (M := den) X gamma beta eps = (Ok out, [sd]) /\
    wf out /\ shape out = [N; C; H; W] /\ wf sd /\ shape sd = [1; C; 1; 1] /\
    (forall c, c < C ->
       get sd [0; c; 0; 0] = divisor_in (chan_var_in X N H W c) eps) /\
    (forall n c h w, n < N -> c < C -> h < H -> w < W ->
       get out [n; c; h; w]
       = normalize_in (get gamma [c]) (get X [n; c; h; w])
           (chan_mean_in X N H W c)
           (divisor_in (chan_var_in X N H W c) eps) (get beta [c])).
Proof.
  intros HX Wg Hg Wb Hb.
  destruct (normalize_conv X eps HX)
    as (X_hat & sd & Wh & Sh & Wsd & Ssd & Gsd & Gh & E).
  destruct (reshape_val_chan Wg Hg) as (gr & Egr & Wgr & Sgr & Ggr).
  destruct (broadcast_val_chan_maps s_mul gr X_hat Sgr Sh)
    as (gx & Egx & Wgx & Sgx & Ggx).
  destruct (reshape_val_chan Wb Hb) as (br & Ebr & Wbr & Sbr & Gbr).
  destruct (broadcast_val_maps_chan s_add gx br Sgx Sbr)
    as (out & Eo & Wo & So & Go).
  exists out, sd.
  rewrite E, Egr, den_bind_ok, Egx, den_bind_ok, Ebr, den_bind_ok, Eo,
    den_bind_ok.
  split; [reflexivity|]. split; [exact Wo|]. split; [exact So|].
  split; [exact Wsd|]. split; [exact Ssd|]. split; [exact Gsd|].
  intros n c h w Hn Hc Hh Hw. rewrite Go, Ggx, Gh by assumption.
  rewrite (Gsd c Hc), (Ggr c Hc), (Gbr c Hc). reflexivity.
Qed.

(** What a call on an [(N, C, H, W)] input divides by, whatever [gamma]
    and [beta] are. *)
Lemma divisors_conv (X gamma beta : NDArray T) (eps : T) (N C H W : nat) :
  shape X = [N; C; H; W] ->
  exists sd,
    bn_divisors X gamma beta eps = [sd] /\ wf sd /\ shape sd = [1; C; 1; 1] /\
    forall c, c < C ->
      get sd [0; c; 0; 0] = divisor_in (chan_var_in X N H W c) eps.
Proof.
  intros HX.
  destruct (normalize_conv X eps HX)
    as (X_hat & sd & _ & _ & Wsd & Ssd & Gsd & _ & E).
  exists sd. unfold bn_divisors. rewrite E. cbn [snd].
  split; [|auto]. f_equal.
  repeat (apply snd_den_bind_lift; intros ?). reflexivity.
Qed.

End Conv.

(** ** Exact arithmetic: sums and means of real numbers *)

Section RealSums.

Import Formula.
Open Scope R_scope.

Lemma Rsum_app (l1 l2 : list R) : Rsum (l1 ++ l2) = Rsum l1 + Rsum l2.
Proof.
  induction l1 as [|x l1 IH]; simpl.
  - ring.
  - change (fold_right Rplus 0 (l1 ++ l2)) with (Rsum (l1 ++ l2)).
    rewrite IH. unfold Rsum. ring.
Qed.

Lemma Rsum_flat_map (X : Type) (f : X -> list R) (l : list X) :
  Rsum (flat_map f l) = Rsum (map (fun x => Rsum (f x)) l).
Proof.
  induction l as [|x l IH]; [reflexivity|].
  cbn [flat_map map]. rewrite Rsum_app, IH. reflexivity.
Qed.

Lemma Rsum_ext_in (X : Type) (f g : X -> R) (l : list X) :
  (forall x, In x l -> f x = g x) -> Rsum (map f l) = Rsum (map g l).
Proof. intros E. f_equal. now apply map_ext_in. Qed.

(** Linearity of the sum. *)
Lemma Rsum_affine (X : Type) (f : X -> R) (a b : R) (l : list X) :
  Rsum (map (fun x => a * f x + b) l) = a * Rsum (map f l) + INR (length l) * b.
Proof.
  induction l as [|x l IH].
  - simpl. ring.
  - cbn [map length]. rewrite S_INR. unfold Rsum in *. cbn [fold_right].
    rewrite IH. ring.
Qed.

Lemma Rsum_nonneg (l : list R) : Forall (fun x => 0 <= x) l -> 0 <= Rsum l.
Proof.
  unfold Rsum. induction 1 as [|x l Hx _ IH]; simpl; lra.
Qed.

Lemma Rsum_constant (l : list R) (k : R) :
  Forall (fun x => x = k) l -> Rsum l = INR (length l) * k.
Proof.
  induction 1 as [|x l Hx _ IH].
  - simpl. ring.
  - cbn [length]. rewrite S_INR. unfold Rsum in *. cbn [fold_right].
    rewrite IH, Hx. ring.
Qed.

(** A mean of squares is not negative. *)
Lemma mean_squares_nonneg (l : list R) (m : R) (n : nat) :
  0 <= mean_in (map (sq_dev m) l) n.
Proof.
  unfold mean_in. cbn [s_div s_of_nat Scalar_R].
  change (nd_sum (map (sq_dev m) l)) with (Rsum (map (sq_dev m) l)).
  assert (Hs : 0 <= Rsum (map (sq_dev m) l)).
  { apply Rsum_nonneg. apply Forall_map, Forall_forall. intros x _.
    unfold sq_dev. cbn [s_pow s_sub Scalar_R]. apply pow2_ge_0. }
  destruct n as [|n].
  - unfold Rdiv. cbn [INR]. rewrite Rinv_0. lra.
  - apply Rmult_le_pos; [exact Hs|].
    left. apply Rinv_0_lt_compat. apply lt_0_INR. lia.
Qed.

(** The divisor of the normalization is positive when [eps] is. *)
Lemma divisor_in_pos (l : list R) (m eps : R) (n : nat) :
  0 < eps -> 0 < divisor_in (mean_in (map (sq_dev m) l) n) eps.
Proof.
  intros He. unfold divisor_in. cbn [s_sqrt s_add Scalar_R].
  apply sqrt_lt_R0. pose proof (mean_squares_nonneg l m n). lra.
Qed.

(** The mean of equal values is that value. *)
Lemma mean_in_constant (l : list R) (k : R) :
  l <> [] -> Forall (fun x => x = k) l -> mean_in l (length l) = k.
Proof.
  intros Hne Hk. unfold mean_in. cbn [s_div s_of_nat Scalar_R].
  change (nd_sum l) with (Rsum l). rewrite (Rsum_constant Hk).
  field. apply not_0_INR. destruct l; [congruence | discriminate].
Qed.

End RealSums.

(** ** Exact arithmetic: the formula of the specification *)

Section ExactFormula.

Import Formula.
Open Scope R_scope.

Lemma col_mean_in_R (X : NDArray R) (N j : nat) :
  col_mean_in X N j = col_mean X N j.
Proof. reflexivity. Qed.

Lemma col_var_in_R (X : NDArray R) (N j : nat) :
  col_var_in X N j = col_var X N j.
Proof.
  unfold col_var_in, col_var, mean_of, mean_in, column.
  rewrite map_map. reflexivity.
Qed.

Lemma Rsum_channel (f : R -> R) (X : NDArray R) (N H W c : nat) :
  Rsum (map f (channel X N H W c))
  = chan_sum N H W (fun n h w => f (get X [n; c; h; w])).
Proof.
  unfold channel, chan_sum. rewrite map_flat_map, Rsum_flat_map.
  f_equal. apply map_ext. intros n. rewrite map_flat_map, Rsum_flat_map.
  f_equal. apply map_ext. intros h. now rewrite map_map.
Qed.

Lemma chan_mean_in_R (X : NDArray R) (N H W c : nat) :
  chan_mean_in X N H W c = chan_mean X N H W c.
Proof.
  unfold chan_mean_in, chan_mean, mean_in.
  rewrite <- (map_id (channel X N H W c)).
  change (nd_sum (map (fun x => x) (channel X N H W c)))
    with (Rsum (map (fun x => x) (channel X N H W c))).
  now rewrite Rsum_channel.
Qed.

Lemma chan_var_in_R (X : NDArray R) (N H W c : nat) :
  chan_var_in X N H W c = chan_var X N H W c.
Proof.
  unfold chan_var_in, chan_var, mean_in. rewrite chan_mean_in_R.
  change (nd_sum (map (sq_dev (chan_mean X N H W c)) (channel X N H W c)))
    with (Rsum (map (sq_dev (chan_mean X N H W c)) (channel X N H W c))).
  now rewrite Rsum_channel.
Qed.

(** The code's [gamma * ((x - m) * 1.0 / d) + beta] is the formula's
    [gamma * (x - m) / d + beta]. *)
Lemma normalize_in_R (g x m d b : R) :
  normalize_in g x m d b = g * (x - m) / d + b.
Proof.
  unfold normalize_in. cbn [s_add s_mul s_div s_sub s_one Scalar_R].
  unfold Rdiv. ring.
Qed.

(** The entries of the result on a dense input, in exact arithmetic, as
    a scale and a shift of the centered value. *)
Lemma dense_exact (X gamma beta : NDArray R) (eps : R) (N C : nat) :
  shape X = [N; C] -> shape gamma = [C] -> shape beta = [C] ->
  exists out,
    bn_result X gamma beta eps = Ok out /\
    forall i j, (i < N)%nat -> (j < C)%nat ->
      get out [i; j]
      = get gamma [j] * / sqrt (col_var X N j + eps)
          * (get X [i; j] - col_mean X N j)
        + get beta [j].
Proof.
  intros HX Hg Hb.
  destruct (pure_batch_norm_dense X gamma beta eps HX Hg Hb)
    as (out & sd & E & _ & _ & _ & _ & _ & Go).
  exists out. unfold bn_result. rewrite E. split; [reflexivity|].
  intros i j Hi Hj. rewrite (Go i j Hi Hj), normalize_in_R.
  unfold divisor_in. rewrite col_var_in_R, col_mean_in_R.
  cbn [s_sqrt s_add Scalar_R]. unfold Rdiv. ring.
Qed.

(** The entries of the result on a convolutional input, in exact
    arithmetic. *)
Lemma conv_exact (X gamma beta : NDArray R) (eps : R) (N C H W : nat) :
  shape X = [N; C; H; W] ->
  wf gamma -> shape gamma = [C] -> wf beta -> shape beta = [C] ->
  exists out,
    bn_result X gamma beta eps = Ok out /\
    forall n c h w, (n < N)%nat -> (c < C)%nat -> (h < H)%nat -> (w < W)%nat ->
      get out [n; c; h; w]
      = get gamma [c] * / sqrt (chan_var X N H W c + eps)
          * (get X [n; c; h; w] - chan_mean X N H W c)
        + get beta [c].
Proof.
  intros HX Wg Hg Wb Hb.
  destruct (pure_batch_norm_conv X eps HX Wg Hg Wb Hb)
    as (out & sd & E & _ & _ & _ & _ & _ & Go).
  exists out. unfold bn_result. rewrite E. split; [reflexivity|].
  intros n c h w Hn Hc Hh Hw. rewrite (Go n c h w Hn Hc Hh Hw), normalize_in_R.
  unfold divisor_in. rewrite chan_var_in_R, chan_mean_in_R.
  cbn [s_sqrt s_add Scalar_R]. unfold Rdiv. ring.
Qed.

(** C1, in exact arithmetic.  For a 2-D input [X] of [N] rows and [C]
    features that has elements ([N] and [C] are not 0), per-feature vectors
    [gamma] and [beta] of shape [(C,)] and an [eps] with which no divisor
    [sqrt(var_j + eps)] is zero (any [eps > 0] is one), [pure_batch_norm]
    returns the [N] by [C] matrix whose entry [(i, j)] is
    [gamma[j] * (X[i][j] - mean_j) / sqrt(var_j + eps) + beta[j]], with
    [mean_j] the mean of column [j] over the batch dimension and [var_j]
    the mean over the batch dimension of the squared deviations from it.
    In the float32 arithmetic of the arrays every operation rounds, and the
    entries are not those of the formula. *)
Theorem dense_formula (X gamma beta : NDArray R) (eps : R) (N C : nat) :
  wf X -> shape X = [N; C] ->
  wf gamma -> shape gamma = [C] ->
  wf beta -> shape beta = [C] ->
  (0 < N)%nat -> (0 < C)%nat ->
  (forall j, (j < C)%nat -> 0 < col_var X N j + eps) ->
  exists out,
    bn_result X gamma beta eps = Ok out /\
    wf out /\ shape out = [N; C] /\
    forall i j, (i < N)%nat -> (j < C)%nat ->
      get out [i; j]
      = get gamma [j] * (get X [i; j] - col_mean X N j)
          / sqrt (col_var X N j + eps)
        + get beta [j].
Proof.
  intros _ HX _ Hg _ Hb _ _ _.
  destruct (pure_batch_norm_dense X gamma beta eps HX Hg Hb)
    as (out & sd & E & Wo & So & _ & _ & _ & Go).
  exists out. unfold bn_result. rewrite E.
  split; [reflexivity|]. split; [exact Wo|]. split; [exact So|].
  intros i j Hi Hj. rewrite (Go i j Hi Hj), normalize_in_R.
  unfold divisor_in. rewrite col_var_in_R, col_mean_in_R. reflexivity.
Qed.

(** C2, in exact arithmetic.  For a 4-D input [X] of shape
    [(N, C, H, W)] that has elements (no dimension is 0), per-channel
    vectors [gamma] and [beta] of shape [(C,)] and an [eps] with which no
    divisor [sqrt(var_c + eps)] is zero (any [eps > 0] is one),
    [pure_batch_norm] returns the array of the same shape whose entry
    [(n, c, h, w)] is
    [gamma[c] * (X[n][c][h][w] - mean_c) / sqrt(var_c + eps) + beta[c]],
    with [mean_c] and [var_c] the mean and the variance of channel [c] over
    all batch and spatial positions (axes 0, 2 and 3): the statistics, the
    scale and the shift of a channel are the same at every batch and spatial
    position.  In the float32 arithmetic of the arrays every operation
    rounds, and the entries are not those of the formula. *)
Theorem conv_formula (X gamma beta : NDArray R) (eps : R) (N C H W : nat) :
  wf X -> shape X = [N; C; H; W] ->
  wf gamma -> shape gamma = [C] ->
  wf beta -> shape beta = [C] ->
  (0 < N)%nat -> (0 < C)%nat -> (0 < H)%nat -> (0 < W)%nat ->
  (forall c, (c < C)%nat -> 0 < chan_var X N H W c + eps) ->
  exists out,
    bn_result X gamma beta eps = Ok out /\
    wf out /\ shape out = [N; C; H; W] /\
    forall n c h w, (n < N)%nat -> (c < C)%nat -> (h < H)%nat -> (w < W)%nat ->
      get out [n; c; h; w]
      = get gamma [c] * (get X [n; c; h; w] - chan_mean X N H W c)
          / sqrt (chan_var X N H W c + eps)
        + get beta [c].
Proof.
  intros _ HX Wg Hg Wb Hb _ _ _ _ _.
  destruct (pure_batch_norm_conv X eps HX Wg Hg Wb Hb)
    as (out & sd & E & Wo & So & _ & _ & _ & Go).
  exists out. unfold bn_result. rewrite E.
  split; [reflexivity|]. split; [exact Wo|]. split; [exact So|].
  intros n c h w Hn Hc Hh Hw. rewrite (Go n c h w Hn Hc Hh Hw), normalize_in_R.
  unfold divisor_in. rewrite chan_var_in_R, chan_mean_in_R. reflexivity.
Qed.

End ExactFormula.

(** ** Shape of the result *)

Section Shapes.

Context {T : Type} {ST : Scalar T}.

Lemma valid_input_cases (X gamma beta : NDArray T) :
  valid_input X gamma beta ->
  (exists N C, shape X = [N; C] /\ shape gamma = [C] /\ shape beta = [C]) \/
  (exists N C H W,
     shape X = [N; C; H; W] /\ shape gamma = [C] /\ shape beta = [C]).
Proof.
  intros (_ & _ & _ & Hr & Hg & Hb & _).
  destruct (shape X) as [|N [|C [|H [|W [|? ?]]]]]; simpl in Hr;
    try (exfalso; lia).
  - left. exists N, C. auto.
  - right. exists N, C, H, W. auto.
Qed.

(** On a valid input the call returns, and the result is well formed. *)
Lemma valid_input_returns (X gamma beta : NDArray T) (eps : T) :
  valid_input X gamma beta ->
  exists out, bn_result X gamma beta eps = Ok out /\ wf out.
Proof.
  intros Hv. pose proof Hv as (_ & Wg & Wb & _).
  destruct (valid_input_cases Hv)
    as [(N & C & HX & Hg & Hb) | (N & C & H & W & HX & Hg & Hb)].
  - destruct (pure_batch_norm_dense X gamma beta eps HX Hg Hb)
      as (out & sd & E & Wo & _).
    exists out. unfold bn_result. rewrite E. auto.
  - destruct (pure_batch_norm_conv X eps HX Wg Hg Wb Hb)
      as (out & sd & E & Wo & _).
    exists out. unfold bn_result. rewrite E. auto.
Qed.

(** C9. For a valid input (an array of rank 2 or 4 that has elements,
    [gamma] and [beta] of length the feature or channel dimension),
    [pure_batch_norm] returns an array of exactly the shape of [X]. *)
Theorem output_shape (X gamma beta : NDArray T) (eps : T) :
  valid_input X gamma beta ->
  exists out, bn_result X gamma beta eps = Ok out /\ shape out = shape X.
Proof.
  intros Hv. pose proof Hv as (_ & Wg & Wb & _).
  destruct (valid_input_cases Hv)
    as [(N & C & HX & Hg & Hb) | (N & C & H & W & HX & Hg & Hb)].
  - destruct (pure_batch_norm_dense X gamma beta eps HX Hg Hb)
      as (out & sd & E & _ & So & _).
    exists out. unfold bn_result. rewrite E, HX. auto.
  - destruct (pure_batch_norm_conv X eps HX Wg Hg Wb Hb)
      as (out & sd & E & _ & So & _).
    exists out. unfold bn_result. rewrite E, HX. auto.
Qed.

End Shapes.

(** ** Errors: the rank check and the library *)

Section ErrorCondition.

Context {T : Type} {ST : Scalar T}.

Local Abbreviation library_only := (library_only (T := T)).

Lemma library_only_bind (X Y : Type) (c : @den T X) (k : X -> @den T Y) :
  library_only c -> (forall x, library_only (k x)) ->
  library_only (den_bind c k).
Proof.
  intros Hc Hk e. unfold den_bind. destruct (fst c) as [x|e'] eqn:E; simpl.
  - apply Hk.
  - intros [= <-]. now apply Hc.
Qed.

Lemma library_only_ok (X : Type) (x : X) : library_only (den_lift (T := T) (Ok x)).
Proof. intros e. simpl. discriminate. Qed.

Lemma library_only_ret (X : Type) (x : X) : library_only (den_ret (T := T) x).
Proof. intros e. simpl. discriminate. Qed.

Lemma library_only_mean (X : NDArray T) (axis : list nat) :
  library_only (den_lift (mean_val X axis)).
Proof.
  intros e. unfold den_lift, mean_val; simpl.
  destruct (forallb _ axis); [discriminate | now intros [= <-]].
Qed.

Lemma library_only_broadcast (op : T -> T -> T) (A B : NDArray T) :
  library_only (den_lift (broadcast_val op A B)).
Proof.
  intros e. unfold den_lift, broadcast_val; simpl.
  destruct (broadcast_shape _ _); [discriminate | now intros [= <-]].
Qed.

Lemma library_only_div (A B : NDArray T) : library_only (den_div A B).
Proof.
  intros e. unfold den_div, broadcast_val.
  destruct (broadcast_shape _ _); simpl; [discriminate | now intros [= <-]].
Qed.

Lemma library_only_reshape (A : NDArray T) (s : list nat) :
  library_only (den_lift (reshape_val A s)).
Proof.
  intros e. unfold den_lift, reshape_val; simpl.
  destruct (_ <=? _); [discriminate | now intros [= <-]].
Qed.

Lemma library_only_in_rank (X gamma beta : NDArray T) (eps : T) :
  length (shape X) = 2 \/ length (shape X) = 4 ->
  library_only (pure_batch_norm (M := den) X gamma beta eps).
Proof.
  intros Hr. unfold pure_batch_norm.
  cbn [nd_shape nd_mean nd_sub nd_add nd_mul nd_div nd_pow_scalar
       nd_mul_scalar nd_add_scalar nd_sqrt nd_reshape ret bind raise Den].
  destruct (shape X) as [|N [|C [|H [|W [|? ?]]]]]; simpl in Hr;
    try (exfalso; lia); cbn [length existsb Nat.eqb negb orb];
    repeat (apply library_only_bind; [|intros ?]);
    auto using library_only_ok, library_only_ret, library_only_mean,
      library_only_broadcast, library_only_div, library_only_reshape.
Qed.

(** C3, as the code has it.  [pure_batch_norm] raises [ValueError] if and
    only if the rank of [X] is neither 2 nor 4; on a valid input (an [X]
    that has elements, [gamma] and [beta] of the length of the feature or
    channel dimension) it returns a result; when the rank is 2 or 4 the
    only error there can be is the library's own, for operands whose
    shapes do not fit; and [return out] is never reached with [out]
    unassigned. *)
Theorem rank_check (X gamma beta : NDArray T) (eps : T) :
  ((exists msg, bn_result X gamma beta eps = Err (ValueError msg)) <->
   (length (shape X) <> 2 /\ length (shape X) <> 4)) /\
  (valid_input X gamma beta ->
   exists out, bn_result X gamma beta eps = Ok out) /\
  (forall e, length (shape X) = 2 \/ length (shape X) = 4 ->
             bn_result X gamma beta eps = Err e -> e = MXNetError) /\
  bn_result X gamma beta eps <> Err UnboundLocalError.
Proof.
  assert (Hlib : forall e, length (shape X) = 2 \/ length (shape X) = 4 ->
                   bn_result X gamma beta eps = Err e -> e = MXNetError).
  { intros e Hr E. exact (@library_only_in_rank X gamma beta eps Hr e E). }
  assert (Hraise : length (shape X) <> 2 /\ length (shape X) <> 4 ->
                   exists msg, bn_result X gamma beta eps = Err (ValueError msg)).
  { intros [H2 H4]. eexists. unfold bn_result, pure_batch_norm.
    cbn [nd_shape Den existsb].
    apply Nat.eqb_neq in H2, H4. rewrite H2, H4. reflexivity. }
  split; [split|split; [|split]].
  - intros [msg E].
    destruct (Nat.eq_dec (length (shape X)) 2) as [H2|H2];
      [specialize (Hlib _ (or_introl H2) E); discriminate|].
    destruct (Nat.eq_dec (length (shape X)) 4) as [H4|H4];
      [specialize (Hlib _ (or_intror H4) E); discriminate|].
    auto.
  - exact Hraise.
  - intros Hv. destruct (valid_input_returns eps Hv) as (out & E & _). eauto.
  - exact Hlib.
  - intros E.
    destruct (Nat.eq_dec (length (shape X)) 2) as [H2|H2];
      [specialize (Hlib _ (or_introl H2) E); discriminate|].
    destruct (Nat.eq_dec (length (shape X)) 4) as [H4|H4];
      [specialize (Hlib _ (or_intror H4) E); discriminate|].
    destruct (Hraise (conj H2 H4)) as [msg E']. congruence.
Qed.

End ErrorCondition.


(** ** The two branches on degenerate spatial dimensions *)

Section Degenerate.

Context {T : Type} {ST : Scalar T}.

Lemma valid_index_degenerate (N C : nat) (idx : list nat) :
  valid_index [N; C; 1; 1] idx ->
  exists n c, idx = [n; c; 0; 0] /\ n < N /\ c < C.
Proof.
  destruct idx as [|n [|c [|h [|w [|? ?]]]]]; simpl; try tauto.
  intros (Hn & Hc & Hh & Hw & _). exists n, c.
  replace h with 0 by lia. replace w with 0 by lia. auto.
Qed.

(** With one spatial position, a channel is a column. *)
Lemma channel_degenerate (X : NDArray T) (N c : nat) :
  channel X N 1 1 c = map (fun n => get X [n; c; 0; 0]) (seq 0 N).
Proof.
  unfold channel. rewrite <- flat_map_singleton.
  apply flat_map_ext. intros n. reflexivity.
Qed.

(** C8, for [gamma] and [beta] of shape [(C,)].  The two branches of
    [pure_batch_norm] agree when the spatial dimensions are degenerate: for
    an input of shape [(N, C, 1, 1)] that has elements and [gamma], [beta]
    of shape [(C,)], the result of the 4-D branch is the result of the 2-D
    branch on the same data reshaped to [(N, C)] (same [gamma], [beta] and
    [eps]), reshaped back to [(N, C, 1, 1)].  For a [gamma] of another
    length both branches can return, and then differ: the 4-D branch takes
    the first [C] elements, the 2-D branch broadcasts. *)
Theorem degenerate_spatial (X gamma beta : NDArray T) (eps : T) (N C : nat) :
  wf X -> shape X = [N; C; 1; 1] ->
  wf gamma -> shape gamma = [C] ->
  wf beta -> shape beta = [C] ->
  0 < N -> 0 < C ->
  exists X2 out2 out4,
    reshape_val X [N; C] = Ok X2 /\
    bn_result X2 gamma beta eps = Ok out2 /\
    bn_result X gamma beta eps = Ok out4 /\
    reshape_val out2 [N; C; 1; 1] = Ok out4.
Proof.
  intros WX HX Wg Hg Wb Hb _ _.
  assert (HsX : size_of [N; C] <= length (data X)).
  { rewrite WX, HX. cbn. lia. }
  set (X2 := mkND [N; C] (firstn (size_of [N; C]) (data X))).
  assert (GX2 : forall i j, i < N -> j < C -> get X2 [i; j] = get X [i; j; 0; 0]).
  { intros i j Hi Hj. apply get_reshaped; [simpl; auto|].
    rewrite HX. cbn. lia. }
  destruct (pure_batch_norm_dense X2 gamma beta eps (N := N) (C := C)
              eq_refl Hg Hb)
    as (out2 & sd2 & E2 & W2 & S2 & _ & _ & _ & G2).
  destruct (pure_batch_norm_conv X eps HX Wg Hg Wb Hb)
    as (out4 & sd4 & E4 & W4 & S4 & _ & _ & _ & G4).
  exists X2, out2, out4.
  split; [apply (reshape_val_ok _ _ HsX)|].
  split; [unfold bn_result; now rewrite E2|].
  split; [unfold bn_result; now rewrite E4|].
  assert (Hcol : forall j, j < C -> column X2 N j = channel X N 1 1 j).
  { intros j Hj. rewrite channel_degenerate. unfold column.
    apply map_ext_in. intros i Hi. apply in_seq in Hi. apply GX2; lia. }
  assert (Hmean : forall j, j < C -> col_mean_in X2 N j = chan_mean_in X N 1 1 j).
  { intros j Hj. unfold col_mean_in, chan_mean_in.
    rewrite (Hcol j Hj), !Nat.mul_1_r. reflexivity. }
  assert (Hvar : forall j, j < C -> col_var_in X2 N j = chan_var_in X N 1 1 j).
  { intros j Hj. unfold col_var_in, chan_var_in.
    rewrite (Hcol j Hj), (Hmean j Hj), !Nat.mul_1_r. reflexivity. }
  assert (Hs2 : size_of [N; C; 1; 1] <= length (data out2)).
  { rewrite W2, S2. cbn. lia. }
  rewrite (reshape_val_ok _ _ Hs2). f_equal.
  apply array_ext; [apply (wf_reshaped _ _ Hs2) | exact W4 | now rewrite S4 |].
  simpl shape. intros idx Hv.
  destruct (valid_index_degenerate _ _ _ Hv) as (n & c & -> & Hn & Hc).
  rewrite (@get_reshaped _ _ out2 [N; C; 1; 1] [n; c; 0; 0] [n; c])
    by (try exact Hv; rewrite S2; cbn; lia).
  rewrite (G2 n c Hn Hc), (G4 n c 0 0 Hn Hc) by lia.
  now rewrite (GX2 n c Hn Hc), (Hmean c Hc), (Hvar c Hc).
Qed.

End Degenerate.

(** ** The divisor of the normalization *)

Section Divisor.

Import Formula.
Open Scope R_scope.

Lemma valid_index_vector (C : nat) (idx : list nat) :
  valid_index [C] idx -> exists j, idx = [j] /\ (j < C)%nat.
Proof.
  destruct idx as [|j [|? ?]]; simpl; try tauto.
  intros [Hj _]. eauto.
Qed.

Lemma valid_index_chan (C : nat) (idx : list nat) :
  valid_index [1; C; 1; 1]%nat idx -> exists c, idx = [0; c; 0; 0]%nat /\ (c < C)%nat.
Proof.
  destruct idx as [|n [|c [|h [|w [|? ?]]]]]; simpl; try tauto.
  intros (Hn & Hc & Hh & Hw & _). exists c.
  replace n with 0%nat by lia. replace h with 0%nat by lia.
  replace w with 0%nat by lia. auto.
Qed.

(** C4, in exact arithmetic.  For an input of rank 2 or 4 that has
    elements and [eps > 0] (the default [eps = 1e-5] is such a value), the
    array that [pure_batch_norm] divides by, [sqrt(variance + eps)], has
    one element per feature or channel and each is strictly positive: the
    variance is a mean of squares, hence not negative.  The normalization
    never divides by zero, whatever the data, constant features included
    (and whatever [gamma] and [beta]).  In float32 an [eps > 0] too small
    for the format is rounded to 0, and the divisor of a constant feature
    is then 0. *)
Theorem divisor_positive (X gamma beta : NDArray R) (eps : R) :
  wf X -> length (shape X) = 2%nat \/ length (shape X) = 4%nat ->
  (0 < size_of (shape X))%nat ->
  0 < eps ->
  0 < s_eps /\
  exists sd,
    bn_divisors X gamma beta eps = [sd] /\
    length (data sd) = nth 1 (shape X) 0%nat /\
    Forall (fun x => 0 < x) (data sd) /\
    (forall N C j, shape X = [N; C] -> (j < C)%nat ->
       get sd [j] = sqrt (col_var X N j + eps)) /\
    (forall N C H W c, shape X = [N; C; H; W] -> (c < C)%nat ->
       get sd [0; c; 0; 0]%nat = sqrt (chan_var X N H W c + eps)).
Proof.
  intros _ Hr _ He. split; [cbn; lra|].
  destruct (shape X) as [|N [|C [|H [|W [|? ?]]]]] eqn:HX; simpl in Hr;
    try (exfalso; lia).
  - destruct (divisors_dense X gamma beta eps HX) as (sd & E & Wsd & Ssd & Gsd).
    exists sd. split; [exact E|].
    split; [rewrite Wsd, Ssd; cbn; lia|]. split; [|split].
    + rewrite (data_as_table Wsd), Ssd. apply Forall_map, Forall_forall.
      intros idx Hin. apply in_indices_valid, valid_index_vector in Hin.
      destruct Hin as (j & -> & Hj). rewrite (Gsd j Hj).
      now apply divisor_in_pos.
    + intros N' C' j [= <- <-] Hj. rewrite (Gsd j Hj).
      unfold divisor_in. now rewrite col_var_in_R.
    + intros N' C' H W c [=].
  - destruct (divisors_conv X gamma beta eps HX) as (sd & E & Wsd & Ssd & Gsd).
    exists sd. split; [exact E|].
    split; [rewrite Wsd, Ssd; cbn; lia|]. split; [|split].
    + rewrite (data_as_table Wsd), Ssd. apply Forall_map, Forall_forall.
      intros idx Hin. apply in_indices_valid, valid_index_chan in Hin.
      destruct Hin as (c & -> & Hc). rewrite (Gsd c Hc).
      now apply divisor_in_pos.
    + intros N' C' j [=].
    + intros N' C' H' W' c [= <- <- <- <-] Hc. rewrite (Gsd c Hc).
      unfold divisor_in. now rewrite chan_var_in_R.
Qed.

End Divisor.

(** ** Running on a heap: what a call reads, writes and returns *)

Section Frame.

Context {T : Type} {ST : Scalar T}.

Lemma extends_refl (h : @heap T) : extends h h.
Proof. exists []. now rewrite app_nil_r. Qed.

Lemma extends_trans (h1 h2 h3 : @heap T) :
  extends h1 h2 -> extends h2 h3 -> extends h1 h3.
Proof. intros [n1 ->] [n2 ->]. exists (n1 ++ n2). now rewrite app_assoc. Qed.

(** A reference keeps its value when the heap grows. *)
Lemma load_extends (h h' : heap) (r : NDRef) (a : NDArray T) :
  extends h h' -> load h r = Some a -> load h' r = Some a.
Proof.
  intros [new ->]. unfold load.
  destruct (nth_error h (ref_buf r)) as [b|] eqn:E; [|discriminate].
  rewrite nth_error_app1 by (apply nth_error_Some; congruence).
  now rewrite E.
Qed.

Lemma load_shape (h : heap) (r : NDRef) (a : NDArray T) :
  load h r = Some a -> shape a = ref_shape r.
Proof.
  unfold load. destruct (nth_error h (ref_buf r)); [|discriminate].
  now intros [= <-].
Qed.

Lemma load_alloc (h : heap) (v : NDArray T) :
  wf v -> load (h ++ [data v]) (mkRef (length h) (shape v)) = Some v.
Proof.
  intros Hwf. unfold load; simpl.
  rewrite nth_error_app2, Nat.sub_diag by lia. simpl.
  rewrite firstn_all2 by (rewrite Hwf; lia). now destruct v.
Qed.

Lemma runs_as_bind (c : mach NDRef) (k : NDRef -> mach NDRef)
  (dc : @den T (NDArray T)) (dk : NDArray T -> @den T (NDArray T)) (h : heap) :
  runs_as c h (fst dc) ->
  (forall ref a h',
     fst dc = Ok a -> wf a -> extends h h' -> load h' ref = Some a ->
     runs_as (k ref) h' (fst (dk a))) ->
  runs_as (mach_bind c k) h (fst (den_bind dc dk)).
Proof.
  intros [Hext Hc] Hk. unfold runs_as, mach_bind, den_bind.
  destruct (fst dc) as [a|e] eqn:E.
  - destruct Hc as (ref & Ef & Hl & Hwf). rewrite Ef.
    destruct (Hk ref a (snd (c h)) eq_refl Hwf Hext Hl) as [Hext' Hr].
    split; [eapply extends_trans; eassumption | exact Hr].
  - rewrite Hc. split; [exact Hext | reflexivity].
Qed.

Lemma runs_as_op1 (f : NDArray T -> result (NDArray T)) (r : NDRef)
  (a : NDArray T) (h : heap) (rv : result (NDArray T)) :
  load h r = Some a -> rv = f a -> (forall v, f a = Ok v -> wf v) ->
  runs_as (mach_op1 f r) h rv.
Proof.
  intros Hl -> Hwf. unfold runs_as, mach_op1. rewrite Hl.
  destruct (f a) as [v|e] eqn:E; simpl.
  - split; [now exists [data v]|]. eexists. split; [reflexivity|].
    split; [apply load_alloc|]; auto.
  - split; [apply extends_refl | reflexivity].
Qed.

Lemma runs_as_op2 (f : NDArray T -> NDArray T -> result (NDArray T))
  (r1 r2 : NDRef) (a b : NDArray T) (h : heap) (rv : result (NDArray T)) :
  load h r1 = Some a -> load h r2 = Some b -> rv = f a b ->
  (forall v, f a b = Ok v -> wf v) ->
  runs_as (mach_op2 f r1 r2) h rv.
Proof.
  intros Hl1 Hl2 -> Hwf. unfold runs_as, mach_op2. rewrite Hl1, Hl2.
  destruct (f a b) as [v|e] eqn:E; simpl.
  - split; [now exists [data v]|]. eexists. split; [reflexivity|].
    split; [apply load_alloc|]; auto.
  - split; [apply extends_refl | reflexivity].
Qed.

Lemma runs_as_reshape (r : NDRef) (s : list nat) (a : NDArray T) (h : heap)
  (rv : result (NDArray T)) :
  load h r = Some a -> rv = reshape_val a s ->
  runs_as (mach_reshape r s) h rv.
Proof.
  intros Hl ->. unfold runs_as, mach_reshape, reshape_val. rewrite Hl.
  destruct (Nat.leb_spec (size_of s) (length (data a))) as [Hle|Hgt]; simpl.
  - split; [apply extends_refl|]. eexists. split; [reflexivity|].
    split; [|now apply wf_reshaped].
    unfold load in *. simpl.
    destruct (nth_error h (ref_buf r)) as [b|]; [|discriminate].
    injection Hl as <-. simpl in Hle. rewrite length_firstn in Hle.
    cbn [data]. rewrite firstn_firstn. do 3 f_equal. lia.
  - split; [apply extends_refl | reflexivity].
Qed.

Lemma runs_as_ret (r : NDRef) (a : NDArray T) (h : heap) :
  load h r = Some a -> wf a -> runs_as (mach_ret r) h (Ok a).
Proof.
  intros Hl Hwf. split; [apply extends_refl|]. exists r. auto.
Qed.

Lemma runs_as_raise (e : error) (h : heap) :
  runs_as (@mach_raise T NDRef e) h (Err e).
Proof. split; [apply extends_refl | reflexivity]. Qed.

Lemma wf_mean_val (a v : NDArray T) (axis : list nat) :
  mean_val a axis = Ok v -> wf v.
Proof.
  unfold mean_val. destruct (forallb _ axis); [|discriminate].
  intros [= <-]. apply wf_tabulate.
Qed.

Lemma wf_broadcast_val (op : T -> T -> T) (a b v : NDArray T) :
  broadcast_val op a b = Ok v -> wf v.
Proof.
  unfold broadcast_val. destruct (broadcast_shape _ _); [|discriminate].
  intros [= <-]. apply wf_tabulate.
Qed.

Lemma wf_map_ok (f : T -> T) (a v : NDArray T) :
  wf a -> Ok (map_val f a) = Ok v -> wf v.
Proof. intros Hwf [= <-]. now apply wf_map_val. Qed.

Lemma fst_den_div (a b : NDArray T) :
  fst (den_div a b) = broadcast_val s_div a b.
Proof. unfold den_div. now destruct (broadcast_val s_div a b). Qed.

Lemma runs_as_div (r1 r2 : NDRef) (a b : NDArray T) (h : heap) :
  load h r1 = Some a -> load h r2 = Some b ->
  runs_as (mach_op2 (broadcast_val s_div) r1 r2) h (fst (den_div a b)).
Proof.
  intros H1 H2.
  eapply runs_as_op2; eauto using fst_den_div, wf_broadcast_val.
Qed.

(** One statement of the program: run the operation, then go on in the
    grown heap, where every earlier reference still has its value. *)
Ltac lift_loads Hext :=
  match type of Hext with
  | extends ?h0 _ =>
      repeat match goal with
             | Hl : load h0 _ = Some _ |- _ =>
                 eapply load_extends in Hl; [|exact Hext]
             end
  end.

Ltac solve_wf :=
  intros ? ?;
  first [ eapply wf_mean_val; eassumption
        | eapply wf_broadcast_val; eassumption
        | eapply wf_map_ok; [|eassumption]; assumption ].

Ltac run_operation :=
  first [ eapply runs_as_div; eassumption
        | eapply runs_as_op1; [eassumption | reflexivity | solve_wf]
        | eapply runs_as_op2; [eassumption | eassumption | reflexivity | solve_wf]
        | eapply runs_as_reshape; [eassumption | reflexivity] ].

Ltac run_statement :=
  apply runs_as_bind;
  [ run_operation
  | let ref := fresh "ref" in
    let a := fresh "a" in
    let h' := fresh "h" in
    let E := fresh "E" in
    let W := fresh "W" in
    let Hext := fresh "Hext" in
    let L := fresh "L" in
    intros ref a h' E W Hext L; lift_loads Hext ].

(** The heap run of [pure_batch_norm] behaves as its value says. *)
Lemma pure_batch_norm_runs_as (h : heap) (rX rg rb : NDRef)
  (X gamma beta : NDArray T) (eps : T) :
  load h rX = Some X -> load h rg = Some gamma -> load h rb = Some beta ->
  runs_as (pure_batch_norm (M := mach) rX rg rb eps) h
          (bn_result X gamma beta eps).
Proof.
  intros LX Lg Lb. unfold bn_result, pure_batch_norm.
  cbn [nd_shape nd_mean nd_sub nd_add nd_mul nd_div nd_pow_scalar
       nd_mul_scalar nd_add_scalar nd_sqrt nd_reshape ret bind raise
       Den Machine].
  rewrite <- (load_shape _ _ LX).
  destruct (negb (existsb (Nat.eqb (length (shape X))) [2; 4]));
    [apply runs_as_raise|].
  destruct (length (shape X) =? 2).
  { repeat run_statement. now apply runs_as_ret. }
  destruct (length (shape X) =? 4); [|apply runs_as_raise].
  destruct (shape X) as [|N [|C [|H [|W [|? ?]]]]]; try apply runs_as_raise.
  repeat run_statement. now apply runs_as_ret.
Qed.

Lemma outcome_runs_as (c : mach NDRef) (h : heap) (r : result (NDArray T)) :
  runs_as c h r -> outcome (c h) = r.
Proof.
  intros [_ Hr]. unfold outcome. destruct r as [a|e].
  - destruct Hr as (ref & -> & -> & _). reflexivity.
  - now rewrite Hr.
Qed.

(** C6. [pure_batch_norm] is a stateless transform.  Run on a heap in
    which [rX], [rg] and [rb] refer to the arrays [X], [gamma] and [beta]:
    every buffer of the heap is left as it was (the call only adds
    buffers), so the three arguments still hold the same values after the
    call, also when it raises; and what the call returns is a function of
    the values [X], [gamma], [beta] and [eps] alone, not of the heap or of
    where the arguments live: any other call with equal argument values,
    in the heap left by this call or in any other, returns the same. *)
Theorem stateless (h : heap) (rX rg rb : NDRef) (X gamma beta : NDArray T)
  (eps : T) :
  load h rX = Some X -> load h rg = Some gamma -> load h rb = Some beta ->
  let run := pure_batch_norm (M := mach) rX rg rb eps h in
  extends h (snd run) /\
  load (snd run) rX = Some X /\
  load (snd run) rg = Some gamma /\
  load (snd run) rb = Some beta /\
  outcome run = bn_result X gamma beta eps /\
  forall h' rX' rg' rb',
    load h' rX' = Some X -> load h' rg' = Some gamma ->
    load h' rb' = Some beta ->
    outcome (pure_batch_norm (M := mach) rX' rg' rb' eps h') = outcome run.
Proof.
  intros LX Lg Lb run.
  pose proof (@pure_batch_norm_runs_as h rX rg rb X gamma beta eps LX Lg Lb)
    as Hrun.
  pose proof Hrun as [Hext _]. fold run in Hext.
  split; [exact Hext|].
  split; [eapply load_extends; eassumption|].
  split; [eapply load_extends; eassumption|].
  split; [eapply load_extends; eassumption|].
  split; [exact (outcome_runs_as Hrun)|].
  intros h' rX' rg' rb' LX' Lg' Lb'.
  rewrite (outcome_runs_as
             (@pure_batch_norm_runs_as h' rX' rg' rb' X gamma beta eps LX' Lg' Lb')).
  symmetry. exact (outcome_runs_as Hrun).
Qed.

End Frame.

(** ** Standardization and the constant feature, in exact arithmetic *)

Section Standardization.

Import Formula.
Open Scope R_scope.

Lemma get_full (s idx : list nat) (c : R) :
  valid_index s idx -> get (full s c) idx = c.
Proof.
  intros Hv. unfold get, full; simpl.
  apply nth_repeat_lt. now apply ravel_lt.
Qed.

Lemma mean_of_affine (N : nat) (f g : nat -> R) (a b : R) :
  (0 < N)%nat -> (forall i, (i < N)%nat -> g i = a * f i + b) ->
  mean_of N g = a * mean_of N f + b.
Proof.
  intros HN E. unfold mean_of.
  rewrite (@Rsum_ext_in _ g (fun i => a * f i + b))
    by (intros i Hi; apply in_seq in Hi; apply E; lia).
  rewrite Rsum_affine, length_seq. field.
  apply not_0_INR. lia.
Qed.

Lemma col_var_nonneg (X : NDArray R) (N j : nat) : 0 <= col_var X N j.
Proof. rewrite <- col_var_in_R. apply mean_squares_nonneg. Qed.

(** C5. [pure_batch_norm] standardizes within the mini-batch and then
    rescales: on a 2-D input, with [X_hat] the normalized values (the result
    for a scale of ones and a shift of zeros), the output is
    [gamma * X_hat + beta]; in each feature [X_hat] has mean exactly 0 over
    the batch dimension, so the output has mean [beta[j]]; and with
    [eps = 0] and a variance that is not zero, [X_hat] has variance exactly
    1.  (The condition on [eps] is that the divisor is not zero.) *)
Theorem standardization (X gamma beta : NDArray R) (eps : R) (N C : nat) :
  wf X -> shape X = [N; C] ->
  wf gamma -> shape gamma = [C] ->
  wf beta -> shape beta = [C] ->
  (0 < N)%nat ->
  exists X_hat out,
    bn_result X (full [C] 1) (full [C] 0) eps = Ok X_hat /\
    bn_result X gamma beta eps = Ok out /\
    (forall i j, (i < N)%nat -> (j < C)%nat ->
       get out [i; j] = get gamma [j] * get X_hat [i; j] + get beta [j]) /\
    (forall j, (j < C)%nat ->
       0 < eps \/ (eps = 0 /\ col_var X N j <> 0) ->
       col_mean X_hat N j = 0 /\
       col_mean out N j = get beta [j] /\
       (eps = 0 -> col_var X_hat N j = 1)).
Proof.
  intros WX HX Wg Hg Wb Hb HN.
  destruct (@dense_exact X (full [C] 1) (full [C] 0) eps N C)
    as (X_hat & Eh & Gh); auto.
  destruct (@dense_exact X gamma beta eps N C)
    as (out & Eo & Go); auto.
  exists X_hat, out. split; [exact Eh|]. split; [exact Eo|].
  assert (Gh' : forall i j, (i < N)%nat -> (j < C)%nat ->
            get X_hat [i; j]
            = / sqrt (col_var X N j + eps) * get X [i; j]
              + - (col_mean X N j / sqrt (col_var X N j + eps))).
  { intros i j Hi Hj. rewrite (Gh i j Hi Hj).
    rewrite !get_full by (simpl; auto). unfold Rdiv. ring. }
  split.
  { intros i j Hi Hj. rewrite (Go i j Hi Hj), (Gh' i j Hi Hj).
    unfold Rdiv. ring. }
  intros j Hj Heps.
  set (m := col_mean X N j) in *. set (v := col_var X N j) in *.
  set (d := sqrt (v + eps)) in *.
  assert (Hmean : col_mean X_hat N j = 0).
  { unfold col_mean at 1.
    rewrite (@mean_of_affine N (fun i => get X [i; j]) _ (/ d) (- (m / d)) HN)
      by (intros i Hi; apply Gh'; assumption).
    fold (col_mean X N j). fold m. unfold Rdiv. ring. }
  split; [exact Hmean|]. split.
  - unfold col_mean at 1.
    rewrite (@mean_of_affine N (fun i => get X [i; j]) _
               (get gamma [j] * / d) (get beta [j] - get gamma [j] * m * / d) HN).
    + fold (col_mean X N j). fold m. ring.
    + intros i Hi. rewrite (Go i j Hi Hj). unfold d, v, m, Rdiv. ring.
  - intros E0. destruct Heps as [Hpos | [_ Hv]]; [lra|].
    assert (Hv0 : 0 <= v) by apply col_var_nonneg.
    assert (Hdd : d * d = v).
    { unfold d. rewrite E0, Rplus_0_r. now apply sqrt_sqrt. }
    assert (Hd : d <> 0) by (intros Z; rewrite Z in Hdd; lra).
    unfold col_var at 1. rewrite Hmean.
    rewrite (@mean_of_affine N (fun i => (get X [i; j] - m) ^ 2) _
               (/ d * / d) 0 HN).
    + change (mean_of N (fun i => (get X [i; j] - m) ^ 2)) with v.
      rewrite <- Hdd. field. exact Hd.
    + intros i Hi. rewrite (Gh' i j Hi Hj). unfold d, v, m, Rdiv. ring.
Qed.

Lemma length_channel (X : NDArray R) (N H W c : nat) :
  length (channel X N H W c) = (N * H * W)%nat.
Proof.
  unfold channel.
  rewrite flat_map_constant_length with (c := (H * W)%nat).
  - rewrite length_seq. lia.
  - intros n _. rewrite flat_map_constant_length with (c := W).
    + now rewrite length_seq.
    + intros h _. now rewrite length_map, length_seq.
Qed.

Lemma Forall_channel (P : R -> Prop) (X : NDArray R) (N H W c : nat) :
  (forall n h w, (n < N)%nat -> (h < H)%nat -> (w < W)%nat ->
     P (get X [n; c; h; w])) ->
  Forall P (channel X N H W c).
Proof.
  intros HP. unfold channel. apply Forall_flat_map, Forall_forall.
  intros n Hn. apply in_seq in Hn. apply Forall_flat_map, Forall_forall.
  intros h Hh. apply in_seq in Hh. apply Forall_map, Forall_forall.
  intros w Hw. apply in_seq in Hw. apply HP; lia.
Qed.

Lemma Rsum_zero (l : list R) : Forall (fun x => x = 0) l -> Rsum l = 0.
Proof. intros Hl. rewrite (Rsum_constant Hl). ring. Qed.

(** Mean and variance of a constant column, and of a constant channel. *)
Lemma col_mean_constant (X : NDArray R) (N j : nat) (k : R) :
  (0 < N)%nat -> (forall i, (i < N)%nat -> get X [i; j] = k) ->
  col_mean X N j = k.
Proof.
  intros HN Hk. unfold col_mean.
  rewrite (@mean_of_affine N (fun _ => 0) _ 0 k HN)
    by (intros i Hi; rewrite (Hk i Hi); ring).
  ring.
Qed.

Lemma col_var_constant (X : NDArray R) (N j : nat) (k : R) :
  (forall i, (i < N)%nat -> get X [i; j] = k) -> col_var X N j = 0.
Proof.
  intros Hk. destruct N as [|n].
  - unfold col_var, mean_of. cbn [seq map]. unfold Rsum, Rdiv. simpl. ring.
  - assert (HN : (0 < S n)%nat) by lia.
    unfold col_var.
    rewrite (@mean_of_affine (S n) (fun _ => 0) _ 0 0 HN).
    + ring.
    + intros i Hi. rewrite (Hk i Hi), (col_mean_constant _ _ HN Hk). ring.
Qed.

Lemma chan_mean_constant (X : NDArray R) (N H W c : nat) (k : R) :
  (0 < N * H * W)%nat ->
  (forall n h w, (n < N)%nat -> (h < H)%nat -> (w < W)%nat ->
     get X [n; c; h; w] = k) ->
  chan_mean X N H W c = k.
Proof.
  intros Hpos Hk. rewrite <- chan_mean_in_R. unfold chan_mean_in.
  rewrite <- (length_channel X N H W c).
  apply mean_in_constant.
  - intros E. apply (f_equal (@length R)) in E.
    rewrite length_channel in E. simpl in E. lia.
  - now apply Forall_channel.
Qed.

Lemma chan_var_constant (X : NDArray R) (N H W c : nat) (k : R) :
  (forall n h w, (n < N)%nat -> (h < H)%nat -> (w < W)%nat ->
     get X [n; c; h; w] = k) ->
  chan_var X N H W c = 0.
Proof.
  intros Hk. rewrite <- chan_var_in_R. unfold chan_var_in, mean_in.
  cbn [s_div s_of_nat Scalar_R].
  change (nd_sum (map (sq_dev (chan_mean_in X N H W c)) (channel X N H W c)))
    with (Rsum (map (sq_dev (chan_mean_in X N H W c)) (channel X N H W c))).
  rewrite Rsum_zero; [unfold Rdiv; ring|].
  apply Forall_map, Forall_channel. intros n h w Hn Hh Hw.
  assert (Hpos : (0 < N * H * W)%nat) by (repeat apply Nat.mul_pos_pos; lia).
  rewrite chan_mean_in_R, (chan_mean_constant _ _ Hpos Hk), (Hk n h w Hn Hh Hw).
  unfold sq_dev. cbn [s_pow s_sub Scalar_R]. ring.
Qed.

(** C10, in exact arithmetic.  If every value of feature [j] of a 2-D
    input, or of channel [c] of a 4-D input, is the same constant [k], then
    at the positions of that feature or channel [pure_batch_norm] returns
    exactly [beta[j]] (respectively [beta[c]]), whatever [gamma] and [k]
    are: the variance is zero, the centered numerator is zero and the
    divisor [sqrt(0 + eps)] is positive. *)
Theorem constant_feature_exact (eps k : R) :
  0 < eps ->
  (forall (X gamma beta : NDArray R) (N C j : nat),
     wf X -> shape X = [N; C] ->
     wf gamma -> shape gamma = [C] -> wf beta -> shape beta = [C] ->
     (j < C)%nat ->
     (forall i, (i < N)%nat -> get X [i; j] = k) ->
     exists out, bn_result X gamma beta eps = Ok out /\
       col_var X N j = 0 /\ 0 < sqrt (0 + eps) /\
       forall i, (i < N)%nat -> get out [i; j] = get beta [j]) /\
  (forall (X gamma beta : NDArray R) (N C H W c : nat),
     wf X -> shape X = [N; C; H; W] ->
     wf gamma -> shape gamma = [C] -> wf beta -> shape beta = [C] ->
     (c < C)%nat ->
     (forall n h w, (n < N)%nat -> (h < H)%nat -> (w < W)%nat ->
        get X [n; c; h; w] = k) ->
     exists out, bn_result X gamma beta eps = Ok out /\
       chan_var X N H W c = 0 /\ 0 < sqrt (0 + eps) /\
       forall n h w, (n < N)%nat -> (h < H)%nat -> (w < W)%nat ->
         get out [n; c; h; w] = get beta [c]).
Proof.
  intros He.
  assert (Hd : 0 < sqrt (0 + eps)) by (apply sqrt_lt_R0; lra).
  split.
  - intros X gamma beta N C j WX HX Wg Hg Wb Hb Hj Hk.
    destruct (@dense_exact X gamma beta eps N C)
      as (out & Eo & Go); auto.
    exists out. split; [exact Eo|].
    split; [exact (@col_var_constant X N j k Hk)|]. split; [exact Hd|].
    intros i Hi. rewrite (Go i j Hi Hj), (Hk i Hi).
    rewrite (@col_mean_constant X N j k) by (auto; lia). ring.
  - intros X gamma beta N C H W c WX HX Wg Hg Wb Hb Hc Hk.
    destruct (@conv_exact X gamma beta eps N C H W)
      as (out & Eo & Go); auto.
    exists out. split; [exact Eo|].
    split; [exact (@chan_var_constant X N H W c k Hk)|]. split; [exact Hd|].
    intros n h w Hn Hh Hw. rewrite (Go n c h w Hn Hc Hh Hw), (Hk n h w Hn Hh Hw).
    rewrite (@chan_mean_constant X N H W c k); [ring| |exact Hk].
    repeat apply Nat.mul_pos_pos; lia.
Qed.

End Standardization.

(** ** The training loop: the order of the framework calls *)

Module TrainingOrder.

Import Training.

Section Order.

Variables tensor labels loss_t params num : Type.
Variable view : tensor -> tensor.
Variable zero_grad : params -> params.
Variable forward : params -> tensor -> tensor.
Variable criterion : tensor -> labels -> loss_t.
Variable backward : loss_t -> params -> params.
Variable step : params -> params.
Variable item : loss_t -> num.
Variable num_zero : num.
Variable num_add : num -> num -> num.
Variable num_div : num -> nat -> num.
Variable trainloader : nat -> list (tensor * labels).

Local Abbreviation training_pass :=
  (training_pass view zero_grad forward criterion backward step item num_add).
Local Abbreviation epoch :=
  (epoch view zero_grad forward criterion backward step item num_zero num_add
     num_div trainloader).
Local Abbreviation train :=
  (train view zero_grad forward criterion backward step item num_zero num_add
     num_div trainloader).
Local Abbreviation state := (state params num).

Lemma calls_training_pass (e : nat) (kb : nat * (tensor * labels)) (st : state) :
  calls (snd (training_pass e kb st)) = calls st ++ pass_calls e (fst kb).
Proof.
  unfold Training.training_pass, sbind, pass_calls; simpl.
  repeat rewrite <- app_assoc. reflexivity.
Qed.

Lemma calls_inner_loop (e a : nat) (bs : list (tensor * labels)) (st : state) :
  calls (snd (for_each (combine (seq a (length bs)) bs) (training_pass e) st))
  = calls st ++ flat_map (pass_calls e) (seq a (length bs)).
Proof.
  revert a st. induction bs as [|b bs IH]; intros a st.
  - simpl. now rewrite app_nil_r.
  - cbn [length seq combine for_each flat_map]. unfold sbind at 1.
    rewrite IH, calls_training_pass. cbn [fst]. now rewrite app_assoc.
Qed.

Lemma calls_epoch (e : nat) (st : state) :
  calls (snd (epoch e st)) = calls st ++ epoch_calls trainloader e.
Proof.
  unfold Training.epoch, epoch_calls, enumerate, sbind.
  cbn [call_print get_running_loss snd fst log calls].
  rewrite calls_inner_loop. cbn [set_running_loss snd calls].
  now rewrite app_assoc.
Qed.

Lemma calls_outer_loop (a n : nat) (st : state) :
  calls (snd (for_each (seq a n) epoch st))
  = calls st ++ flat_map (epoch_calls trainloader) (seq a n).
Proof.
  revert a st. induction n as [|n IH]; intros a st.
  - simpl. now rewrite app_nil_r.
  - cbn [seq for_each flat_map]. unfold sbind at 1.
    rewrite IH, calls_epoch. now rewrite app_assoc.
Qed.

(** Where an element of a concatenation lies. *)
Lemma app_split_at (X : Type) (t1 t2 pre suf : list X) (x : X) :
  t1 ++ t2 = pre ++ x :: suf ->
  (exists s', t1 = pre ++ x :: s' /\ suf = s' ++ t2) \/
  (exists p', pre = t1 ++ p' /\ t2 = p' ++ x :: suf).
Proof.
  revert pre. induction t1 as [|a t1 IH]; intros pre E.
  - right. exists pre. auto.
  - destruct pre as [|b pre]; simpl in E; injection E as -> E.
    + left. exists t1. auto.
    + destruct (IH pre E) as [(s' & -> & ->) | (p' & -> & ->)].
      * left. exists s'. auto.
      * right. exists p'. auto.
Qed.

Lemma step_after_backward_app (t1 t2 : list call) :
  step_after_backward t1 -> step_after_backward t2 ->
  step_after_backward (t1 ++ t2).
Proof.
  intros H1 H2 pre suf e k E.
  apply app_split_at in E. destruct E as [(s' & E1 & _) | (p' & -> & E2)].
  - exact (H1 _ _ _ _ E1).
  - destruct (H2 _ _ _ _ E2) as (pre' & ->).
    exists (t1 ++ pre'). now rewrite app_assoc.
Qed.

Lemma step_after_backward_flat_map (X : Type) (f : X -> list call) (l : list X) :
  (forall x, step_after_backward (f x)) -> step_after_backward (flat_map f l).
Proof.
  intros Hf. induction l as [|x l IH]; cbn [flat_map].
  - intros [|? ?] suf e k E; discriminate.
  - now apply step_after_backward_app.
Qed.

Lemma step_after_backward_pass (e k : nat) : step_after_backward (pass_calls e k).
Proof.
  intros pre suf e' k' E. unfold pass_calls in E.
  destruct pre as [|c0 [|c1 [|c2 [|c3 [|c4 [|c5 [|c6 [|c7 pre]]]]]]]];
    simpl in E; try discriminate.
  inversion E; subst. now exists [View e' k'; ZeroGrad e' k'].
Qed.

Lemma step_after_backward_epoch (e : nat) :
  step_after_backward (epoch_calls trainloader e).
Proof.
  unfold epoch_calls. apply step_after_backward_app.
  - apply step_after_backward_flat_map. apply step_after_backward_pass.
  - intros [|? [|? ?]] suf e' k' E; discriminate.
Qed.

(** The cell as it is run: five epochs, from a state with no call yet. *)
Lemma calls_of_the_cell (st : state) :
  calls st = [] ->
  calls (snd (train epochs st)) = run_calls trainloader 5.
Proof. intros E. unfold train. now rewrite calls_outer_loop, E. Qed.

(** C7. The training script handles every batch of every epoch by the same
    calls in the same order: the forward pass through the model, then the
    loss from the output and the labels, then [loss.backward()], then the
    optimizer step; the calls of a run are those of its epochs one after
    the other, and the calls of an epoch those of its batches one after the
    other.  So the optimizer step of a batch never comes before the loss or
    the backward pass of that batch: each step comes right after them.
    The model after a pass is the step applied to the gradients of the loss
    of that batch's own output and labels. *)
Theorem training_order (n : nat) (st : state) :
  calls (snd (train n st)) = calls st ++ run_calls trainloader n /\
  (forall e k, pass_calls e k
     = [View e k; ZeroGrad e k; Forward e k; Loss e k; Backward e k;
        Step e k; Item e k]) /\
  step_after_backward (run_calls trainloader n) /\
  (forall e kb st',
     let w := zero_grad (model st') in
     let output := forward w (view (fst (snd kb))) in
     let loss := criterion output (snd (snd kb)) in
     model (snd (training_pass e kb st')) = step (backward loss w)).
Proof.
  split; [apply calls_outer_loop|]. split; [reflexivity|]. split.
  - unfold run_calls. apply step_after_backward_flat_map.
    apply step_after_backward_epoch.
  - intros e kb st'. reflexivity.
Qed.

End Order.

End TrainingOrder.


(** ** Single precision: the cells of the notebook *)

Module Float32.

Import F32.

Open Scope Z_scope.

(** Cell 5: [pure_batch_norm(X=A, gamma=[1, 1], beta=[0, 0])] prints
    [[-1.2247427 -1.3887286] [0. 0.46290955] [1.2247427 0.9258191]]. *)
Example cell_5 :
  bn_result_default A ones2 zeros2
  = Ok (mkND [3; 2]%nat
          [decimal (-12247427) 10000000; decimal (-13887286) 10000000;
           decimal 0 1;                  decimal 46290955 100000000;
           decimal 12247427 10000000;    decimal 9258191 10000000]).
Proof. vm_compute. reflexivity. Qed.

(** Cell 9: [pure_batch_norm(X=B, gamma=[1, 1], beta=[0, 0])], an input of
    shape [(2, 2, 2, 2)]. *)
Example cell_9 :
  bn_result_default B ones2 zeros2
  = Ok (mkND [2; 2; 2; 2]%nat
          [decimal (-1637844) 1000000;    decimal 881916 1000000;
           decimal 377964 1000000;        decimal 1385868 1000000;
           decimal 30779248 100000000;    decimal (-51298743) 100000000;
           decimal (-13337674) 10000000;  decimal 11285723 10000000;
           decimal 881916 1000000;        decimal (-62994) 100000;
           decimal (-11338919) 10000000;  decimal (-12598799) 100000000;
           decimal 11285723 10000000;     decimal (-51298743) 100000000;
           decimal (-13337674) 10000000;  decimal 11285723 10000000]).
Proof. vm_compute. reflexivity. Qed.

(** The mean of three copies of the float 0.9 is not that float: the sum
    is rounded, and so is the quotient. *)
Example mean_of_constant_column :
  mean_val (constant_column (decimal 9 10)) [0%nat]
  = Ok (mkND [1%nat] [S754_finite false 15099493 (-24)])
  /\ decimal 9 10 = S754_finite false 15099494 (-24).
Proof. vm_compute. split; reflexivity. Qed.

End Float32.

(** ** The properties at concrete inputs *)

Module Witnesses.

Import Samples Formula.

Open Scope R_scope.

Lemma valid_X21 : valid_input X21 g1 b1.
Proof.
  unfold valid_input. repeat split; try reflexivity; [now left | cbn; lia].
Defined.

Lemma dense_formula_witness :
  exists out, bn_result X21 g1 b1 1 = Ok out /\ shape out = [2; 1]%nat.
Proof.
  destruct (@dense_formula X21 g1 b1 1 2 1) as (out & E & _ & S & _);
    try reflexivity; try lia.
  - intros j Hj. pose proof (col_var_nonneg X21 2 j). lra.
  - exists out. split; assumption.
Defined.

Lemma conv_formula_witness :
  exists out, bn_result X2111 g1 b1 1 = Ok out /\ shape out = [2; 1; 1; 1]%nat.
Proof.
  destruct (@conv_formula X2111 g1 b1 1 2 1 1 1) as (out & E & _ & S & _);
    try reflexivity; try lia.
  - intros c Hc. rewrite <- chan_var_in_R.
    pose proof (mean_squares_nonneg (channel X2111 2 1 1 c)
                  (chan_mean_in X2111 2 1 1 c) (2 * 1 * 1)) as Hv.
    unfold chan_var_in. lra.
  - exists out. split; assumption.
Defined.

Lemma rank_check_witness : exists out, bn_result X21 g1 b1 1 = Ok out.
Proof. exact (proj1 (proj2 (rank_check X21 g1 b1 1)) valid_X21). Defined.

Lemma divisor_positive_witness :
  exists sd, bn_divisors X21 g1 b1 s_eps = [sd] /\ Forall (fun x => 0 < x) (data sd).
Proof.
  destruct (@divisor_positive X21 g1 b1 s_eps) as (_ & sd & E & _ & P & _).
  - reflexivity.
  - left. reflexivity.
  - cbn. lia.
  - cbn. lra.
  - exists sd. split; assumption.
Defined.

Lemma col_var_X21 : col_var X21 2 0 = 1.
Proof.
  unfold col_var, col_mean, mean_of, Rsum, get, X21. cbn.
  field.
Qed.

Lemma standardization_witness :
  exists X_hat, bn_result X21 (full [1%nat] 1) (full [1%nat] 0) 0 = Ok X_hat /\
    col_mean X_hat 2 0 = 0 /\ col_var X_hat 2 0 = 1.
Proof.
  destruct (@standardization X21 g1 b1 0 2 1)
    as (X_hat & out & E & _ & _ & M); try reflexivity; try lia.
  exists X_hat. split; [exact E|].
  destruct (M 0%nat) as (Mh & _ & Vh); [lia | | auto].
  right. split; [reflexivity|]. rewrite col_var_X21. lra.
Defined.

Lemma constant_feature_exact_witness :
  exists out, bn_result K21 g1 b1 1 = Ok out /\
    forall i, (i < 2)%nat -> get out [i; 0%nat] = 5.
Proof.
  destruct (@constant_feature_exact 1 3) as [D _]; [lra|].
  destruct (D K21 g1 b1 2%nat 1%nat 0%nat) as (out & E & _ & _ & G);
    try reflexivity; try lia.
  - intros [|[|i]] Hi; try lia; reflexivity.
  - exists out. split; [exact E | exact G].
Defined.

Lemma degenerate_spatial_witness :
  exists X2 out2 out4,
    reshape_val X2111 [2; 1]%nat = Ok X2 /\
    bn_result X2 g1 b1 1 = Ok out2 /\
    bn_result X2111 g1 b1 1 = Ok out4 /\
    reshape_val out2 [2; 1; 1; 1]%nat = Ok out4.
Proof.
  apply (@degenerate_spatial R _ X2111 g1 b1 1 2 1); try reflexivity; lia.
Defined.

Lemma output_shape_witness :
  exists out, bn_result X21 g1 b1 1 = Ok out /\ shape out = shape X21.
Proof. exact (output_shape 1 valid_X21). Defined.

End Witnesses.

Module Float32Cases.

Import F32.

Lemma stateless_witness :
  outcome (pure_batch_norm (M := mach) refA ref_ones2 ref_zeros2 s_eps heapA)
  = bn_result_default A ones2 zeros2
  /\ load (snd (pure_batch_norm (M := mach) refA ref_ones2 ref_zeros2 s_eps heapA))
          refA = Some A.
Proof.
  pose proof (@stateless _ _ heapA refA ref_ones2 ref_zeros2 A ones2 zeros2 s_eps
                eq_refl eq_refl eq_refl) as S.
  cbv zeta in S. destruct S as (_ & LA & _ & _ & O & _).
  split; [exact O | exact LA].
Defined.

(** C3, as stated, fails: an input of rank 2 for which the call raises.
    [gamma] has three elements, [X] two features; the product
    [gamma * X_hat] is refused by the library. *)
Lemma unmatched_scale_raises :
  length (shape X12) = 2 /\ bn_result_default X12 ones3 zeros2 = Err MXNetError.
Proof. split; vm_compute; reflexivity. Qed.

(** C10, as stated, fails in the arithmetic of the notebook: the three
    samples of the feature are all the float 0.9, [gamma] is 1 and [beta]
    is 0, and the result is not [beta] but about 1.88e-5.  The mean of the
    three values is rounded to the float below 0.9, so the centered
    numerator is not zero. *)
Lemma constant_feature_float32 :
  (forall i, i < 3 -> get X09 [i; 0] = decimal 9 10) /\
  exists out,
    bn_result_default X09 one1 zero1 = Ok out /\
    get out [0; 0] = S754_finite false 10362152 (-39) /\
    get out [0; 0] <> get zero1 [0].
Proof.
  split.
  - intros [|[|[|i]]] Hi; try lia; reflexivity.
  - eexists. split; [vm_compute; reflexivity|].
    split; [vm_compute; reflexivity | vm_compute; discriminate].
Qed.

(** The float32 result on a constant feature is a positive number. *)
Lemma to_R_residue : (0 < to_R (S754_finite false 10362152 (-39)))%R.
Proof.
  unfold to_R. apply Rmult_lt_0_compat.
  - now apply IZR_lt.
  - apply powerRZ_lt. lra.
Qed.

(** On the float32 input of three samples 0.9 of one feature, with scale 1,
    shift 0 and the default [eps], the entry [(0, 0)] of the result is not
    the number that the formula of C1 gives for these values (which is 0,
    the three values being equal). *)
Lemma dense_formula_float32 :
  exists out,
    bn_result_default X09 one1 zero1 = Ok out /\
    to_R (get out [0; 0]%nat)
    <> (get (reals one1) [0]%nat
        * (get (reals X09) [0; 0]%nat - Formula.col_mean (reals X09) 3 0)
        / sqrt (Formula.col_var (reals X09) 3 0 + s_eps)
        + get (reals zero1) [0]%nat)%R.
Proof.
  eexists. split; [vm_compute; reflexivity|].
  rewrite (@col_mean_constant (reals X09) 3 0 (to_R (decimal 9 10)))
    by (try lia; intros [|[|[|i]]] Hi; try lia; reflexivity).
  change (get (mkND [3; 1]%nat _) [0; 0]%nat)
    with (S754_finite false 10362152 (-39)).
  change (get (reals X09) [0; 0]%nat) with (to_R (decimal 9 10)).
  change (get (reals zero1) [0]%nat) with 0%R.
  pose proof to_R_residue as P.
  intros E. rewrite E in P. unfold Rdiv in P.
  rewrite Rminus_diag, Rmult_0_r, Rmult_0_l, Rplus_0_r in P. lra.
Qed.

(** The same for the formula of C2, on the same three samples as one
    channel with one spatial position. *)
Lemma conv_formula_float32 :
  exists out,
    bn_result_default X09_conv one1 zero1 = Ok out /\
    to_R (get out [0; 0; 0; 0]%nat)
    <> (get (reals one1) [0]%nat
        * (get (reals X09_conv) [0; 0; 0; 0]%nat
           - Formula.chan_mean (reals X09_conv) 3 1 1 0)
        / sqrt (Formula.chan_var (reals X09_conv) 3 1 1 0 + s_eps)
        + get (reals zero1) [0]%nat)%R.
Proof.
  eexists. split; [vm_compute; reflexivity|].
  rewrite (@chan_mean_constant (reals X09_conv) 3 1 1 0 (to_R (decimal 9 10)))
    by (try (cbn; lia);
        intros [|[|[|n]]] [|h] [|w] Hn Hh Hw; try lia; reflexivity).
  change (get (mkND [3; 1; 1; 1]%nat _) [0; 0; 0; 0]%nat)
    with (S754_finite false 10362152 (-39)).
  change (get (reals X09_conv) [0; 0; 0; 0]%nat) with (to_R (decimal 9 10)).
  change (get (reals zero1) [0]%nat) with 0%R.
  pose proof to_R_residue as P.
  intros E. rewrite E in P. unfold Rdiv in P.
  rewrite Rminus_diag, Rmult_0_r, Rmult_0_l, Rplus_0_r in P. lra.
Qed.

(** [eps = 1e-50] is positive, and as a float32 it is 0: on three samples
    1 of one feature the divisor is then 0, and the result nan. *)
Lemma divisor_zero_float32 :
  (0 < 1 / 10 ^ 50)%R /\
  eps_1e50 = S754_zero false /\
  exists sd out,
    bn_divisors X1_column one1 zero1 eps_1e50 = [sd] /\
    get sd [0] = S754_zero false /\
    bn_result X1_column one1 zero1 eps_1e50 = Ok out /\
    get out [0; 0] = S754_nan.
Proof.
  split.
  - apply Rdiv_pos_pos; [lra | apply pow_lt; lra].
  - split; [vm_compute; reflexivity|].
    do 2 eexists. repeat split; vm_compute; reflexivity.
Qed.

(** With a [gamma] of three elements for an input of shape [(2, 1, 1, 1)]
    both branches return, and their results differ: the 2-D branch returns
    an array of shape [(2, 3)], whose reshaping is not the result of the
    4-D branch. *)
Lemma unmatched_scale_differs :
  exists X2 out2 out4,
    reshape_val X2111f [2; 1] = Ok X2 /\
    bn_result_default X2 ramp3 zeros3 = Ok out2 /\
    bn_result_default X2111f ramp3 zeros3 = Ok out4 /\
    shape out2 = [2; 3] /\
    reshape_val out2 [2; 1; 1; 1] <> Ok out4.
Proof.
  do 3 eexists.
  split; [vm_compute; reflexivity|].
  split; [vm_compute; reflexivity|].
  split; [vm_compute; reflexivity|].
  split; [reflexivity|].
  vm_compute. discriminate.
Qed.

End Float32Cases.

(* ================================================================== *)
(** * Part III: further properties of the code                        *)
(* ================================================================== *)

(** ** A feature at a time *)

Section Locality.

Context {T : Type} {ST : Scalar T}.

Lemma column_ext (X X' : NDArray T) (N j : nat) :
  (forall i, i < N -> get X [i; j] = get X' [i; j]) ->
  column X N j = column X' N j.
Proof.
  intros E. unfold column. apply map_ext_in. intros i Hi.
  apply in_seq in Hi. apply E. lia.
Qed.

Lemma channel_ext (X X' : NDArray T) (N H W c : nat) :
  (forall n h w, n < N -> h < H -> w < W ->
     get X [n; c; h; w] = get X' [n; c; h; w]) ->
  channel X N H W c = channel X' N H W c.
Proof.
  intros E. unfold channel.
  apply flat_map_ext_in. intros n Hn.
  apply flat_map_ext_in. intros h Hh.
  apply map_ext_in. intros w Hw.
  apply in_seq in Hn, Hh, Hw. apply E; lia.
Qed.

(** X1. On a dense input each feature is normalized on its own: column [j]
    of the result depends only on column [j] of [X] and on [gamma[j]],
    [beta[j]] and [eps].  Two calls whose inputs agree there agree on
    column [j] of their results, whatever the other columns hold.  This
    holds in any arithmetic, rounding included. *)
Theorem dense_feature_local (X X' gamma gamma' beta beta' : NDArray T)
  (eps : T) (N C j : nat) :
  shape X = [N; C] -> shape X' = [N; C] ->
  shape gamma = [C] -> shape gamma' = [C] ->
  shape beta = [C] -> shape beta' = [C] ->
  j < C ->
  (forall i, i < N -> get X [i; j] = get X' [i; j]) ->
  get gamma [j] = get gamma' [j] ->
  get beta [j] = get beta' [j] ->
  exists out out',
    bn_result X gamma beta eps = Ok out /\
    bn_result X' gamma' beta' eps = Ok out' /\
    forall i, i < N -> get out [i; j] = get out' [i; j].
Proof.
  intros HX HX' Hg Hg' Hb Hb' Hj EX Eg Eb.
  destruct (pure_batch_norm_dense X gamma beta eps HX Hg Hb)
    as (out & sd & E & _ & _ & _ & _ & _ & Go).
  destruct (pure_batch_norm_dense X' gamma' beta' eps HX' Hg' Hb')
    as (out' & sd' & E' & _ & _ & _ & _ & _ & Go').
  exists out, out'. unfold bn_result. rewrite E, E'.
  split; [reflexivity|]. split; [reflexivity|].
  intros i Hi. rewrite (Go i j Hi Hj), (Go' i j Hi Hj).
  unfold col_var_in, col_mean_in.
  rewrite (@column_ext X X' N j EX), (EX i Hi), Eg, Eb. reflexivity.
Qed.

(** X2. On a convolutional input each channel is normalized on its own:
    channel [c] of the result depends only on channel [c] of [X] and on
    [gamma[c]], [beta[c]] and [eps], in any arithmetic. *)
Theorem conv_channel_local (X X' gamma gamma' beta beta' : NDArray T)
  (eps : T) (N C H W c : nat) :
  shape X = [N; C; H; W] -> shape X' = [N; C; H; W] ->
  wf gamma -> shape gamma = [C] -> wf gamma' -> shape gamma' = [C] ->
  wf beta -> shape beta = [C] -> wf beta' -> shape beta' = [C] ->
  c < C ->
  (forall n h w, n < N -> h < H -> w < W ->
     get X [n; c; h; w] = get X' [n; c; h; w]) ->
  get gamma [c] = get gamma' [c] ->
  get beta [c] = get beta' [c] ->
  exists out out',
    bn_result X gamma beta eps = Ok out /\
    bn_result X' gamma' beta' eps = Ok out' /\
    forall n h w, n < N -> h < H -> w < W ->
      get out [n; c; h; w] = get out' [n; c; h; w].
Proof.
  intros HX HX' Wg Hg Wg' Hg' Wb Hb Wb' Hb' Hc EX Eg Eb.
  destruct (pure_batch_norm_conv X eps HX Wg Hg Wb Hb)
    as (out & sd & E & _ & _ & _ & _ & _ & Go).
  destruct (pure_batch_norm_conv X' eps HX' Wg' Hg' Wb' Hb')
    as (out' & sd' & E' & _ & _ & _ & _ & _ & Go').
  exists out, out'. unfold bn_result. rewrite E, E'.
  split; [reflexivity|]. split; [reflexivity|].
  intros n h w Hn Hh Hw.
  rewrite (Go n c h w Hn Hc Hh Hw), (Go' n c h w Hn Hc Hh Hw).
  unfold chan_var_in, chan_mean_in.
  rewrite (@channel_ext X X' N H W c EX), (EX n h w Hn Hh Hw), Eg, Eb.
  reflexivity.
Qed.

End Locality.

Section Positions.

Context {T : Type} {ST : Scalar T}.

Lemma flat_map_of_map (X Y Z : Type) (g : X -> Y) (f : Y -> list Z) (l : list X) :
  flat_map f (map g l) = flat_map (fun x => f (g x)) l.
Proof.
  induction l as [|x l IH]; [reflexivity|].
  cbn [map flat_map]. now rewrite IH.
Qed.

(** The numbers below [a * b], [b] at a time. *)
Lemma seq_mul (a b : nat) :
  seq 0 (a * b) = flat_map (fun i => map (fun j => i * b + j) (seq 0 b)) (seq 0 a).
Proof.
  induction a as [|a IH]; [reflexivity|].
  rewrite seq_S, flat_map_app. cbn [flat_map]. rewrite app_nil_r, <- IH.
  cbn [plus]. replace (S a * b) with (a * b + b) by lia.
  rewrite seq_app. f_equal. cbn [plus]. rewrite map_add_seq. f_equal. lia.
Qed.

Lemma flat_map_flat_map (X Y Z : Type) (g : Y -> list Z) (f : X -> list Y)
  (l : list X) :
  flat_map g (flat_map f l) = flat_map (fun x => flat_map g (f x)) l.
Proof.
  induction l as [|x l IH]; [reflexivity|].
  cbn [flat_map]. now rewrite flat_map_app, IH.
Qed.

(** The values of [f] at the positions below [N * H * W], in order. *)
Lemma map_positions (X : Type) (f : nat -> X) (N H W : nat) :
  map f (seq 0 (N * H * W))
  = flat_map (fun n =>
                flat_map (fun h => map (fun w => f ((n * H + h) * W + w))
                                       (seq 0 W))
                         (seq 0 H))
             (seq 0 N).
Proof.
  rewrite (seq_mul (N * H) W), map_flat_map, (seq_mul N H), flat_map_flat_map.
  apply flat_map_ext. intros n. rewrite flat_map_of_map.
  apply flat_map_ext. intros h. now rewrite map_map.
Qed.

(** X3. The 4-D branch is the 2-D branch with every position of every
    sample as a sample: for an [(N, C, H, W)] input [X] and the
    [(N * H * W, C)] matrix [X2] that holds, in the row of the position
    [(n, h, w)], the values of the channels there, the result for [X] holds
    at [(n, c, h, w)] what the result for [X2] holds in that row and column
    [c].  This holds in any arithmetic. *)
Theorem conv_as_dense (X X2 gamma beta : NDArray T) (eps : T) (N C H W : nat) :
  shape X = [N; C; H; W] -> shape X2 = [N * H * W; C] ->
  wf gamma -> shape gamma = [C] -> wf beta -> shape beta = [C] ->
  (forall n c h w, n < N -> c < C -> h < H -> w < W ->
     get X2 [(n * H + h) * W + w; c] = get X [n; c; h; w]) ->
  exists out out2,
    bn_result X gamma beta eps = Ok out /\
    bn_result X2 gamma beta eps = Ok out2 /\
    forall n c h w, n < N -> c < C -> h < H -> w < W ->
      get out [n; c; h; w] = get out2 [(n * H + h) * W + w; c].
Proof.
  intros HX HX2 Wg Hg Wb Hb E.
  destruct (pure_batch_norm_conv X eps HX Wg Hg Wb Hb)
    as (out & sd & Eo & _ & _ & _ & _ & _ & Go).
  destruct (pure_batch_norm_dense X2 gamma beta eps HX2 Hg Hb)
    as (out2 & sd2 & Eo2 & _ & _ & _ & _ & _ & Go2).
  exists out, out2. unfold bn_result. rewrite Eo, Eo2.
  split; [reflexivity|]. split; [reflexivity|].
  intros n c h w Hn Hc Hh Hw.
  assert (Hpos : (n * H + h) * W + w < N * H * W).
  { assert (A : (n + 1) * H <= N * H) by (apply Nat.mul_le_mono_r; lia).
    assert (B : (n * H + h + 1) * W <= N * H * W)
      by (apply Nat.mul_le_mono_r; lia).
    lia. }
  rewrite (Go n c h w Hn Hc Hh Hw), (Go2 _ c Hpos Hc).
  assert (Ecol : column X2 (N * H * W) c = channel X N H W c).
  { unfold column, channel. rewrite map_positions.
    apply flat_map_ext_in. intros n' Hn'. apply in_seq in Hn'.
    apply flat_map_ext_in. intros h' Hh'. apply in_seq in Hh'.
    apply map_ext_in. intros w' Hw'. apply in_seq in Hw'.
    apply E; lia. }
  unfold col_var_in, col_mean_in, chan_var_in, chan_mean_in.
  rewrite Ecol, (E n c h w Hn Hc Hh Hw). reflexivity.
Qed.

End Positions.

(** ** The lengths of [gamma] and [beta] *)

Section ScaleLength.

Context {T : Type} {ST : Scalar T}.

(** X4. In the 4-D branch [gamma] and [beta] are used through
    [reshape((1, C, 1, 1))], which takes their first [C] elements: an
    array with more than [C] elements is accepted, whatever its shape, and
    the result is that for its first [C] elements; a [gamma] or a [beta]
    with fewer than [C] elements makes the call raise the library's
    error. *)
Theorem conv_scale_prefix (X gamma beta : NDArray T) (eps : T) (N C H W : nat) :
  shape X = [N; C; H; W] ->
  (C <= length (data gamma) -> C <= length (data beta) ->
   bn_result X gamma beta eps
   = bn_result X (mkND [C] (firstn C (data gamma)))
                 (mkND [C] (firstn C (data beta))) eps) /\
  (length (data gamma) < C \/ length (data beta) < C ->
   bn_result X gamma beta eps = Err MXNetError).
Proof.
  intros HX.
  destruct (normalize_conv X eps HX)
    as (X_hat & sd & _ & Sh & _ & _ & _ & _ & E).
  assert (Hsz : size_of [1; C; 1; 1] = C) by (cbn; lia).
  assert (Hre : forall A : NDArray T,
             C <= length (data A) ->
             reshape_val (mkND [C] (firstn C (data A))) [1; C; 1; 1]
             = reshape_val A [1; C; 1; 1]).
  { intros A HA. unfold reshape_val. rewrite Hsz. cbn [data].
    rewrite length_firstn, Nat.min_l by exact HA. rewrite Nat.leb_refl.
    apply Nat.leb_le in HA. rewrite HA.
    rewrite firstn_firstn, Nat.min_id. reflexivity. }
  split.
  - intros Hg Hb. unfold bn_result. rewrite !E. cbn zeta.
    rewrite (Hre gamma Hg), (Hre beta Hb). reflexivity.
  - intros Hgb. unfold bn_result. rewrite E. cbn zeta.
    destruct (Nat.le_gt_cases C (length (data gamma))) as [Hg|Hg].
    + destruct Hgb as [Hg'|Hb]; [lia|].
      rewrite reshape_val_ok by (rewrite Hsz; exact Hg). rewrite den_bind_ok.
      destruct (@broadcast_val_chan_maps T ST s_mul
                  (mkND [1; C; 1; 1] (firstn (size_of [1; C; 1; 1]) (data gamma)))
                  X_hat N C H W eq_refl Sh) as (gx & Egx & _).
      rewrite Egx, den_bind_ok.
      unfold reshape_val at 1. rewrite Hsz.
      apply Nat.leb_gt in Hb. rewrite Hb. reflexivity.
    + unfold reshape_val at 1. rewrite Hsz.
      apply Nat.leb_gt in Hg. rewrite Hg. reflexivity.
Qed.

(** X5. In the 2-D branch [gamma] is multiplied as it is, with
    broadcasting.  For an [(N, C)] input that has elements and more than
    one feature ([N > 0], [C > 1]), a 1-D [gamma] of length [K] (and
    [beta] of length [C]) gives an [(N, C)] result exactly when [K = C] or
    [K = 1] (one scale for all features); any other length makes the call
    raise the library's error. *)
Theorem dense_scale_length (X gamma beta : NDArray T) (eps : T) (N C K : nat) :
  shape X = [N; C] -> shape gamma = [K] -> shape beta = [C] ->
  0 < N -> 1 < C ->
  ((exists out, bn_result X gamma beta eps = Ok out /\ shape out = [N; C])
   <-> K = C \/ K = 1) /\
  (K <> C -> K <> 1 -> bn_result X gamma beta eps = Err MXNetError).
Proof.
  intros HX Hg Hb _ HC1.
  assert (HC : C <> 1) by lia.
  destruct (normalize_dense X eps HX)
    as (X_hat & sd & Wh & Sh & _ & _ & _ & _ & E).
  assert (Herr : K <> C -> K <> 1 ->
                 bn_result X gamma beta eps = Err MXNetError).
  { intros HK HK1. unfold bn_result. rewrite E. cbn zeta.
    unfold broadcast_val at 1. rewrite Hg, Sh.
    unfold broadcast_shape, pad_left. cbn.
    rewrite broadcast_dim_1_l. unfold broadcast_dim.
    destruct (Nat.eqb_spec K C); [contradiction|].
    destruct (Nat.eqb_spec K 1); [contradiction|].
    destruct (Nat.eqb_spec C 1); [contradiction|]. reflexivity. }
  split; [|exact Herr]. split.
  - intros (out & Eo & _).
    destruct (Nat.eq_dec K C) as [|HK]; [now left|].
    destruct (Nat.eq_dec K 1) as [|HK1]; [now right|].
    rewrite (Herr HK HK1) in Eo. discriminate.
  - intros [->| ->].
    + destruct (pure_batch_norm_dense X gamma beta eps HX Hg Hb)
        as (out & sd' & Eo & _ & So & _).
      exists out. unfold bn_result. now rewrite Eo.
    + destruct (@broadcast_val_spec T ST s_mul gamma X_hat [N; C])
        as (gx & Egx & Wgx & Sgx & _).
      { rewrite Hg, Sh. unfold broadcast_shape, pad_left. cbn.
        now rewrite !broadcast_dim_1_l. }
      destruct (broadcast_val_matrix_row s_add gx beta Sgx Hb)
        as (out & Eo & Wo & So & _).
      exists out. unfold bn_result.
      rewrite E, Egx, den_bind_ok, Eo, den_bind_ok. now split.
Qed.

End ScaleLength.

Section Widening.

Context {T : Type} {ST : Scalar T}.


End Widening.

(** ** The arrays that a call creates *)

Section Fresh.

Context {T : Type} {ST : Scalar T}.

Lemma grows_op1 (f : NDArray T -> result (NDArray T)) (r : NDRef) :
  grows (mach_op1 f r).
Proof.
  intros h. unfold mach_op1. destruct (load h r) as [a|]; [|cbn; lia].
  destruct (f a); cbn; rewrite ?length_app; cbn; lia.
Qed.

Lemma grows_op2 (f : NDArray T -> NDArray T -> result (NDArray T))
  (r1 r2 : NDRef) : grows (mach_op2 f r1 r2).
Proof.
  intros h. unfold mach_op2.
  destruct (load h r1) as [a|]; [|cbn; lia].
  destruct (load h r2) as [b|]; [|cbn; lia].
  destruct (f a b); cbn; rewrite ?length_app; cbn; lia.
Qed.

Lemma grows_reshape (r : NDRef) (s : list nat) : grows (mach_reshape (T := T) r s).
Proof.
  intros h. unfold mach_reshape. destruct (load h r) as [a|]; [|cbn; lia].
  destruct (size_of s <=? length (data a)); cbn; lia.
Qed.

Lemma returns_fresh_bind (X : Type) (c : @mach T X) (k : X -> mach NDRef) :
  grows c -> (forall x, returns_fresh (k x)) -> returns_fresh (mach_bind c k).
Proof.
  intros G F h r. unfold mach_bind. specialize (G h).
  destruct (fst (c h)) as [x|e]; [|discriminate].
  intros Hr. apply F in Hr. lia.
Qed.

Lemma returns_fresh_last (f : NDArray T -> NDArray T -> result (NDArray T))
  (r1 r2 : NDRef) :
  returns_fresh (mach_bind (mach_op2 f r1 r2) (fun out => mach_ret out)).
Proof.
  intros h r. unfold mach_bind, mach_op2, mach_ret.
  destruct (load h r1) as [a|]; [|discriminate].
  destruct (load h r2) as [b|]; [|discriminate].
  destruct (f a b); [|discriminate].
  cbn. intros [= <-]. cbn. rewrite length_app. cbn. lia.
Qed.

Lemma returns_fresh_raise (e : error) : returns_fresh (@mach_raise T NDRef e).
Proof. intros h r. discriminate. Qed.

Lemma pure_batch_norm_fresh (rX rg rb : NDRef) (eps : T) :
  returns_fresh (pure_batch_norm (M := mach) rX rg rb eps).
Proof.
  unfold pure_batch_norm.
  cbn [nd_shape nd_mean nd_sub nd_add nd_mul nd_div nd_pow_scalar
       nd_mul_scalar nd_add_scalar nd_sqrt nd_reshape ret bind raise Machine].
  destruct (negb (existsb (Nat.eqb (length (ref_shape rX))) [2; 4]));
    [apply returns_fresh_raise|].
  destruct (length (ref_shape rX) =? 2).
  { repeat first
      [ apply returns_fresh_last
      | apply returns_fresh_bind;
        [first [apply grows_op1 | apply grows_op2 | apply grows_reshape]
        |intros ?] ]. }
  destruct (length (ref_shape rX) =? 4); [|apply returns_fresh_raise].
  destruct (ref_shape rX) as [|N [|C [|H [|W [|? ?]]]]];
    try apply returns_fresh_raise.
  repeat first
    [ apply returns_fresh_last
    | apply returns_fresh_bind;
      [first [apply grows_op1 | apply grows_op2 | apply grows_reshape]
      |intros ?] ].
Qed.

(** X7. The array that [pure_batch_norm] returns lives in a buffer of its
    own, the last one the call allocates: it shares no buffer with [X],
    [gamma], [beta] or any other array that existed before the call (the
    last statement, [gamma * X_hat + beta], makes a new array, in both
    branches). *)
Theorem result_in_new_buffer (h : heap) (rX rg rb r : NDRef) (eps : T) :
  let run := pure_batch_norm (M := mach) rX rg rb eps h in
  fst run = Ok r ->
  S (ref_buf r) = length (snd run) /\
  forall r0 (a : NDArray T), load h r0 = Some a -> ref_buf r0 <> ref_buf r.
Proof.
  intros run Hr.
  destruct (@pure_batch_norm_fresh rX rg rb eps h r Hr) as [Hge Hlast].
  split; [exact Hlast|].
  intros r0 a L. unfold load in L.
  destruct (nth_error h (ref_buf r0)) eqn:E; [|discriminate].
  assert (ref_buf r0 < length h) by (apply nth_error_Some; congruence).
  lia.
Qed.

End Fresh.

Section Allocations.

Context {T : Type} {ST : Scalar T}.

Lemma allocates_op1 (f : NDArray T -> result (NDArray T)) (r : NDRef) :
  allocates 1 (mach_op1 f r).
Proof.
  intros h. unfold mach_op1. destruct (load h r) as [a|].
  - destruct (f a); cbn; rewrite ?length_app; cbn;
      (split; [lia|]); intros ?; (discriminate || (intros _; lia)).
  - cbn. split; [lia|]. discriminate.
Qed.

Lemma allocates_op2 (f : NDArray T -> NDArray T -> result (NDArray T))
  (r1 r2 : NDRef) : allocates 1 (mach_op2 f r1 r2).
Proof.
  intros h. unfold mach_op2.
  destruct (load h r1) as [a|]; [|cbn; split; [lia | discriminate]].
  destruct (load h r2) as [b|]; [|cbn; split; [lia | discriminate]].
  destruct (f a b); cbn; rewrite ?length_app; cbn;
    (split; [lia|]); intros ?; (discriminate || (intros _; lia)).
Qed.

Lemma allocates_reshape (r : NDRef) (s : list nat) :
  allocates 0 (mach_reshape (T := T) r s).
Proof.
  intros h. unfold mach_reshape.
  destruct (load h r) as [a|]; [|cbn; split; [lia | discriminate]].
  destruct (size_of s <=? length (data a)); cbn; (split; [lia|]);
    intros ?; (discriminate || (intros _; lia)).
Qed.

Lemma allocates_ret (X : Type) (x : X) : allocates 0 (@mach_ret T X x).
Proof. intros h. cbn. split; [lia|]. intros; lia. Qed.

Lemma allocates_raise (X : Type) (n : nat) (e : error) :
  allocates n (@mach_raise T X e).
Proof. intros h. cbn. split; [lia|]. discriminate. Qed.

Lemma allocates_bind (X Y : Type) (n m : nat) (c : @mach T X) (k : X -> mach Y) :
  allocates n c -> (forall x, allocates m (k x)) ->
  allocates (n + m) (mach_bind c k).
Proof.
  intros Hc Hk h. unfold mach_bind. destruct (Hc h) as [Hle Hok].
  destruct (fst (c h)) as [x|e].
  - specialize (Hok x eq_refl). destruct (Hk x (snd (c h))) as [Hle' Hok'].
    split; [lia|]. intros y Hy. rewrite (Hok' y Hy). lia.
  - cbn. split; [lia|]. discriminate.
Qed.

Ltac count_allocations :=
  repeat first
    [ apply allocates_ret
    | apply allocates_op1
    | apply allocates_op2
    | apply allocates_reshape
    | apply (@allocates_bind _ _ 1); [first [apply allocates_op1
                                            | apply allocates_op2] | intros ?]
    | apply (@allocates_bind _ _ 0 _); [apply allocates_reshape | intros ?] ].

(** X8. A call that returns has allocated exactly eleven buffers, one per
    arithmetic operation, on a 2-D input and on a 4-D one alike (the
    reshapes of the 4-D branch are views and allocate none; [X - mean] is
    computed twice); a call that raises has allocated at most that many,
    and none when the rank is neither 2 nor 4. *)
Theorem allocation_count (rX rg rb : NDRef) (eps : T) :
  (length (ref_shape rX) = 2 \/ length (ref_shape rX) = 4 ->
   allocates 11 (pure_batch_norm (M := mach) rX rg rb eps)) /\
  (length (ref_shape rX) <> 2 -> length (ref_shape rX) <> 4 ->
   allocates 0 (pure_batch_norm (M := mach) rX rg rb eps)).
Proof.
  unfold pure_batch_norm.
  cbn [nd_shape nd_mean nd_sub nd_add nd_mul nd_div nd_pow_scalar
       nd_mul_scalar nd_add_scalar nd_sqrt nd_reshape ret bind raise Machine].
  split.
  - intros [E|E]; rewrite E; cbn [existsb Nat.eqb orb negb].
    + change 11
        with (1 + (1 + (1 + (1 + (1 + (1 + (1 + (1 + (1 + (1 + (1 + 0))))))))))).
      count_allocations.
    + destruct (ref_shape rX) as [|N [|C [|H [|W [|? ?]]]]]; try discriminate.
      change 11
        with (1 + (0 + (1 + (1 + (1 + (0 + (1 + (1 + (0 + (1 + (1 + (1
              + (0 + (1 + (0 + (1 + 0)))))))))))))))).
      count_allocations.
  - intros H2 H4. cbn [existsb orb].
    destruct (Nat.eqb_spec (length (ref_shape rX)) 2); [contradiction|].
    destruct (Nat.eqb_spec (length (ref_shape rX)) 4); [contradiction|].
    cbn [orb negb]. apply allocates_raise.
Qed.

End Allocations.

(** ** Mean and variance of lists of values *)

Section MomentLemmas.

Import Formula Moments.
Open Scope R_scope.

Lemma col_mean_list (X : NDArray R) (N j : nat) :
  col_mean X N j = mean (column X N j).
Proof.
  unfold col_mean, mean_of, mean, column.
  now rewrite length_map, length_seq.
Qed.

Lemma col_var_list (X : NDArray R) (N j : nat) :
  col_var X N j = var (column X N j).
Proof.
  unfold col_var, mean_of, var. rewrite <- col_mean_list.
  unfold column. now rewrite map_map, length_map, length_seq.
Qed.

Lemma chan_mean_list (X : NDArray R) (N H W c : nat) :
  chan_mean X N H W c = mean (channel X N H W c).
Proof.
  rewrite <- chan_mean_in_R. unfold chan_mean_in, mean_in, mean.
  now rewrite length_channel.
Qed.

Lemma chan_var_list (X : NDArray R) (N H W c : nat) :
  chan_var X N H W c = var (channel X N H W c).
Proof.
  rewrite <- chan_var_in_R. unfold chan_var_in, mean_in, var.
  rewrite chan_mean_in_R, chan_mean_list, length_channel. reflexivity.
Qed.

Lemma INR_length_neq (X : Type) (l : list X) : l <> [] -> INR (length l) <> 0.
Proof.
  intros Hl. apply not_0_INR. destruct l; [congruence | discriminate].
Qed.

Lemma mean_map_affine (a b : R) (l : list R) :
  l <> [] -> mean (map (fun x => a * x + b) l) = a * mean l + b.
Proof.
  intros Hl. unfold mean. rewrite length_map.
  rewrite (Rsum_affine (fun x => x) a b l), map_id.
  field. now apply INR_length_neq.
Qed.

Lemma var_map_affine (a b : R) (l : list R) :
  l <> [] -> var (map (fun x => a * x + b) l) = a * a * var l.
Proof.
  intros Hl. unfold var. rewrite (mean_map_affine a b Hl).
  rewrite map_map, length_map.
  rewrite (@Rsum_ext_in _ (fun x => (a * x + b - (a * mean l + b)) ^ 2)
             (fun x => (a * a) * (x - mean l) ^ 2 + 0))
    by (intros x _; ring).
  rewrite (Rsum_affine (fun x => (x - mean l) ^ 2) (a * a) 0 l).
  field. now apply INR_length_neq.
Qed.

Lemma var_nonneg (l : list R) : 0 <= var l.
Proof.
  unfold var.
  assert (Hs : 0 <= Rsum (map (fun x => (x - mean l) ^ 2) l)).
  { apply Rsum_nonneg, Forall_map, Forall_forall. intros x _.
    apply pow2_ge_0. }
  destruct l as [|y l].
  - cbn [length INR]. unfold Rdiv. rewrite Rinv_0. lra.
  - apply Rmult_le_pos; [exact Hs|].
    left. apply Rinv_0_lt_compat, lt_0_INR. cbn [length]. lia.
Qed.

Lemma Rsum_Permutation (l l' : list R) : Permutation l l' -> Rsum l = Rsum l'.
Proof.
  unfold Rsum. induction 1; cbn [fold_right]; lra.
Qed.

Lemma mean_Permutation (l l' : list R) : Permutation l l' -> mean l = mean l'.
Proof.
  intros P. unfold mean.
  now rewrite (Rsum_Permutation P), (Permutation_length P).
Qed.

Lemma var_Permutation (l l' : list R) : Permutation l l' -> var l = var l'.
Proof.
  intros P. unfold var.
  rewrite (mean_Permutation P), (Permutation_length P).
  f_equal. apply Rsum_Permutation. now apply Permutation_map.
Qed.

(** A scaled and shifted feature, with [eps] scaled to match, is
    normalized to the same values. *)
Lemma normalized_affine (g b eps a t : R) (l : list R) (x : R) :
  l <> [] -> 0 < a ->
  normalized g b (a * a * eps) (map (fun y => a * y + t) l) (a * x + t)
  = normalized g b eps l x.
Proof.
  intros Hl Ha. unfold normalized.
  rewrite (mean_map_affine a t Hl), (var_map_affine a t Hl).
  replace (a * a * var l + a * a * eps) with (a * a * (var l + eps)) by ring.
  rewrite sqrt_mult_alt by nra.
  replace (a * a) with (a ^ 2) by ring.
  rewrite sqrt_pow2 by lra.
  rewrite Rinv_mult.
  set (d := sqrt (var l + eps)).
  replace (g * (/ a * / d) * (a * x + t - (a * mean l + t)) + b)
    with (g * / d * (x - mean l) * (/ a * a) + b) by ring.
  rewrite Rinv_l by lra. ring.
Qed.

Lemma Rsum_ge_term (l : list R) (x : R) :
  Forall (fun y => 0 <= y) l -> In x l -> x <= Rsum l.
Proof.
  unfold Rsum. induction 1 as [|y l Hy Hl IH]; [intros []|].
  intros [<-|Hin]; cbn [fold_right].
  - pose proof (Rsum_nonneg Hl) as Hs. unfold Rsum in Hs. lra.
  - specialize (IH Hin). lra.
Qed.

(** No squared deviation exceeds their sum. *)
Lemma sq_dev_le (l : list R) (x : R) :
  In x l -> (x - mean l) ^ 2 <= INR (length l) * var l.
Proof.
  intros Hin. unfold var.
  assert (Hn : INR (length l) <> 0).
  { apply INR_length_neq. intros ->. destruct Hin. }
  replace (INR (length l)
           * (Rsum (map (fun y => (y - mean l) ^ 2) l) / INR (length l)))
    with (Rsum (map (fun y => (y - mean l) ^ 2) l)) by (field; exact Hn).
  apply Rsum_ge_term.
  - apply Forall_map, Forall_forall. intros y _. apply pow2_ge_0.
  - apply (in_map (fun y => (y - mean l) ^ 2)), Hin.
Qed.

Lemma mean_normalized (g b eps : R) (l : list R) :
  l <> [] -> mean (map (normalized g b eps l) l) = b.
Proof.
  intros Hl. unfold normalized.
  rewrite (map_ext _ (fun x => (g * / sqrt (var l + eps)) * x
                               + (b - g * / sqrt (var l + eps) * mean l)))
    by (intros x; ring).
  rewrite (mean_map_affine _ _ Hl). ring.
Qed.

Lemma var_normalized (g b eps : R) (l : list R) :
  l <> [] -> 0 < var l + eps ->
  var (map (normalized g b eps l) l) = g * g * (var l / (var l + eps)).
Proof.
  intros Hl Hpos. unfold normalized.
  rewrite (map_ext _ (fun x => (g * / sqrt (var l + eps)) * x
                               + (b - g * / sqrt (var l + eps) * mean l)))
    by (intros x; ring).
  rewrite (var_map_affine _ _ Hl).
  assert (Hd : sqrt (var l + eps) * sqrt (var l + eps) = var l + eps)
    by (apply sqrt_sqrt; lra).
  assert (Hd0 : sqrt (var l + eps) <> 0).
  { intros Z. rewrite Z in Hd. lra. }
  rewrite <- Hd at 3. field. exact Hd0.
Qed.

Lemma valid_index_matrix (N C : nat) (idx : list nat) :
  valid_index [N; C] idx ->
  exists i j, idx = [i; j] /\ (i < N)%nat /\ (j < C)%nat.
Proof.
  destruct idx as [|i [|j [|? ?]]]; simpl; try tauto.
  intros (Hi & Hj & _). eauto.
Qed.

Lemma valid_index_maps (N C H W : nat) (idx : list nat) :
  valid_index [N; C; H; W] idx ->
  exists n c h w,
    idx = [n; c; h; w] /\ (n < N)%nat /\ (c < C)%nat /\ (h < H)%nat /\ (w < W)%nat.
Proof.
  destruct idx as [|n [|c [|h [|w [|? ?]]]]]; simpl; try tauto.
  intros (Hn & Hc & Hh & Hw & _). exists n, c, h, w. auto.
Qed.

Lemma column_nonempty (X : NDArray R) (N j i : nat) :
  (i < N)%nat -> column X N j <> [].
Proof.
  intros Hi E. apply (f_equal (@length R)) in E.
  unfold column in E. rewrite length_map, length_seq in E. simpl in E. lia.
Qed.

Lemma channel_nonempty (X : NDArray R) (N H W c n h w : nat) :
  (n < N)%nat -> (h < H)%nat -> (w < W)%nat -> channel X N H W c <> [].
Proof.
  intros Hn Hh Hw E. apply (f_equal (@length R)) in E.
  rewrite length_channel in E. simpl in E.
  assert (0 < N * H * W)%nat by (repeat apply Nat.mul_pos_pos; lia). lia.
Qed.

Lemma in_column (X : NDArray R) (N j i : nat) :
  (i < N)%nat -> In (get X [i; j]) (column X N j).
Proof.
  intros Hi. unfold column. apply (in_map (fun i => get X [i; j])).
  apply in_seq. lia.
Qed.

Lemma in_channel (X : NDArray R) (N H W c n h w : nat) :
  (n < N)%nat -> (h < H)%nat -> (w < W)%nat ->
  In (get X [n; c; h; w]) (channel X N H W c).
Proof.
  intros Hn Hh Hw. unfold channel.
  apply in_flat_map. exists n. split; [apply in_seq; lia|].
  apply in_flat_map. exists h. split; [apply in_seq; lia|].
  apply (in_map (fun w => get X [n; c; h; w])). apply in_seq. lia.
Qed.

(** The result on a dense input, element by element, from the values of
    the element's feature. *)
Lemma dense_normalized (X gamma beta : NDArray R) (eps : R) (N C : nat) :
  shape X = [N; C] -> shape gamma = [C] -> shape beta = [C] ->
  exists out,
    bn_result X gamma beta eps = Ok out /\ wf out /\ shape out = [N; C] /\
    forall i j, (i < N)%nat -> (j < C)%nat ->
      get out [i; j]
      = normalized (get gamma [j]) (get beta [j]) eps (column X N j)
          (get X [i; j]).
Proof.
  intros HX Hg Hb.
  destruct (pure_batch_norm_dense X gamma beta eps HX Hg Hb)
    as (out & sd & E & Wo & So & _ & _ & _ & Go).
  exists out. unfold bn_result. rewrite E.
  split; [reflexivity|]. split; [exact Wo|]. split; [exact So|].
  intros i j Hi Hj. rewrite (Go i j Hi Hj), normalize_in_R.
  unfold divisor_in, normalized.
  rewrite col_var_in_R, col_mean_in_R, col_var_list, col_mean_list.
  cbn [s_sqrt s_add Scalar_R]. unfold Rdiv. ring.
Qed.

Lemma conv_normalized (X gamma beta : NDArray R) (eps : R) (N C H W : nat) :
  shape X = [N; C; H; W] ->
  wf gamma -> shape gamma = [C] -> wf beta -> shape beta = [C] ->
  exists out,
    bn_result X gamma beta eps = Ok out /\ wf out /\
    shape out = [N; C; H; W] /\
    forall n c h w, (n < N)%nat -> (c < C)%nat -> (h < H)%nat -> (w < W)%nat ->
      get out [n; c; h; w]
      = normalized (get gamma [c]) (get beta [c]) eps (channel X N H W c)
          (get X [n; c; h; w]).
Proof.
  intros HX Wg Hg Wb Hb.
  destruct (pure_batch_norm_conv X eps HX Wg Hg Wb Hb)
    as (out & sd & E & Wo & So & _ & _ & _ & Go).
  exists out. unfold bn_result. rewrite E.
  split; [reflexivity|]. split; [exact Wo|]. split; [exact So|].
  intros n c h w Hn Hc Hh Hw.
  rewrite (Go n c h w Hn Hc Hh Hw), normalize_in_R.
  unfold divisor_in, normalized.
  rewrite chan_var_in_R, chan_mean_in_R, chan_var_list, chan_mean_list.
  cbn [s_sqrt s_add Scalar_R]. unfold Rdiv. ring.
Qed.

Lemma column_map (A B : NDArray R) (f : R -> R) (N j : nat) :
  (forall i, (i < N)%nat -> get A [i; j] = f (get B [i; j])) ->
  column A N j = map f (column B N j).
Proof.
  intros E. unfold column. rewrite map_map. apply map_ext_in.
  intros i Hi. apply in_seq in Hi. apply E. lia.
Qed.

End MomentLemmas.

(** ** Invariances of the normalization *)

Section Invariance.

Import Formula Moments.
Open Scope R_scope.

(** Two calls whose elements are normalized to the same values return the
    same array. *)
Lemma dense_same_result (X X' gamma gamma' beta beta' : NDArray R)
  (eps eps' : R) (N C : nat) :
  shape X = [N; C] -> shape gamma = [C] -> shape beta = [C] ->
  shape X' = [N; C] -> shape gamma' = [C] -> shape beta' = [C] ->
  (forall i j, (i < N)%nat -> (j < C)%nat ->
     normalized (get gamma' [j]) (get beta' [j]) eps' (column X' N j)
       (get X' [i; j])
     = normalized (get gamma [j]) (get beta [j]) eps (column X N j)
         (get X [i; j])) ->
  bn_result X' gamma' beta' eps' = bn_result X gamma beta eps.
Proof.
  intros HX Hg Hb HX' Hg' Hb' E.
  destruct (dense_normalized X gamma beta eps HX Hg Hb)
    as (out & Eo & Wo & So & Go).
  destruct (dense_normalized X' gamma' beta' eps' HX' Hg' Hb')
    as (out' & Eo' & Wo' & So' & Go').
  rewrite Eo, Eo'. f_equal. apply array_ext; auto; [congruence|].
  intros idx Hv. rewrite So' in Hv.
  destruct (@valid_index_matrix N C idx Hv) as (i & j & -> & Hi & Hj).
  rewrite (Go i j Hi Hj), (Go' i j Hi Hj). now apply E.
Qed.

Lemma conv_same_result (X X' gamma gamma' beta beta' : NDArray R)
  (eps eps' : R) (N C H W : nat) :
  shape X = [N; C; H; W] ->
  wf gamma -> shape gamma = [C] -> wf beta -> shape beta = [C] ->
  shape X' = [N; C; H; W] ->
  wf gamma' -> shape gamma' = [C] -> wf beta' -> shape beta' = [C] ->
  (forall n c h w, (n < N)%nat -> (c < C)%nat -> (h < H)%nat -> (w < W)%nat ->
     normalized (get gamma' [c]) (get beta' [c]) eps' (channel X' N H W c)
       (get X' [n; c; h; w])
     = normalized (get gamma [c]) (get beta [c]) eps (channel X N H W c)
         (get X [n; c; h; w])) ->
  bn_result X' gamma' beta' eps' = bn_result X gamma beta eps.
Proof.
  intros HX Wg Hg Wb Hb HX' Wg' Hg' Wb' Hb' E.
  destruct (conv_normalized X eps HX Wg Hg Wb Hb)
    as (out & Eo & Wo & So & Go).
  destruct (conv_normalized X' eps' HX' Wg' Hg' Wb' Hb')
    as (out' & Eo' & Wo' & So' & Go').
  rewrite Eo, Eo'. f_equal. apply array_ext; auto; [congruence|].
  intros idx Hv. rewrite So' in Hv.
  destruct (@valid_index_maps N C H W idx Hv) as (n & c & h & w & -> & Hn & Hc & Hh & Hw).
  rewrite (Go n c h w Hn Hc Hh Hw), (Go' n c h w Hn Hc Hh Hw). now apply E.
Qed.

(** X9. Shift invariance, in exact arithmetic: adding a constant to all
    the values of a feature (of a channel, for a 4-D input), one constant
    per feature, does not change the result, for any [eps] (with a divisor
    that is not zero). *)
Theorem shift_invariant (gamma beta : NDArray R) (eps : R) :
  (forall (X X' : NDArray R) (N C : nat) (t : nat -> R),
     shape X = [N; C] -> shape X' = [N; C] ->
     shape gamma = [C] -> shape beta = [C] ->
     (forall j, (j < C)%nat -> 0 < col_var X N j + eps) ->
     (forall i j, (i < N)%nat -> (j < C)%nat ->
        get X' [i; j] = get X [i; j] + t j) ->
     bn_result X' gamma beta eps = bn_result X gamma beta eps) /\
  (forall (X X' : NDArray R) (N C H W : nat) (t : nat -> R),
     shape X = [N; C; H; W] -> shape X' = [N; C; H; W] ->
     wf gamma -> shape gamma = [C] -> wf beta -> shape beta = [C] ->
     (forall c, (c < C)%nat -> 0 < chan_var X N H W c + eps) ->
     (forall n c h w, (n < N)%nat -> (c < C)%nat -> (h < H)%nat -> (w < W)%nat ->
        get X' [n; c; h; w] = get X [n; c; h; w] + t c) ->
     bn_result X' gamma beta eps = bn_result X gamma beta eps).
Proof.
  split.
  - intros X X' N C t HX HX' Hg Hb _ E.
    apply (@dense_same_result X X' gamma gamma beta beta eps eps N C); auto.
    intros i j Hi Hj.
    rewrite (@column_map X' X (fun y => 1 * y + t j) N j)
      by (intros k Hk; rewrite (E k j Hk Hj); ring).
    replace (get X' [i; j]) with (1 * get X [i; j] + t j)
      by (rewrite (E i j Hi Hj); ring).
    replace eps with (1 * 1 * eps) at 1 by ring.
    apply normalized_affine; [|lra]. now apply (@column_nonempty X N j i).
  - intros X X' N C H W t HX HX' Wg Hg Wb Hb _ E.
    apply (@conv_same_result X X' gamma gamma beta beta eps eps N C H W); auto.
    intros n c h w Hn Hc Hh Hw.
    rewrite (@channel_map R _ X' X (fun y => 1 * y + t c) N H W c)
      by (intros n' h' w' Hn' Hh' Hw'; rewrite (E n' c h' w') by assumption; ring).
    replace (get X' [n; c; h; w]) with (1 * get X [n; c; h; w] + t c)
      by (rewrite (E n c h w) by assumption; ring).
    replace eps with (1 * 1 * eps) at 1 by ring.
    apply normalized_affine; [|lra].
    now apply (@channel_nonempty X N H W c n h w).
Qed.

(** X10. Scale invariance, in exact arithmetic: multiplying the input by
    [a > 0] and [eps] by [a * a] does not change the result.  So with
    [eps = 0] the result does not depend on the unit of the input, and a
    positive [eps] is what makes it depend on it. *)
Theorem scale_invariant (gamma beta : NDArray R) (eps a : R) :
  0 < a ->
  (forall (X X' : NDArray R) (N C : nat),
     shape X = [N; C] -> shape X' = [N; C] ->
     shape gamma = [C] -> shape beta = [C] ->
     (forall j, (j < C)%nat -> 0 < col_var X N j + eps) ->
     (forall i j, (i < N)%nat -> (j < C)%nat ->
        get X' [i; j] = a * get X [i; j]) ->
     bn_result X' gamma beta (a * a * eps) = bn_result X gamma beta eps) /\
  (forall (X X' : NDArray R) (N C H W : nat),
     shape X = [N; C; H; W] -> shape X' = [N; C; H; W] ->
     wf gamma -> shape gamma = [C] -> wf beta -> shape beta = [C] ->
     (forall c, (c < C)%nat -> 0 < chan_var X N H W c + eps) ->
     (forall n c h w, (n < N)%nat -> (c < C)%nat -> (h < H)%nat -> (w < W)%nat ->
        get X' [n; c; h; w] = a * get X [n; c; h; w]) ->
     bn_result X' gamma beta (a * a * eps) = bn_result X gamma beta eps).
Proof.
  intros Ha. split.
  - intros X X' N C HX HX' Hg Hb _ E.
    apply (@dense_same_result X X' gamma gamma beta beta eps (a * a * eps) N C);
      auto.
    intros i j Hi Hj.
    rewrite (@column_map X' X (fun y => a * y + 0) N j)
      by (intros k Hk; rewrite (E k j Hk Hj); ring).
    replace (get X' [i; j]) with (a * get X [i; j] + 0)
      by (rewrite (E i j Hi Hj); ring).
    apply normalized_affine; [|exact Ha].
    now apply (@column_nonempty X N j i).
  - intros X X' N C H W HX HX' Wg Hg Wb Hb _ E.
    apply (@conv_same_result X X' gamma gamma beta beta eps (a * a * eps)
             N C H W); auto.
    intros n c h w Hn Hc Hh Hw.
    rewrite (@channel_map R _ X' X (fun y => a * y + 0) N H W c)
      by (intros n' h' w' Hn' Hh' Hw'; rewrite (E n' c h' w') by assumption; ring).
    replace (get X' [n; c; h; w]) with (a * get X [n; c; h; w] + 0)
      by (rewrite (E n c h w) by assumption; ring).
    apply normalized_affine; [|exact Ha].
    now apply (@channel_nonempty X N H W c n h w).
Qed.

Lemma in_permuted (sigma : nat -> nat) (N i : nat) :
  Permutation (map sigma (seq 0 N)) (seq 0 N) ->
  (i < N)%nat -> (sigma i < N)%nat.
Proof.
  intros P Hi.
  assert (Hin : In (sigma i) (seq 0 N)).
  { apply (Permutation_in _ P). apply in_map. apply in_seq. lia. }
  apply in_seq in Hin. lia.
Qed.

Lemma normalized_Permutation (g b eps : R) (l l' : list R) (x : R) :
  Permutation l l' -> normalized g b eps l x = normalized g b eps l' x.
Proof.
  intros P. unfold normalized.
  now rewrite (mean_Permutation P), (var_Permutation P).
Qed.

(** X11. The order of the samples in the batch does not matter, in exact
    arithmetic: if the samples of [X'] are those of [X] in another order
    ([X'[i] = X[sigma i]] for a permutation [sigma] of the batch
    positions), the results are related the same way (with a divisor that
    is not zero). *)
Theorem batch_order_equivariant (gamma beta : NDArray R) (eps : R)
  (sigma : nat -> nat) (N : nat) :
  Permutation (map sigma (seq 0 N)) (seq 0 N) ->
  (forall (X X' : NDArray R) (C : nat),
     shape X = [N; C] -> shape X' = [N; C] ->
     shape gamma = [C] -> shape beta = [C] ->
     (forall j, (j < C)%nat -> 0 < col_var X N j + eps) ->
     (forall i j, (i < N)%nat -> (j < C)%nat ->
        get X' [i; j] = get X [sigma i; j]) ->
     exists out out',
       bn_result X gamma beta eps = Ok out /\
       bn_result X' gamma beta eps = Ok out' /\
       forall i j, (i < N)%nat -> (j < C)%nat ->
         get out' [i; j] = get out [sigma i; j]) /\
  (forall (X X' : NDArray R) (C H W : nat),
     shape X = [N; C; H; W] -> shape X' = [N; C; H; W] ->
     wf gamma -> shape gamma = [C] -> wf beta -> shape beta = [C] ->
     (forall c, (c < C)%nat -> 0 < chan_var X N H W c + eps) ->
     (forall n c h w, (n < N)%nat -> (c < C)%nat -> (h < H)%nat -> (w < W)%nat ->
        get X' [n; c; h; w] = get X [sigma n; c; h; w]) ->
     exists out out',
       bn_result X gamma beta eps = Ok out /\
       bn_result X' gamma beta eps = Ok out' /\
       forall n c h w, (n < N)%nat -> (c < C)%nat -> (h < H)%nat -> (w < W)%nat ->
         get out' [n; c; h; w] = get out [sigma n; c; h; w]).
Proof.
  intros P. split.
  - intros X X' C HX HX' Hg Hb _ E.
    destruct (dense_normalized X gamma beta eps HX Hg Hb)
      as (out & Eo & _ & _ & Go).
    destruct (dense_normalized X' gamma beta eps HX' Hg Hb)
      as (out' & Eo' & _ & _ & Go').
    exists out, out'. split; [exact Eo|]. split; [exact Eo'|].
    intros i j Hi Hj.
    rewrite (Go' i j Hi Hj), (Go (sigma i) j (in_permuted sigma P Hi) Hj).
    rewrite (E i j Hi Hj). apply normalized_Permutation.
    unfold column.
    rewrite (map_ext_in _ (fun i => get X [sigma i; j]))
      by (intros k Hk; apply in_seq in Hk; apply E; lia).
    rewrite <- (map_map sigma (fun k => get X [k; j])).
    now apply Permutation_map.
  - intros X X' C H W HX HX' Wg Hg Wb Hb _ E.
    destruct (conv_normalized X eps HX Wg Hg Wb Hb)
      as (out & Eo & _ & _ & Go).
    destruct (conv_normalized X' eps HX' Wg Hg Wb Hb)
      as (out' & Eo' & _ & _ & Go').
    exists out, out'. split; [exact Eo|]. split; [exact Eo'|].
    intros n c h w Hn Hc Hh Hw.
    rewrite (Go' n c h w Hn Hc Hh Hw),
      (Go (sigma n) c h w (in_permuted sigma P Hn) Hc Hh Hw).
    rewrite (E n c h w Hn Hc Hh Hw). apply normalized_Permutation.
    unfold channel.
    rewrite (@flat_map_ext_in _ _ _
               (fun n => flat_map
                           (fun h => map (fun w => get X [sigma n; c; h; w])
                                         (seq 0 W))
                           (seq 0 H)) (seq 0 N)).
    + rewrite <- (flat_map_of_map sigma
                    (fun n => flat_map
                                (fun h => map (fun w => get X [n; c; h; w])
                                              (seq 0 W))
                                (seq 0 H))).
      now apply Permutation_flat_map.
    + intros k Hk. apply in_seq in Hk.
      apply flat_map_ext_in. intros h' Hh'. apply in_seq in Hh'.
      apply map_ext_in. intros w' Hw'. apply in_seq in Hw'.
      apply E; lia.
Qed.

End Invariance.

(** ** Statistics of the output *)

Section OutputStatistics.

Import Formula Moments.
Open Scope R_scope.

(** X12. Mean and variance of the output, in exact arithmetic, for any
    [eps] with a divisor that is not zero: over the batch dimension (and
    the spatial ones for a 4-D input) the output of feature [j] has mean
    [beta[j]] and variance [gamma[j]^2 * var_j / (var_j + eps)]. *)
Theorem output_moments (gamma beta : NDArray R) (eps : R) :
  (forall (X : NDArray R) (N C j : nat),
     shape X = [N; C] -> shape gamma = [C] -> shape beta = [C] ->
     (0 < N)%nat -> (j < C)%nat ->
     0 < col_var X N j + eps ->
     exists out,
       bn_result X gamma beta eps = Ok out /\
       col_mean out N j = get beta [j] /\
       col_var out N j
       = get gamma [j] * get gamma [j]
         * (col_var X N j / (col_var X N j + eps))) /\
  (forall (X : NDArray R) (N C H W c : nat),
     shape X = [N; C; H; W] ->
     wf gamma -> shape gamma = [C] -> wf beta -> shape beta = [C] ->
     (0 < N)%nat -> (0 < H)%nat -> (0 < W)%nat -> (c < C)%nat ->
     0 < chan_var X N H W c + eps ->
     exists out,
       bn_result X gamma beta eps = Ok out /\
       chan_mean out N H W c = get beta [c] /\
       chan_var out N H W c
       = get gamma [c] * get gamma [c]
         * (chan_var X N H W c / (chan_var X N H W c + eps))).
Proof.
  split.
  - intros X N C j HX Hg Hb HN Hj Hpos.
    destruct (dense_normalized X gamma beta eps HX Hg Hb)
      as (out & Eo & _ & _ & Go).
    exists out. split; [exact Eo|].
    assert (Hl : column X N j <> []) by exact (@column_nonempty X N j 0 HN).
    rewrite !col_mean_list, !col_var_list in *.
    rewrite (@column_map out X
               (normalized (get gamma [j]) (get beta [j]) eps (column X N j))
               N j) by (intros i Hi; now apply Go).
    split; [now apply mean_normalized | now apply var_normalized].
  - intros X N C H W c HX Wg Hg Wb Hb HN HH HW Hc Hpos.
    destruct (conv_normalized X eps HX Wg Hg Wb Hb)
      as (out & Eo & _ & _ & Go).
    exists out. split; [exact Eo|].
    assert (Hl : channel X N H W c <> [])
      by exact (@channel_nonempty X N H W c 0 0 0 HN HH HW).
    rewrite !chan_mean_list, !chan_var_list in *.
    rewrite (@channel_map R _ out X
               (normalized (get gamma [c]) (get beta [c]) eps
                  (channel X N H W c))
               N H W c) by (intros n h w Hn Hh Hw; now apply Go).
    split; [now apply mean_normalized | now apply var_normalized].
Qed.

(** A normalized value is within [sqrt n] scale units of the shift, [n]
    being the number of values of the feature. *)
Lemma normalized_bounded (g b eps : R) (l : list R) (x : R) :
  In x l -> 0 <= eps -> 0 < var l + eps ->
  (normalized g b eps l x - b) ^ 2 <= g * g * INR (length l).
Proof.
  intros Hin He Hpos. unfold normalized.
  set (v := var l) in *. set (d := sqrt (v + eps)).
  assert (Hv : 0 <= v) by apply var_nonneg.
  assert (Hdd : d * d = v + eps) by (apply sqrt_sqrt; lra).
  assert (Hd0 : d <> 0) by (intros Z; rewrite Z in Hdd; lra).
  assert (Hinv : / d * / d = / (v + eps)).
  { rewrite <- Hdd. now rewrite Rinv_mult. }
  replace ((g * / d * (x - mean l) + b - b) ^ 2)
    with (g * g * ((x - mean l) ^ 2 * (/ d * / d))) by ring.
  rewrite Hinv.
  pose proof (sq_dev_le l x Hin) as Hsq. fold v in Hsq.
  assert (Hn : 0 <= INR (length l)) by apply pos_INR.
  assert (Hi : 0 < / (v + eps)) by now apply Rinv_0_lt_compat.
  assert (H1 : (x - mean l) ^ 2 * / (v + eps) <= INR (length l)).
  { apply Rle_trans with (INR (length l) * v * / (v + eps)).
    - apply Rmult_le_compat_r; lra.
    - replace (INR (length l)) with (INR (length l) * (v + eps) * / (v + eps))
        at 2 by (field; lra).
      apply Rmult_le_compat_r; [lra|]. nra. }
  apply Rmult_le_compat_l; [nra | exact H1].
Qed.

(** X13. The output is bounded whatever the data, in exact arithmetic and
    for [eps > 0]: the square of the distance of an output value to
    [beta[j]] is at most [gamma[j]^2 * n], with [n] the number of values
    of its feature ([N] for a dense input, [N * H * W] for a convolutional
    one). *)
Theorem output_bounded (gamma beta : NDArray R) (eps : R) :
  0 < eps ->
  (forall (X : NDArray R) (N C i j : nat),
     shape X = [N; C] -> shape gamma = [C] -> shape beta = [C] ->
     (i < N)%nat -> (j < C)%nat ->
     exists out,
       bn_result X gamma beta eps = Ok out /\
       (get out [i; j] - get beta [j]) ^ 2
       <= get gamma [j] * get gamma [j] * INR N) /\
  (forall (X : NDArray R) (N C H W n c h w : nat),
     shape X = [N; C; H; W] ->
     wf gamma -> shape gamma = [C] -> wf beta -> shape beta = [C] ->
     (n < N)%nat -> (c < C)%nat -> (h < H)%nat -> (w < W)%nat ->
     exists out,
       bn_result X gamma beta eps = Ok out /\
       (get out [n; c; h; w] - get beta [c]) ^ 2
       <= get gamma [c] * get gamma [c] * INR (N * H * W)).
Proof.
  intros He. split.
  - intros X N C i j HX Hg Hb Hi Hj.
    destruct (dense_normalized X gamma beta eps HX Hg Hb)
      as (out & Eo & _ & _ & Go).
    exists out. split; [exact Eo|].
    rewrite (Go i j Hi Hj).
    replace N with (length (column X N j)) at 2
      by (unfold column; now rewrite length_map, length_seq).
    pose proof (var_nonneg (column X N j)) as Hv.
    apply normalized_bounded; [now apply in_column | lra | lra].
  - intros X N C H W n c h w HX Wg Hg Wb Hb Hn Hc Hh Hw.
    destruct (conv_normalized X eps HX Wg Hg Wb Hb)
      as (out & Eo & _ & _ & Go).
    exists out. split; [exact Eo|].
    rewrite (Go n c h w Hn Hc Hh Hw).
    rewrite <- (length_channel X N H W c).
    pose proof (var_nonneg (channel X N H W c)) as Hv.
    apply normalized_bounded; [now apply in_channel | lra | lra].
Qed.

(** X14. Two normalizations in a row with [eps = 0], in exact arithmetic:
    a second [pure_batch_norm] undoes the scale and shift of a first one.
    If the first has positive scales [gamma1] and no feature of [X] is
    constant, normalizing its output gives what normalizing [X] gives. *)
Theorem second_layer_absorbs_first (gamma1 beta1 gamma beta : NDArray R) :
  (forall (X : NDArray R) (N C : nat),
     shape X = [N; C] ->
     shape gamma1 = [C] -> shape beta1 = [C] ->
     shape gamma = [C] -> shape beta = [C] ->
     (forall j, (j < C)%nat -> 0 < get gamma1 [j]) ->
     (forall j, (j < C)%nat -> 0 < col_var X N j) ->
     exists out1,
       bn_result X gamma1 beta1 0 = Ok out1 /\
       bn_result out1 gamma beta 0 = bn_result X gamma beta 0) /\
  (forall (X : NDArray R) (N C H W : nat),
     shape X = [N; C; H; W] ->
     wf gamma1 -> shape gamma1 = [C] -> wf beta1 -> shape beta1 = [C] ->
     wf gamma -> shape gamma = [C] -> wf beta -> shape beta = [C] ->
     (forall c, (c < C)%nat -> 0 < get gamma1 [c]) ->
     (forall c, (c < C)%nat -> 0 < chan_var X N H W c) ->
     exists out1,
       bn_result X gamma1 beta1 0 = Ok out1 /\
       bn_result out1 gamma beta 0 = bn_result X gamma beta 0).
Proof.
  split.
  - intros X N C HX Hg1 Hb1 Hg Hb Hpos Hvar.
    destruct (dense_normalized X gamma1 beta1 0 HX Hg1 Hb1)
      as (out1 & Eo & _ & So & Go).
    exists out1. split; [exact Eo|].
    apply (@dense_same_result X out1 gamma gamma beta beta 0 0 N C); auto.
    intros i j Hi Hj.
    set (l := column X N j).
    set (a := get gamma1 [j] * / sqrt (var l + 0)).
    set (t := get beta1 [j] - a * mean l).
    assert (Ha : 0 < a).
    { unfold a. apply Rmult_lt_0_compat; [now apply Hpos|].
      apply Rinv_0_lt_compat, sqrt_lt_R0.
      specialize (Hvar j Hj). rewrite col_var_list in Hvar. fold l in Hvar.
      lra. }
    rewrite (@column_map out1 X (fun y => a * y + t) N j)
      by (intros k Hk; rewrite (Go k j Hk Hj); unfold normalized, t, a, l; ring).
    replace (get out1 [i; j]) with (a * get X [i; j] + t)
      by (rewrite (Go i j Hi Hj); unfold normalized, t, a, l; ring).
    replace 0 with (a * a * 0) at 1 by ring.
    apply normalized_affine; [|exact Ha].
    now apply (@column_nonempty X N j i).
  - intros X N C H W HX Wg1 Hg1 Wb1 Hb1 Wg Hg Wb Hb Hpos Hvar.
    destruct (conv_normalized X 0 HX Wg1 Hg1 Wb1 Hb1)
      as (out1 & Eo & _ & So & Go).
    exists out1. split; [exact Eo|].
    apply (@conv_same_result X out1 gamma gamma beta beta 0 0 N C H W); auto.
    intros n c h w Hn Hc Hh Hw.
    set (l := channel X N H W c).
    set (a := get gamma1 [c] * / sqrt (var l + 0)).
    set (t := get beta1 [c] - a * mean l).
    assert (Ha : 0 < a).
    { unfold a. apply Rmult_lt_0_compat; [now apply Hpos|].
      apply Rinv_0_lt_compat, sqrt_lt_R0.
      specialize (Hvar c Hc). rewrite chan_var_list in Hvar. fold l in Hvar.
      lra. }
    rewrite (@channel_map R _ out1 X (fun y => a * y + t) N H W c)
      by (intros n' h' w' Hn' Hh' Hw'; rewrite (Go n' c h' w') by assumption;
          unfold normalized, t, a, l; ring).
    replace (get out1 [n; c; h; w]) with (a * get X [n; c; h; w] + t)
      by (rewrite (Go n c h w) by assumption; unfold normalized, t, a, l; ring).
    replace 0 with (a * a * 0) at 1 by ring.
    apply normalized_affine; [|exact Ha].
    now apply (@channel_nonempty X N H W c n h w).
Qed.

End OutputStatistics.

(** ** The state of the training script *)

Module TrainingState.

Import Training TrainingSummary.

Section State.

Variables tensor labels loss_t params num : Type.
Variable view : tensor -> tensor.
Variable zero_grad : params -> params.
Variable forward : params -> tensor -> tensor.
Variable criterion : tensor -> labels -> loss_t.
Variable backward : loss_t -> params -> params.
Variable step : params -> params.
Variable item : loss_t -> num.
Variable num_zero : num.
Variable num_add : num -> num -> num.
Variable num_div : num -> nat -> num.
Variable trainloader : nat -> list (tensor * labels).

Local Abbreviation training_pass :=
  (training_pass view zero_grad forward criterion backward step item num_add).
Local Abbreviation epoch :=
  (epoch view zero_grad forward criterion backward step item num_zero num_add
     num_div trainloader).
Local Abbreviation train :=
  (train view zero_grad forward criterion backward step item num_zero num_add
     num_div trainloader).
Local Abbreviation state := (state params num).
Local Abbreviation sgd_update :=
  (sgd_update view zero_grad forward criterion backward step).
Local Abbreviation pass_update :=
  (pass_update view zero_grad forward criterion backward step item num_add).
Local Abbreviation epoch_summary :=
  (epoch_summary view zero_grad forward criterion backward step item num_zero
     num_add).
Local Abbreviation run_summary :=
  (run_summary view zero_grad forward criterion backward step item num_zero
     num_add num_div trainloader).

Lemma inner_loop_state (e a : nat) (bs : list (tensor * labels)) (st : state) :
  let st' := snd (for_each (combine (seq a (length bs)) bs) (training_pass e) st) in
  (model st', running_loss st') = fold_left pass_update bs (model st, running_loss st)
  /\ stdout st' = stdout st.
Proof.
  revert a st. induction bs as [|b bs IH]; intros a st.
  - split; reflexivity.
  - cbn [length seq combine for_each fold_left]. unfold sbind at 1 2 3.
    destruct (IH (S a) (snd (training_pass e (a, b) st))) as [E1 E2].
    cbn zeta in E1, E2. rewrite E1, E2. split; reflexivity.
Qed.

(** X15. One epoch of the training script, for a loader that yields at
    least one batch (the script divides by their number).  [running_loss]
    is set to 0 at the start of the epoch: the model after the epoch is the per-batch
    update folded over the batches of the loader from the model before;
    [running_loss] is the sum of the losses of these batches, each computed
    with the model as it is when its batch comes, whatever [running_loss]
    held before; and the epoch prints one value, this sum divided by the
    number of batches, after what was printed before. *)
Theorem epoch_resets_running_loss (e : nat) (st : state) :
  trainloader e <> [] ->
  let st' := snd (epoch e st) in
  let pr := epoch_summary (model st) (trainloader e) in
  model st' = fst pr /\
  running_loss st' = snd pr /\
  stdout st' = stdout st ++ [num_div (snd pr) (length (trainloader e))].
Proof.
  intros _. cbn zeta. unfold Training.epoch, enumerate, sbind.
  cbn [call_print get_running_loss snd fst log model running_loss stdout].
  destruct (inner_loop_state e 0 (trainloader e)
              (snd (set_running_loss num_zero st))) as [E1 E2].
  cbn zeta in E1, E2.
  pose proof (f_equal fst E1) as M. pose proof (f_equal snd E1) as R.
  cbn [fst snd] in M, R. rewrite M, R, E2.
  split; [reflexivity|]. split; reflexivity.
Qed.

Lemma epoch_state (e : nat) (st : state) :
  model (snd (epoch e st)) = fst (epoch_summary (model st) (trainloader e)) /\
  stdout (snd (epoch e st))
  = stdout st
    ++ [num_div (snd (epoch_summary (model st) (trainloader e)))
          (length (trainloader e))].
Proof.
  unfold Training.epoch, enumerate, sbind.
  cbn [call_print get_running_loss snd fst log model running_loss stdout].
  destruct (inner_loop_state e 0 (trainloader e)
              (snd (set_running_loss num_zero st))) as [E1 E2].
  cbn zeta in E1, E2.
  pose proof (f_equal fst E1) as M. pose proof (f_equal snd E1) as R.
  cbn [fst snd] in M, R. rewrite M, R, E2.
  split; reflexivity.
Qed.

Lemma outer_loop_state (a n : nat) (st : state) :
  model (snd (for_each (seq a n) epoch st)) = fst (run_summary a n (model st)) /\
  stdout (snd (for_each (seq a n) epoch st))
  = stdout st ++ snd (run_summary a n (model st)).
Proof.
  revert a st. induction n as [|n IH]; intros a st.
  - cbn. now rewrite app_nil_r.
  - cbn [seq for_each TrainingSummary.run_summary fst snd]. unfold sbind at 1 2.
    destruct (IH (S a) (snd (epoch a st))) as [E1 E2].
    destruct (epoch_state a st) as [M S]. rewrite E1, E2, M, S.
    split; [reflexivity|]. now rewrite <- app_assoc.
Qed.

Lemma fst_fold_pass_update (bs : list (tensor * labels)) (p : params) (r : num) :
  fst (fold_left pass_update bs (p, r)) = fold_left sgd_update bs p.
Proof.
  revert p r. induction bs as [|b bs IH]; intros p r; [reflexivity|].
  cbn [fold_left]. unfold TrainingSummary.pass_update at 2. cbn [fst snd].
  apply IH.
Qed.

Lemma run_summary_model (a n : nat) (p : params) :
  fst (run_summary a n p) = fold_left sgd_update (flat_map trainloader (seq a n)) p.
Proof.
  revert a p. induction n as [|n IH]; intros a p; [reflexivity|].
  cbn [TrainingSummary.run_summary seq flat_map fst].
  rewrite fold_left_app, IH. unfold TrainingSummary.epoch_summary.
  now rewrite fst_fold_pass_update.
Qed.

Lemma length_run_summary (a n : nat) (p : params) :
  length (snd (run_summary a n p)) = n.
Proof.
  revert a p. induction n as [|n IH]; intros a p; [reflexivity|].
  cbn [TrainingSummary.run_summary snd length]. now rewrite IH.
Qed.

(** X16. A whole run of [n] epochs, each of at least one batch: the model
    is updated once per batch,
    in the order of the batches of all the epochs; the run prints [n]
    values, one per epoch, after what was printed before. *)
Theorem train_updates_once_per_batch (n : nat) (st : state) :
  (forall e, e < n -> trainloader e <> []) ->
  let st' := snd (train n st) in
  model st' = fold_left sgd_update (batches trainloader n) (model st) /\
  stdout st' = stdout st ++ snd (run_summary 0 n (model st)) /\
  length (stdout st') = length (stdout st) + n.
Proof.
  intros _. cbn zeta. unfold Training.train.
  destruct (outer_loop_state 0 n st) as [E1 E2].
  rewrite E1, E2, run_summary_model. split; [reflexivity|].
  split; [reflexivity|]. now rewrite length_app, length_run_summary.
Qed.

Lemma count_app (c : call) (l1 l2 : list call) :
  count c (l1 ++ l2) = count c l1 + count c l2.
Proof. unfold count. now rewrite filter_app, length_app. Qed.

(** A call that only [f i] can hold is counted in [f i] alone. *)
Lemma count_flat_map_seq (c : call) (f : nat -> list call) (i a n : nat) :
  (forall j, j <> i -> count c (f j) = 0) ->
  count c (flat_map f (seq a n))
  = if (a <=? i) && (i <? a + n) then count c (f i) else 0.
Proof.
  intros Hf. revert a. induction n as [|n IH]; intros a.
  - cbn [seq flat_map]. destruct (Nat.leb_spec a i), (Nat.ltb_spec i (a + 0));
      cbn [andb]; try reflexivity; lia.
  - cbn [seq flat_map]. rewrite count_app, IH.
    destruct (Nat.eq_dec a i) as [->|Ha].
    + destruct (Nat.leb_spec (S i) i); [lia|].
      destruct (Nat.leb_spec i i); [|lia].
      destruct (Nat.ltb_spec i (i + S n)); [|lia]. cbn [andb]. lia.
    + rewrite (Hf a Ha).
      destruct (Nat.leb_spec (S a) i), (Nat.leb_spec a i),
        (Nat.ltb_spec i (S a + n)), (Nat.ltb_spec i (a + S n));
        cbn [andb]; try reflexivity; lia.
Qed.

Lemma count_pass_calls (K : nat -> nat -> call) (e k e' k' : nat) :
  In K kinds ->
  count (K e k) (pass_calls e' k') = if (e =? e') && (k =? k') then 1 else 0.
Proof.
  intros HK. unfold count, pass_calls.
  repeat (destruct HK as [<-|HK]; [cbn; now destruct ((e =? e') && (k =? k'))|]).
  destruct HK.
Qed.

Lemma count_pass_print (e e' k' : nat) :
  count (PrintLoss e) (pass_calls e' k') = 0.
Proof. reflexivity. Qed.

Lemma call_eqb_kind_print (K : nat -> nat -> call) (e k e' : nat) :
  In K kinds -> call_eqb (K e k) (PrintLoss e') = false.
Proof.
  intros HK. repeat (destruct HK as [<-|HK]; [reflexivity|]). destruct HK.
Qed.

(** The calls of one epoch. *)
Lemma count_epoch_calls (K : nat -> nat -> call) (e k e' : nat) :
  In K kinds ->
  count (K e k) (epoch_calls trainloader e')
  = if (e =? e') && (k <? length (trainloader e')) then 1 else 0.
Proof.
  intros HK. unfold epoch_calls. rewrite count_app.
  rewrite (@count_flat_map_seq _ (pass_calls e') k).
  - rewrite (count_pass_calls e k e' k HK). unfold count. cbn [filter].
    rewrite (call_eqb_kind_print e k e' HK). cbn [length plus].
    rewrite Nat.eqb_refl.
    destruct (Nat.eqb_spec e e'), (Nat.ltb_spec k (length (trainloader e')));
      cbn [andb]; reflexivity.
  - intros j Hj. rewrite (count_pass_calls e k e' j HK).
    destruct (Nat.eqb_spec k j); [congruence|]. now rewrite andb_false_r.
Qed.

Lemma count_epoch_print (e e' : nat) :
  count (PrintLoss e) (epoch_calls trainloader e') = if e =? e' then 1 else 0.
Proof.
  unfold epoch_calls. rewrite count_app.
  assert (E : forall l, count (PrintLoss e) (flat_map (pass_calls e') l) = 0).
  { induction l as [|k l IHl]; [reflexivity|].
    cbn [flat_map]. now rewrite count_app, IHl. }
  rewrite E. unfold count. cbn. now destruct (e =? e').
Qed.

Lemma length_run_calls (a n : nat) :
  length (flat_map (epoch_calls trainloader) (seq a n))
  = 7 * length (flat_map trainloader (seq a n)) + n.
Proof.
  revert a. induction n as [|n IH]; intros a; [reflexivity|].
  cbn [seq flat_map]. rewrite !length_app, IH.
  unfold epoch_calls. rewrite length_app.
  rewrite (@flat_map_constant_length _ _ 7 (pass_calls a)) by reflexivity.
  rewrite length_seq. cbn [length]. lia.
Qed.

(** X17. In a run of [n] epochs, each of at least one batch, started with
    no call made, every batch gets each of its seven framework calls
    exactly once ([images.view], [optimizer.zero_grad()], the forward
    pass, the loss, [loss.backward()], [optimizer.step()] and
    [loss.item()]): the call of a kind for batch [k] of epoch [e] is in the
    log once when [e < n] and the loader yields a batch [k] in epoch [e],
    and not at all otherwise.  Each epoch has exactly one [print], and the
    run makes no other call: seven per batch and one per epoch. *)
Theorem calls_per_batch (n : nat) (st : state) :
  (forall e, e < n -> trainloader e <> []) ->
  calls st = [] ->
  let tr := calls (snd (train n st)) in
  (forall K e k, In K kinds ->
     count (K e k) tr
     = if (e <? n) && (k <? length (trainloader e)) then 1 else 0) /\
  (forall e, count (PrintLoss e) tr = if e <? n then 1 else 0) /\
  length tr = 7 * length (batches trainloader n) + n.
Proof.
  intros _ E0. cbn zeta. unfold Training.train.
  rewrite TrainingOrder.calls_outer_loop, E0. cbn [app].
  split; [|split].
  - intros K e k HK.
    rewrite (@count_flat_map_seq _ (epoch_calls trainloader) e).
    + rewrite (count_epoch_calls e k e HK), Nat.eqb_refl. cbn [Nat.leb plus andb].
      destruct (e <? n), (k <? length (trainloader e)); reflexivity.
    + intros j Hj. rewrite (count_epoch_calls e k j HK).
      destruct (Nat.eqb_spec e j); [congruence|]. reflexivity.
  - intros e.
    rewrite (@count_flat_map_seq _ (epoch_calls trainloader) e).
    + rewrite count_epoch_print, Nat.eqb_refl. cbn [Nat.leb plus andb].
      now destruct (e <? n).
    + intros j Hj. rewrite count_epoch_print.
      destruct (Nat.eqb_spec e j); [congruence|]. reflexivity.
  - unfold batches. apply length_run_calls.
Qed.

End State.

End TrainingState.

(** ** Probabilities and gradients *)

Section PredictionLemmas.

Import Formula Prediction.
Open Scope R_scope.

Lemma Rsum_exp_pos (x : list R) : x <> [] -> 0 < Rsum (map exp x).
Proof.
  destruct x as [|v x]; [congruence|]. intros _.
  assert (H : 0 <= Rsum (map exp x)).
  { apply Rsum_nonneg, Forall_map, Forall_forall. intros u _.
    left. apply exp_pos. }
  cbn [map]. unfold Rsum in *. cbn [fold_right].
  pose proof (exp_pos v). lra.
Qed.

Lemma Rsum_scale (X : Type) (f : X -> R) (c : R) (l : list X) :
  Rsum (map (fun v => f v * c) l) = Rsum (map f l) * c.
Proof.
  rewrite (@Rsum_ext_in _ (fun v => f v * c) (fun v => c * f v + 0))
    by (intros v _; ring).
  rewrite Rsum_affine. ring.
Qed.

Lemma Rsum_softmax (x : list R) : x <> [] -> Rsum (softmax x) = 1.
Proof.
  intros Hx. pose proof (Rsum_exp_pos Hx) as Hs.
  unfold softmax, Rdiv. rewrite (Rsum_scale exp). field. lra.
Qed.

Lemma exp_log_softmax (x : list R) :
  x <> [] -> map exp (log_softmax x) = softmax x.
Proof.
  intros Hx. pose proof (Rsum_exp_pos Hx) as Hs.
  unfold log_softmax, softmax. rewrite map_map. apply map_ext. intros v.
  unfold Rminus. rewrite exp_plus, exp_Ropp, exp_ln by exact Hs. reflexivity.
Qed.

(** X18. The prediction cell applies [F.softmax] to the output of a model
    whose last layer is [nn.LogSoftmax], so to log-probabilities, not to
    the scores.  In exact arithmetic the result is nevertheless the softmax
    of the scores: [ps] sums to 1 and each of its elements lies in
    [(0, 1]]. *)
Theorem ps_are_probabilities (scores : list R) :
  scores <> [] ->
  ps scores = softmax scores /\
  Rsum (ps scores) = 1 /\
  Forall (fun p => 0 < p <= 1) (ps scores).
Proof.
  intros Hx. pose proof (Rsum_exp_pos Hx) as Hs.
  assert (E : ps scores = softmax scores).
  { unfold ps. unfold softmax at 1.
    rewrite (exp_log_softmax Hx), (Rsum_softmax Hx).
    rewrite (map_ext _ exp) by (intros v; field).
    now apply exp_log_softmax. }
  split; [exact E|]. rewrite E. split; [now apply Rsum_softmax|].
  unfold softmax. apply Forall_map, Forall_forall. intros v Hv.
  assert (Hle : exp v <= Rsum (map exp scores)).
  { apply Rsum_ge_term; [|now apply in_map].
    apply Forall_map, Forall_forall. intros u _. left. apply exp_pos. }
  pose proof (exp_pos v) as Hp. split.
  - now apply Rdiv_lt_0_compat.
  - apply (Rmult_le_reg_r (Rsum (map exp scores))); [exact Hs|].
    unfold Rdiv. rewrite Rmult_assoc, Rinv_l by lra. lra.
Qed.

End PredictionLemmas.

Section AutogradLemmas.

Import Formula Autograd.
Open Scope R_scope.

Lemma length_replace_nth (k : nat) (t : R) (x : list R) :
  length (replace_nth k t x) = length x.
Proof.
  revert k. induction x as [|v x IH]; intros k; [now destruct k|].
  destruct k; cbn [replace_nth length]; [reflexivity|]. now rewrite IH.
Qed.

Lemma Rsum_replace_nth (f : R -> R) (k : nat) (t : R) (x : list R) :
  (k < length x)%nat ->
  Rsum (map f (replace_nth k t x)) = Rsum (map f x) - f (nth k x 0) + f t.
Proof.
  revert k. induction x as [|v x IH]; intros k Hk; [simpl in Hk; lia|].
  destruct k as [|k]; cbn [replace_nth map nth]; unfold Rsum in *;
    cbn [fold_right].
  - ring.
  - rewrite IH by (simpl in Hk; lia). ring.
Qed.

Lemma z_replace_nth (k : nat) (t : R) (x : list R) :
  (k < length x)%nat ->
  z (replace_nth k t x)
  = (Rsum (map (fun v => v ^ 2) x) - nth k x 0 ^ 2 + t ^ 2) / INR (length x).
Proof.
  intros Hk. unfold z.
  now rewrite length_replace_nth, (Rsum_replace_nth (fun v => v ^ 2)).
Qed.

(** X19. The autograd example: with [y = x ** 2] and [z = y.mean()], the
    gradient of [z] at [x] is [2 * x / n] for an [x] of [n] elements, and
    so [x / 2] for the 2 by 2 tensor of the notebook: the two tensors that
    the cell prints after [z.backward()], [x.grad] and [x / 2], are
    equal. *)
Theorem gradient_of_mean_square (x : list R) :
  gradient_at z x (map (fun v => 2 * v / INR (length x)) x) /\
  (length x = 4%nat -> gradient_at z x (map (fun v => v / 2) x)).
Proof.
  assert (G : gradient_at z x (map (fun v => 2 * v / INR (length x)) x)).
  { split; [apply length_map|]. intros k Hk.
    set (n := INR (length x)).
    assert (Hn : 0 < n) by (apply lt_0_INR; lia).
    replace (nth k (map (fun v => 2 * v / n) x) 0)
      with (2 * nth k x 0 / n).
    2:{ rewrite <- (map_nth (fun v => 2 * v / n) x 0 k). f_equal.
        unfold Rdiv. ring. }
    set (a := nth k x 0).
    intros eps Heps.
    assert (Hd : 0 < eps * n) by now apply Rmult_lt_0_compat.
    exists (mkposreal (eps * n) Hd). intros h Hh Hlt. cbn [pos] in Hlt.
    rewrite !z_replace_nth by exact Hk. fold n. fold a.
    replace (((Rsum (map (fun v => v ^ 2) x) - a ^ 2 + (a + h) ^ 2) / n
              - (Rsum (map (fun v => v ^ 2) x) - a ^ 2 + a ^ 2) / n) / h
             - 2 * a / n)
      with (h * / n) by (field; split; lra).
    rewrite Rabs_mult, (Rabs_right (/ n))
      by (left; now apply Rinv_0_lt_compat).
    apply (Rmult_lt_reg_r n); [exact Hn|].
    rewrite Rmult_assoc, Rinv_l by lra. lra. }
  split; [exact G|]. intros H4.
  replace (map (fun v => v / 2) x)
    with (map (fun v => 2 * v / INR (length x)) x); [exact G|].
  apply map_ext. intros v. rewrite H4. simpl. field.
Qed.

End AutogradLemmas.

(** ** Instances *)

Module MoreWitnesses.

Import Samples MoreSamples Formula Moments.

Open Scope R_scope.

Lemma dense_feature_local_witness :
  exists out out',
    bn_result M22 g2 b2 1 = Ok out /\
    bn_result M22' g2' b2' 1 = Ok out' /\
    forall i, (i < 2)%nat -> get out [i; 0%nat] = get out' [i; 0%nat].
Proof.
  apply (@dense_feature_local R _ M22 M22' g2 g2' b2 b2' 1 2 2 0);
    try reflexivity; try lia.
  intros [|[|i]] Hi; try lia; reflexivity.
Defined.

Lemma conv_channel_local_witness :
  exists out out',
    bn_result F1211 g2 b2 1 = Ok out /\
    bn_result F1211' g2' b2' 1 = Ok out' /\
    forall n h w, (n < 1)%nat -> (h < 1)%nat -> (w < 1)%nat ->
      get out [n; 0%nat; h; w] = get out' [n; 0%nat; h; w].
Proof.
  apply (@conv_channel_local R _ F1211 F1211' g2 g2' b2 b2' 1 1 2 1 1 0);
    try reflexivity; try lia.
  intros [|n] [|h] [|w] Hn Hh Hw; try lia; reflexivity.
Defined.

Lemma conv_as_dense_witness :
  exists out out2,
    bn_result F1212 g2 b2 1 = Ok out /\
    bn_result P22 g2 b2 1 = Ok out2 /\
    forall n c h w, (n < 1)%nat -> (c < 2)%nat -> (h < 1)%nat -> (w < 2)%nat ->
      get out [n; c; h; w] = get out2 [((n * 1 + h) * 2 + w)%nat; c].
Proof.
  apply (@conv_as_dense R _ F1212 P22 g2 b2 1 1 2 1 2); try reflexivity.
  intros [|n] [|[|c]] [|h] [|[|w]] Hn Hc Hh Hw; try lia; reflexivity.
Defined.

Lemma conv_scale_prefix_witness :
  bn_result X2111 g3 b1 1
  = bn_result X2111 (mkND [1%nat] (firstn 1 (data g3)))
      (mkND [1%nat] (firstn 1 (data b1))) 1.
Proof.
  apply (proj1 (@conv_scale_prefix R _ X2111 g3 b1 1 2 1 1 1 eq_refl));
    simpl; lia.
Defined.

Lemma dense_scale_length_witness :
  bn_result M22 g3 b2 1 = Err MXNetError.
Proof.
  apply (proj2 (@dense_scale_length R _ M22 g3 b2 1 2 2 3
                  eq_refl eq_refl eq_refl ltac:(lia) ltac:(lia))); lia.
Defined.


Lemma shift_invariant_witness :
  bn_result X21_shifted g1 b1 1 = bn_result X21 g1 b1 1.
Proof.
  apply (proj1 (shift_invariant g1 b1 1) X21 X21_shifted 2%nat 1%nat
           (fun _ => 10)); try reflexivity.
  - intros j Hj. pose proof (col_var_nonneg X21 2 j). lra.
  - intros [|[|i]] [|j] Hi Hj; try lia; unfold get; simpl; lra.
Defined.

Lemma scale_invariant_witness :
  bn_result X21_doubled g1 b1 (2 * 2 * 1) = bn_result X21 g1 b1 1.
Proof.
  apply (proj1 (@scale_invariant g1 b1 1 2 ltac:(lra)) X21 X21_doubled
           2%nat 1%nat); try reflexivity.
  - intros j Hj. pose proof (col_var_nonneg X21 2 j). lra.
  - intros [|[|i]] [|j] Hi Hj; try lia; unfold get; simpl; lra.
Defined.

Lemma swap_is_permutation :
  Permutation (map (fun i => (1 - i)%nat) (seq 0 2)) (seq 0 2).
Proof. simpl. apply perm_swap. Defined.

Lemma batch_order_equivariant_witness :
  exists out out',
    bn_result X21 g1 b1 1 = Ok out /\
    bn_result X21_swapped g1 b1 1 = Ok out' /\
    forall i j, (i < 2)%nat -> (j < 1)%nat ->
      get out' [i; j] = get out [(1 - i)%nat; j].
Proof.
  apply (proj1 (@batch_order_equivariant g1 b1 1 (fun i => (1 - i)%nat) 2
                  swap_is_permutation) X21 X21_swapped 1%nat);
    try reflexivity.
  - intros j Hj. pose proof (col_var_nonneg X21 2 j). lra.
  - intros [|[|i]] [|j] Hi Hj; try lia; reflexivity.
Defined.

Lemma output_moments_witness :
  exists out,
    bn_result X21 g1 b1 1 = Ok out /\
    col_mean out 2 0 = get b1 [0%nat] /\
    col_var out 2 0
    = get g1 [0%nat] * get g1 [0%nat] * (col_var X21 2 0 / (col_var X21 2 0 + 1)).
Proof.
  apply (proj1 (output_moments g1 b1 1) X21 2%nat 1%nat 0%nat);
    try reflexivity; try lia.
  pose proof (col_var_nonneg X21 2 0). lra.
Defined.

Lemma output_bounded_witness :
  exists out,
    bn_result X21 g1 b1 1 = Ok out /\
    (get out [0%nat; 0%nat] - get b1 [0%nat]) ^ 2
    <= get g1 [0%nat] * get g1 [0%nat] * INR 2.
Proof.
  apply (proj1 (@output_bounded g1 b1 1 ltac:(lra)) X21 2%nat 1%nat 0%nat 0%nat);
    try reflexivity; lia.
Defined.

Lemma second_layer_absorbs_first_witness :
  exists out1,
    bn_result X21 g1 b1 0 = Ok out1 /\
    bn_result out1 g1 b1 0 = bn_result X21 g1 b1 0.
Proof.
  apply (proj1 (second_layer_absorbs_first g1 b1 g1 b1) X21 2%nat 1%nat);
    try reflexivity.
  - intros [|j] Hj; [|lia]. unfold get; simpl. lra.
  - intros [|j] Hj; [|lia]. rewrite Witnesses.col_var_X21. lra.
Defined.

Lemma ps_are_probabilities_witness :
  Rsum (Prediction.ps [0; 0]) = 1.
Proof.
  apply (@ps_are_probabilities [0; 0]). discriminate.
Defined.

Lemma gradient_of_mean_square_witness :
  Autograd.gradient_at Autograd.z [1; 2; 3; 4]
    (map (fun v => v / 2) [1; 2; 3; 4]).
Proof.
  apply (proj2 (gradient_of_mean_square [1; 2; 3; 4])). reflexivity.
Defined.

End MoreWitnesses.

Module MoreFloat32Cases.

Import F32.

Lemma result_in_new_buffer_witness :
  S (ref_buf (mkRef 13 [3; 2]))
  = length (snd (pure_batch_norm (M := mach) refA ref_ones2 ref_zeros2 s_eps heapA))
  /\ ref_buf refA <> 13.
Proof.
  destruct (@result_in_new_buffer _ _ heapA refA ref_ones2 ref_zeros2
              (mkRef 13 [3; 2]) s_eps) as [L F].
  - vm_compute. reflexivity.
  - split; [exact L | exact (F refA A eq_refl)].
Defined.

Lemma allocation_count_witness :
  allocates 11 (pure_batch_norm (M := mach) refA ref_ones2 ref_zeros2 s_eps).
Proof.
  apply (proj1 (allocation_count refA ref_ones2 ref_zeros2 s_eps)).
  left. reflexivity.
Defined.

End MoreFloat32Cases.

Module TrainingWitnesses.

Import Training TrainingSummary MoreSamples.

Lemma one_batch_nonempty (n e : nat) : (e < n)%nat -> one_batch e <> [].
Proof. intros _. discriminate. Defined.

Lemma epoch_resets_running_loss_witness :
  running_loss
    (snd (epoch (fun x : nat => x) (fun p : nat => p)
            (fun (p x : nat) => x) (fun (x l : nat) => x)
            (fun (l p : nat) => p) S (fun l : nat => l)
            0%nat Nat.add Nat.div one_batch 3%nat
            (mkState 0%nat 7%nat [] [])))
  = 3%nat.
Proof.
  exact (proj1 (proj2
    (@TrainingState.epoch_resets_running_loss nat nat nat nat nat
       (fun x => x) (fun p => p) (fun p x => x) (fun x l => x)
       (fun l p => p) S (fun l => l) 0%nat Nat.add Nat.div one_batch 3%nat
       (mkState 0%nat 7%nat [] []) (@one_batch_nonempty 4 3 ltac:(lia))))).
Defined.

Lemma train_updates_once_per_batch_witness :
  model
    (snd (train (fun x : nat => x) (fun p : nat => p)
            (fun (p x : nat) => x) (fun (x l : nat) => x)
            (fun (l p : nat) => p) S (fun l : nat => l)
            0%nat Nat.add Nat.div one_batch 2%nat
            (mkState 0%nat 0%nat [] [])))
  = 2%nat.
Proof.
  exact (proj1
    (@TrainingState.train_updates_once_per_batch nat nat nat nat nat
       (fun x => x) (fun p => p) (fun p x => x) (fun x l => x)
       (fun l p => p) S (fun l => l) 0%nat Nat.add Nat.div one_batch 2%nat
       (mkState 0%nat 0%nat [] []) (one_batch_nonempty (n := 2)))).
Defined.

Lemma calls_per_batch_witness :
  count (Step 1 0)
    (calls (snd (train (fun x : nat => x) (fun p : nat => p)
                   (fun (p x : nat) => x) (fun (x l : nat) => x)
                   (fun (l p : nat) => p) S (fun l : nat => l)
                   0%nat Nat.add Nat.div one_batch 2%nat
                   (mkState 0%nat 0%nat [] []))))
  = 1%nat.
Proof.
  exact (proj1
    (@TrainingState.calls_per_batch nat nat nat nat nat
       (fun x => x) (fun p => p) (fun p x => x) (fun x l => x)
       (fun l p => p) S (fun l => l) 0%nat Nat.add Nat.div one_batch 2%nat
       (mkState 0%nat 0%nat [] []) (one_batch_nonempty (n := 2)) eq_refl)
    Step 1%nat 0%nat ltac:(simpl; tauto)).
Defined.

End TrainingWitnesses.
